(** * Cholesky factorisation and rank-one update/downdate (cholesky.py)

    A shallow embedding of [python/scripts/cholesky.py] and the properties
    its specification states about it.

    Number model.  The arrays hold IEEE binary64 values.  The properties are
    stated "in exact arithmetic", so a finite value is a real number and the
    arithmetic on finite values is the arithmetic of [R]: rounding and
    overflow are idealised away and zero carries no sign.  What numpy
    produces without raising (only a RuntimeWarning) is kept: [inf], [-inf]
    and [nan], division by zero, the square root of a negative number, and
    comparisons with [nan] being false.  Integers are unbounded.

    Machine numbers.  Module [Binary64] has the code once more on the
    numbers numpy computes with, binary64 values that round and overflow
    and 64-bit integers that wrap around; it decides what holds of the
    code as it runs where that differs from exact arithmetic.

    Array model.  A numpy array of floats is a total function of its
    indices; the dimension [N = A.shape[0]] is passed next to it, and every
    slice assignment is a functional update guarded by the slice's bounds.
    Arrays of integers, whose assignments would truncate, are not
    modelled. *)

From Stdlib Require Import Reals Lra Lia List Bool Arith ZArith.
From Stdlib Require Import FunctionalExtensionality.
From Stdlib Require Floats.
Import ListNotations.
Local Open Scope R_scope.

(* ================================================================== *)
(** * Part I. Definitions *)
(* ================================================================== *)

(** ** Scalars *)

Inductive fval : Type :=
| Fin (r : R)
| PInf
| NInf
| NaN.

Definition is_finite (x : fval) : bool :=
  match x with Fin _ => true | _ => false end.

(** The real number held by a finite value (0 for the others; only ever
    used under [is_finite]). *)
Definition val (x : fval) : R :=
  match x with Fin r => r | _ => 0 end.

Definition fneg (x : fval) : fval :=
  match x with
  | Fin r => Fin (- r)
  | PInf => NInf
  | NInf => PInf
  | NaN => NaN
  end.

Definition fadd (x y : fval) : fval :=
  match x, y with
  | Fin a, Fin b => Fin (a + b)
  | NaN, _ | _, NaN => NaN
  | PInf, NInf | NInf, PInf => NaN
  | PInf, _ | _, PInf => PInf
  | NInf, _ | _, NInf => NInf
  end.

Definition fsub (x y : fval) : fval := fadd x (fneg y).

(** [a * i] for a finite [a] and an infinity [i]. *)
Definition scale_inf (a : R) (i : fval) : fval :=
  if Rlt_dec 0 a then i
  else if Rlt_dec a 0 then fneg i
  else NaN.

Definition fmul (x y : fval) : fval :=
  match x, y with
  | Fin a, Fin b => Fin (a * b)
  | NaN, _ | _, NaN => NaN
  | Fin a, i | i, Fin a => scale_inf a i
  | PInf, PInf | NInf, NInf => PInf
  | PInf, NInf | NInf, PInf => NInf
  end.

Definition fdiv (x y : fval) : fval :=
  match x, y with
  | Fin a, Fin b =>
      if Req_dec_T b 0 then scale_inf a PInf else Fin (a / b)
  | NaN, _ | _, NaN => NaN
  | Fin _, _ => Fin 0
  | i, Fin b => if Req_dec_T b 0 then i else scale_inf b i
  | _, _ => NaN
  end.

(** [np.sqrt]: [nan] on a negative argument, no exception. *)
Definition fsqrt (x : fval) : fval :=
  match x with
  | Fin a => if Rlt_dec a 0 then NaN else Fin (sqrt a)
  | PInf => PInf
  | NInf => NaN
  | NaN => NaN
  end.

(** [x >= y]. *)
Definition fge (x y : fval) : bool :=
  match x, y with
  | Fin a, Fin b => if Rle_dec b a then true else false
  | NaN, _ | _, NaN => false
  | PInf, _ => true
  | _, NInf => true
  | _, _ => false
  end.

(** [0 < x]: false on [nan]. *)
Definition fpositive (x : fval) : bool :=
  match x with
  | Fin a => if Rlt_dec 0 a then true else false
  | PInf => true
  | _ => false
  end.

(** Truth value of a number, as [np.argwhere] tests it. *)
Definition fnonzero (x : fval) : bool :=
  match x with
  | Fin a => if Req_dec_T a 0 then false else true
  | _ => true
  end.

(** ** Arrays *)

Definition fvec := nat -> fval.
Definition fmat := nat -> nat -> fval.
Definition rvec := nat -> R.
Definition rmat := nat -> nat -> R.

(** A real array seen as an array of finite floating-point values. *)
Definition inj_vec (v : rvec) : fvec := fun i => Fin (v i).
Definition inj_mat (M : rmat) : fmat := fun i j => Fin (M i j).

(** [np.zeros]. *)
Definition zeros_vec : fvec := fun _ => Fin 0.
Definition zeros_mat : fmat := fun _ _ => Fin 0.

(** [M.T]. *)
Definition transpose (M : fmat) : fmat := fun i j => M j i.

(** [x[:n] @ y[:n]]: the dot product of the first [n] entries. *)
Fixpoint fdot (n : nat) (x y : fvec) : fval :=
  match n with
  | O => Fin 0
  | S n' => fadd (fdot n' x y) (fmul (x n') (y n'))
  end.

(** The sum of the first [n] terms of a real sequence. *)
Fixpoint sumR (n : nat) (f : nat -> R) : R :=
  match n with
  | O => 0
  | S n' => sumR n' f + f n'
  end.

(** Entry [(i, k)] of [M @ M.T] for an [N]-column real matrix. *)
Definition mulT (N : nat) (M : rmat) (i k : nat) : R :=
  sumR N (fun t => M i t * M k t).

Definition rval (M : fmat) : rmat := fun i j => val (M i j).
Definition rvalv (v : fvec) : rvec := fun i => val (v i).

Definition finite_mat (N : nat) (M : fmat) : Prop :=
  forall i j, (i < N)%nat -> (j < N)%nat -> is_finite (M i j) = true.

Definition finite_vec (N : nat) (v : fvec) : Prop :=
  forall i, (i < N)%nat -> is_finite (v i) = true.

Definition lower_triangular (N : nat) (M : rmat) : Prop :=
  forall i j, (i < j)%nat -> (j < N)%nat -> M i j = 0.

Definition positive_diagonal (N : nat) (M : rmat) : Prop :=
  forall j, (j < N)%nat -> 0 < M j j.

Definition symmetric (N : nat) (A : rmat) : Prop :=
  forall i j, (i < N)%nat -> (j < N)%nat -> A i j = A j i.

(** [x^T A x] for the leading [N] entries. *)
Definition quad_form (N : nat) (A : rmat) (x : rvec) : R :=
  sumR N (fun i => sumR N (fun j => x i * A i j * x j)).

Definition SPD (N : nat) (A : rmat) : Prop :=
  symmetric N A /\
  forall x : rvec, (exists i, (i < N)%nat /\ x i <> 0) -> 0 < quad_form N A x.

(** ** Control *)

(** The exceptions the module can raise, by the place that raises them. *)
Inductive error : Type :=
| NotPositiveDefinite   (* ValueError("L is not positive definite.") *)
| InvalidPartition      (* AssertionError of chol_super *)
| NonFiniteInput        (* scipy: "array must not contain infs or NaNs" *)
| SingularMatrix        (* scipy LinAlgError of la.solve *)
| NotPositiveDefiniteBlock (* scipy LinAlgError of la.cholesky *)
| BroadcastError.       (* numpy: operands could not be broadcast *)

Inductive result (A : Type) : Type :=
| Ok (a : A)
| Raise (e : error).
Arguments Ok {A} a.
Arguments Raise {A} e.

Definition bind {A B : Type} (r : result A) (f : A -> result B) : result B :=
  match r with
  | Ok a => f a
  | Raise e => Raise e
  end.

(** [for k in range(n): s = body k s]. *)
Fixpoint for_range {S : Type} (n : nat) (body : nat -> S -> S) (s : S) : S :=
  match n with
  | O => s
  | S n' => body n' (for_range n' body s)
  end.

(** The same loop with a body that may raise: the state reached, and the
    exception that stopped the loop if one did. *)
Fixpoint for_range_e {S : Type} (n : nat) (body : nat -> S -> result S)
    (s : S) : S * option error :=
  match n with
  | O => (s, None)
  | S n' =>
      match for_range_e n' body s with
      | (s', None) =>
          match body n' s' with
          | Ok s'' => (s'', None)
          | Raise e => (s', Some e)
          end
      | stopped => stopped
      end
  end.

Definition completed {S : Type} (r : S * option error) : result S :=
  match r with
  | (s, None) => Ok s
  | (_, Some e) => Raise e
  end.

(** ** Rank-one update: [chol_update]

    The loop state is [(L, w, β)]: the working copies of [L] and [w] and the
    running scale. *)

Definition update_state : Type := fmat * fvec * fval.

Definition update_body (N j : nat) (st : update_state) : update_state :=
  let '(L, w, β) := st in
  let α := fdiv (w j) (L j j) in
  let β2 := fsqrt (fadd (fmul β β) (fmul α α)) in
  let γ := fdiv α (fmul β2 β) in
  let δ := fdiv β β2 in
  (* L[j, j] = δ * L[j, j] + γ * w[j] *)
  let L1 : fmat := fun i t =>
    if (i =? j)%nat && (t =? j)%nat
    then fadd (fmul δ (L j j)) (fmul γ (w j)) else L i t in
  (* w[j] = α *)
  let wj : fvec := fun i => if (i =? j)%nat then α else w i in
  (* if j == N-1: break  (j = N-1 is the last index of range(N)) *)
  if (j =? N - 1)%nat then (L1, wj, β2) else
  (* w1 = w[j+1:].copy() *)
  let w1 : fvec := wj in
  (* w[j+1:] -= α * L[j+1:, j] *)
  let w2 : fvec := fun i =>
    if (j <? i)%nat && (i <? N)%nat
    then fsub (wj i) (fmul α (L1 i j)) else wj i in
  (* L[j+1:, j] = δ * L[j+1:, j] + γ * w1 *)
  let L2 : fmat := fun i t =>
    if (j <? i)%nat && (i <? N)%nat && (t =? j)%nat
    then fadd (fmul δ (L1 i j)) (fmul γ (w1 i)) else L1 i t in
  (L2, w2, β2).

Definition update_loop (N n : nat) (L : fmat) (w : fvec) : update_state :=
  for_range n (update_body N) (L, w, Fin 1).

Definition chol_update (N : nat) (L : fmat) (w : fvec) : fmat * fvec :=
  let '(L', w', _) := update_loop N N L w in (L', w').

(** ** Rank-one downdate: [chol_downdate] *)

Definition downdate_body (N j : nat) (st : update_state)
    : result update_state :=
  let '(L, w, β) := st in
  let α := fdiv (w j) (L j j) in
  if fge (fmul α α) (fmul β β) then Raise NotPositiveDefinite else
  let β2 := fsqrt (fsub (fmul β β) (fmul α α)) in
  let γ := fdiv α (fmul β2 β) in
  let δ := fdiv β2 β in
  (* L[j, j] = δ * L[j, j] *)
  let L1 : fmat := fun i t =>
    if (i =? j)%nat && (t =? j)%nat then fmul δ (L j j) else L i t in
  (* w[j] = α *)
  let wj : fvec := fun i => if (i =? j)%nat then α else w i in
  if (j =? N - 1)%nat then Ok (L1, wj, β2) else
  (* w[j+1:] -= α * L[j+1:, j] *)
  let w2 : fvec := fun i =>
    if (j <? i)%nat && (i <? N)%nat
    then fsub (wj i) (fmul α (L1 i j)) else wj i in
  (* L[j+1:, j] = δ * L[j+1:, j] - γ * w[j+1:] *)
  let L2 : fmat := fun i t =>
    if (j <? i)%nat && (i <? N)%nat && (t =? j)%nat
    then fsub (fmul δ (L1 i j)) (fmul γ (w2 i)) else L1 i t in
  Ok (L2, w2, β2).

(** The first [n] columns of the downdate. *)
Definition downdate_loop (N n : nat) (L : fmat) (w : fvec)
    : update_state * option error :=
  for_range_e n (downdate_body N) (L, w, Fin 1).

Definition chol_downdate (N : nat) (L : fmat) (w : fvec)
    : result (fmat * fvec) :=
  bind (completed (downdate_loop N N L w))
       (fun st => let '(L', w', _) := st in Ok (L', w')).

(** The test [α**2 >= β**2] of column [j] in state [st]. *)
Definition downdate_check (j : nat) (st : update_state) : bool :=
  let '(L, w, β) := st in
  let α := fdiv (w j) (L j j) in
  fge (fmul α α) (fmul β β).

(** *** The call, with the caller's arrays in a store

    [L = np.ascontiguousarray(L).copy()] and the same for [w] rebind the
    parameters to fresh arrays; the loop writes to those.  The store maps a
    reference (an index) to an array; a call returns the new store and
    either the references of the two returned arrays or the exception. *)

Record store : Type := {
  matrices : list fmat;
  vectors : list fvec
}.

Definition alloc_copies (h : store) (L : fmat) (w : fvec) : store :=
  {| matrices := matrices h ++ [L]; vectors := vectors h ++ [w] |}.

Definition write_copies (h : store) (L : fmat) (w : fvec) : store :=
  {| matrices := removelast (matrices h) ++ [L];
     vectors := removelast (vectors h) ++ [w] |}.

Definition chol_downdate_call (N : nat) (h : store) (pL pw : nat)
    : option (store * result (nat * nat)) :=
  match nth_error (matrices h) pL, nth_error (vectors h) pw with
  | Some L, Some w =>
      let h1 := alloc_copies h L w in
      let '((L', w', _), stopped) := downdate_loop N N L w in
      let h2 := write_copies h1 L' w' in
      match stopped with
      | None => Some (h2, Ok (length (matrices h), length (vectors h)))
      | Some e => Some (h2, Raise e)
      end
  | _, _ => None   (* dangling reference: not a call Python can make *)
  end.

(** ** Unified entry point: [chol_updown] *)

Definition updown_body (N : nat) (update : bool) (k : nat)
    (st : update_state) : update_state :=
  let '(L, w, β) := st in
  let σ := if update then Fin 1 else Fin (-1) in
  let α := fdiv (w k) (L k k) in
  let β2 := fsqrt (fadd (fmul β β) (fmul σ (fmul α α))) in
  let γ := fdiv (fmul σ α) (fmul β2 β) in
  let '(L2, w2) :=
    if update then
      let δ := fdiv β β2 in
      let L1 : fmat := fun i t =>
        if (i =? k)%nat && (t =? k)%nat
        then fadd (fmul δ (L k k)) (fmul γ (w k)) else L i t in
      let w1 : fvec := w in
      let w2 : fvec := fun i =>
        if (k <? i)%nat && (i <? N)%nat
        then fsub (w i) (fmul α (L1 i k)) else w i in
      let L2 : fmat := fun i t =>
        if (k <? i)%nat && (i <? N)%nat && (t =? k)%nat
        then fadd (fmul δ (L1 i k)) (fmul γ (w1 i)) else L1 i t in
      (L2, w2)
    else
      let δ := fdiv β2 β in
      let L1 : fmat := fun i t =>
        if (i =? k)%nat && (t =? k)%nat then fmul δ (L k k) else L i t in
      let w2 : fvec := fun i =>
        if (k <? i)%nat && (i <? N)%nat
        then fsub (w i) (fmul α (L1 i k)) else w i in
      let L2 : fmat := fun i t =>
        if (k <? i)%nat && (i <? N)%nat && (t =? k)%nat
        then fadd (fmul δ (L1 i k)) (fmul γ (w2 i)) else L1 i t in
      (L2, w2) in
  (* w[k] = α; β = β2 *)
  (L2, (fun i => if (i =? k)%nat then α else w2 i), β2).

Definition chol_updown (N : nat) (L : fmat) (w : fvec) (update : bool)
    : fmat * fvec :=
  let σ := if update then Fin 1 else Fin (-1) in
  if (N =? 1)%nat then
    (* L = np.sqrt(L*L.T + σ * w*w.T); return L, w *)
    ((fun i t => fsqrt (fadd (fmul (L i t) (transpose L i t))
                             (fmul (fmul σ (w t)) (w t)))),
     w)
  else
    let '(L', w', _) := for_range N (updown_body N update) (L, w, Fin 1) in
    (L', w').


(** ** External routines

    [scipy.linalg.solve], [scipy.linalg.cholesky] and numpy's broadcasting
    are not code of this repository.  They are modelled by what they
    compute in exact arithmetic on the arguments this module passes them,
    and by the exceptions they raise. *)

Definition vec_finite (n : nat) (v : fvec) : bool :=
  forallb (fun i => is_finite (v i)) (seq 0 n).

Definition mat_finite (r c : nat) (M : fmat) : bool :=
  forallb (fun i => vec_finite c (M i)) (seq 0 r).

(** Forward substitution on the leading [n] by [n] block: row [i] gives
    [x i] from the entries before it. *)
Fixpoint forward_subst (n : nat) (M : fmat) (b : fvec) : fvec :=
  match n with
  | O => zeros_vec
  | S n' =>
      let x := forward_subst n' M b in
      fun i => if (i =? n')%nat
               then fdiv (fsub (b n') (fdot n' (M n') x)) (M n' n')
               else x i
  end.

(** [la.solve(a[:n, :n], b[:n])] for a lower-triangular [a], the only kind
    [chol_up] passes: [check_finite] rejects [inf] and [nan], a zero on the
    diagonal makes the matrix singular, and otherwise the solution is the
    one forward substitution finds. *)
Definition la_solve (n : nat) (a : fmat) (b : fvec) : result fvec :=
  if negb (mat_finite n n a && vec_finite n b) then Raise NonFiniteInput
  else if existsb (fun i => negb (fnonzero (a i i))) (seq 0 n)
       then Raise SingularMatrix
       else Ok (forward_subst n a b).

(** One row of LAPACK's [potrf] on the upper triangle: the pivot must be
    positive, the row of [U] right of it is divided by its square root. *)
Definition potrf_body (sz : nat) (a : fmat) (j : nat) (U : fmat)
    : result fmat :=
  let ajj := fsub (a j j) (fdot j (fun t => U t j) (fun t => U t j)) in
  if fpositive ajj then
    let ujj := fsqrt ajj in
    Ok (fun r c =>
          if (r =? j)%nat && (c =? j)%nat then ujj
          else if (r =? j)%nat && (j <? c)%nat && (c <? sz)%nat
               then fdiv (fsub (a j c)
                               (fdot j (fun t => U t j) (fun t => U t c)))
                         ujj
               else U r c)
  else Raise NotPositiveDefiniteBlock.

(** [la.cholesky(a)] on an [sz] by [sz] array: the upper-triangular [U]
    with [U^T U = a], read from the upper triangle of [a]. *)
Definition la_cholesky (sz : nat) (a : fmat) : result fmat :=
  if mat_finite sz sz a
  then completed (for_range_e sz (potrf_body sz a) zeros_mat)
  else Raise NonFiniteInput.

(** Broadcasting of two dimensions: equal, or one of them is 1. *)
Definition broadcast_dim (a b : nat) : option nat :=
  if (a =? b)%nat then Some a
  else if (a =? 1)%nat then Some b
  else if (b =? 1)%nat then Some a
  else None.

(** Index into a dimension of size [d] that takes part in a broadcast. *)
Definition bidx (d i : nat) : nat := if (d =? 1)%nat then 0%nat else i.

(** [X / Y], element by element, for two-dimensional arrays of shapes
    [sx] and [sy]: the shape of the quotient and the quotient. *)
Definition broadcast_div (sx : nat * nat) (X : fmat)
    (sy : nat * nat) (Y : fmat) : result ((nat * nat) * fmat) :=
  match broadcast_dim (fst sx) (fst sy), broadcast_dim (snd sx) (snd sy) with
  | Some r, Some c =>
      Ok ((r, c),
          fun i j => fdiv (X (bidx (fst sx) i) (bidx (snd sx) j))
                          (Y (bidx (fst sy) i) (bidx (snd sy) j)))
  | _, _ => Raise BroadcastError
  end.

(** A value of shape [sv] can be assigned to a slice of shape [st] when
    each of its dimensions is the slice's or 1. *)
Definition assignable (st sv : nat * nat) : bool :=
  ((fst sv =? fst st)%nat || (fst sv =? 1)%nat) &&
  ((snd sv =? snd st)%nat || (snd sv =? 1)%nat).

(** ** Factorisations *)

(** [L if lower else L.T]. *)
Definition oriented (lower : bool) (L : fmat) : fmat :=
  if lower then L else transpose L.

(** *** Up-looking: [chol_up] *)

Definition chol_up_body (A : fmat) (k : nat) (L : fmat) : result fmat :=
  (* L[k, :k] = la.solve(L[:k, :k], A[:k, k]).T *)
  bind (la_solve k L (fun i => A i k)) (fun x =>
  let L1 : fmat := fun i t =>
    if (i =? k)%nat && (t <? k)%nat then x t else L i t in
  (* L[k, k] = np.sqrt(A[k, k] - L[k, :k] @ L[k, :k]) *)
  let L2 : fmat := fun i t =>
    if (i =? k)%nat && (t =? k)%nat
    then fsqrt (fsub (A k k) (fdot k (L1 k) (L1 k))) else L1 i t in
  Ok L2).

Definition chol_up_loop (A : fmat) (n : nat) : fmat * option error :=
  for_range_e n (chol_up_body A) zeros_mat.

Definition chol_up (N : nat) (A : fmat) (lower : bool) : result fmat :=
  bind (completed (chol_up_loop A N)) (fun L => Ok (oriented lower L)).

(** *** Left-looking: [chol_left] *)

Definition chol_left_body (N : nat) (A : fmat) (k : nat) (L : fmat) : fmat :=
  (* L[k, k] = np.sqrt(A[k, k] - L[k, :k] @ L[k, :k].T) *)
  let L1 : fmat := fun i t =>
    if (i =? k)%nat && (t =? k)%nat
    then fsqrt (fsub (A k k) (fdot k (L k) (L k))) else L i t in
  (* L[k+1:, k] = (A[k+1:, k] - L[k+1:, :k] @ L[k, :k].T) / L[k, k] *)
  fun i t =>
    if (k <? i)%nat && (i <? N)%nat && (t =? k)%nat
    then fdiv (fsub (A i k) (fdot k (L1 i) (L1 k))) (L1 k k) else L1 i t.

Definition chol_left_loop (N : nat) (A : fmat) (n : nat) : fmat :=
  for_range n (chol_left_body N A) zeros_mat.

Definition chol_left (N : nat) (A : fmat) (lower : bool) : fmat :=
  oriented lower (chol_left_loop N A N).

(** *** Left-looking over the nonzeros of row [k]: [chol_left_amp]

    The state is [(L, a)]; [a] is allocated once and reused. *)

Definition chol_left_amp_body (N : nat) (A : fmat) (k : nat)
    (st : fmat * fvec) : fmat * fvec :=
  let '(L, a) := st in
  (* a[k:] = A[k:, k] *)
  let a1 : fvec := fun i =>
    if (k <=? i)%nat && (i <? N)%nat then A i k else a i in
  (* for j in np.argwhere(L[k]).flat: a[k:] -= L[k:, j] * L[k, j] *)
  let a2 : fvec :=
    for_range N
      (fun j (acc : fvec) =>
         if fnonzero (L k j)
         then fun i => if (k <=? i)%nat && (i <? N)%nat
                       then fsub (acc i) (fmul (L i j) (L k j)) else acc i
         else acc)
      a1 in
  (* L[k, k] = np.sqrt(a[k]) *)
  let L1 : fmat := fun i t =>
    if (i =? k)%nat && (t =? k)%nat then fsqrt (a2 k) else L i t in
  (* L[k+1:, k] = a[k+1:] / L[k, k] *)
  let L2 : fmat := fun i t =>
    if (k <? i)%nat && (i <? N)%nat && (t =? k)%nat
    then fdiv (a2 i) (L1 k k) else L1 i t in
  (L2, a2).

Definition chol_left_amp (N : nat) (A : fmat) (lower : bool) : fmat :=
  oriented lower
    (fst (for_range N (chol_left_amp_body N A) (zeros_mat, zeros_vec))).

(** *** Right-looking: [chol_right]

    The state is [(A, L)], [A] being the working copy of the argument. *)

Definition chol_right_body (N : nat) (k : nat) (st : fmat * fmat)
    : fmat * fmat :=
  let '(A, L) := st in
  (* L[k, k] = np.sqrt(A[k, k]) *)
  let L1 : fmat := fun i t =>
    if (i =? k)%nat && (t =? k)%nat then fsqrt (A k k) else L i t in
  (* L[k+1:, k] = A[k+1:, k] / L[k, k] *)
  let L2 : fmat := fun i t =>
    if (k <? i)%nat && (i <? N)%nat && (t =? k)%nat
    then fdiv (A i k) (L1 k k) else L1 i t in
  (* A[k+1:, k+1:] -= L[k+1:, [k]] @ L[k+1:, [k]].T *)
  let A1 : fmat := fun i t =>
    if (k <? i)%nat && (i <? N)%nat && (k <? t)%nat && (t <? N)%nat
    then fsub (A i t) (fmul (L2 i k) (L2 t k)) else A i t in
  (A1, L2).

Definition chol_right_loop (N : nat) (A : fmat) (n : nat) : fmat * fmat :=
  for_range n (chol_right_body N) (A, zeros_mat).

Definition chol_right (N : nat) (A : fmat) (lower : bool) : fmat :=
  oriented lower (snd (chol_right_loop N A N)).

(** *** Supernodal: [chol_super] *)

(** [np.sum(s)], the integers unbounded ([Binary64.np_sum] wraps). *)
Definition sumZ (s : list Z) : Z := fold_right Z.add 0%Z s.

(** [ss[j]] for [ss = np.cumsum(np.r_[0, s])], the integers unbounded. *)
Definition cumsum_at (s : list Z) (j : nat) : nat :=
  Z.to_nat (sumZ (firstn j s)).

Definition chol_super_body (N : nat) (A : fmat) (s : list Z) (j : nat)
    (L : fmat) : result fmat :=
  let k1 := cumsum_at s j in
  let k2 := cumsum_at s (S j) in
  let sz := (k2 - k1)%nat in
  let in_k := fun i => (k1 <=? i)%nat && (i <? k2)%nat in
  (* L[k, k] = la.cholesky(A[k, k] - L[k, :k1] @ L[k, :k1].T).T *)
  let B : fmat := fun r c =>
    fsub (A (k1 + r)%nat (k1 + c)%nat)
         (fdot k1 (L (k1 + r)%nat) (L (k1 + c)%nat)) in
  bind (la_cholesky sz B) (fun U =>
  let L1 : fmat := fun i t =>
    if in_k i && in_k t then transpose U (i - k1)%nat (t - k1)%nat
    else L i t in
  (* L[k2:, k] = (A[k2:, k] - L[k2:, :k1] @ L[k, :k1].T) / L[k, k].T *)
  let m := (N - k2)%nat in
  let X : fmat := fun r c =>
    fsub (A (k2 + r)%nat (k1 + c)%nat)
         (fdot k1 (L1 (k2 + r)%nat) (L1 (k1 + c)%nat)) in
  let D : fmat := fun r c => transpose L1 (k1 + r)%nat (k1 + c)%nat in
  bind (broadcast_div (m, sz) X (sz, sz) D) (fun q =>
  let '(shape, Q) := q in
  if assignable (m, sz) shape then
    Ok (fun i t =>
          if (k2 <=? i)%nat && (i <? N)%nat && in_k t
          then Q (bidx (fst shape) (i - k2)%nat) (bidx (snd shape) (t - k1)%nat)
          else L1 i t)
  else Raise BroadcastError)).

Definition chol_super (N : nat) (A : fmat) (s : list Z) (lower : bool)
    : result fmat :=
  (* assert np.sum(s) == N *)
  if negb (sumZ s =? Z.of_nat N)%Z then Raise InvalidPartition
  (* assert np.all(s > 0) *)
  else if negb (forallb (fun x => (0 <? x)%Z) s) then Raise InvalidPartition
  else
    bind (completed (for_range_e (length s) (chol_super_body N A s) zeros_mat))
         (fun L => Ok (oriented lower L)).

(** ** Notions used to state the properties *)

(** The part of the working vector [w] that is still a residual after [n]
    columns: entries before [n] hold the solved values. *)
Definition residual (n : nat) (w : fvec) : rvec :=
  fun i => if (i <? n)%nat then 0 else val (w i).

(** State of the update ([sgn = 1]) or downdate ([sgn = -1]) after [n]
    columns, started on [(Lin, win)]. *)
Record rank_one_inv (sgn : R) (N : nat) (Lin : fmat) (win : fvec) (n : nat)
    (st : update_state) : Prop := {
  ui_finite_L : finite_mat N (fst (fst st));
  ui_finite_w : finite_vec N (snd (fst st));
  ui_finite_b : is_finite (snd st) = true;
  ui_scale_pos : 0 < val (snd st);
  ui_upper : forall i t, (i < t)%nat -> fst (fst st) i t = Lin i t;
  ui_outside : forall i t, (N <= i)%nat -> fst (fst st) i t = Lin i t;
  ui_todo : forall i t, (n <= t)%nat -> fst (fst st) i t = Lin i t;
  ui_diag : forall t, (t < n)%nat -> 0 < val (fst (fst st) t t);
  ui_residual : forall i, (n <= i)%nat -> (i < N)%nat ->
      val (snd (fst st) i) =
      val (win i) - sumR n (fun t => val (Lin i t) * val (snd (fst st) t));
  ui_solved : forall i, (i < n)%nat ->
      sumR i (fun t => val (Lin i t) * val (snd (fst st) t)) +
      val (Lin i i) * val (snd (fst st) i) = val (win i);
  ui_product : forall i k, (i < N)%nat -> (k < N)%nat ->
      mulT N (rval (fst (fst st))) i k +
      sgn * (residual n (snd (fst st)) i * residual n (snd (fst st)) k /
             (val (snd st) * val (snd st))) =
      mulT N (rval Lin) i k + sgn * (val (win i) * val (win k))
}.

(** ** Concrete data *)

(** The scenario of the specification: [L = diag(2, 3, 4)], [w = (0, 0, 1)]. *)
Definition L_diag234 : rmat := fun i j =>
  if (i =? j)%nat then match i with 0%nat => 2 | 1%nat => 3 | _ => 4 end else 0.

Definition w_001 : rvec := fun i => match i with 2%nat => 1 | _ => 0 end.

(** A one by one factor and a vector: [L = [[2]]], [w = [1]]. *)
Definition L_two : rmat := fun _ _ => 2.
Definition w_one : rvec := fun _ => 1.

Definition w_three : rvec := fun _ => 3.


(** The two by two identity and the vector [(3, 0)]. *)
Definition L_identity : rmat := fun i j => if (i =? j)%nat then 1 else 0.
Definition w_30 : rvec := fun i => match i with 0%nat => 3 | _ => 0 end.

(** The radicand of row [k] of [chol_up], [x] being the solved row. *)
Definition chol_up_radicand (A : fmat) (k : nat) (x : fvec) : fval :=
  fsub (A k k) (fdot k x x).

(** The one by one matrix [[-1]] and the matrix [diag(-1, 1)]. *)
Definition A_minus_one : rmat := fun _ _ => -1.
Definition A_diag_m1_1 : rmat := fun i j =>
  if (i =? j)%nat then match i with 0%nat => -1 | _ => 1 end else 0.

(** The first (and only) diagonal block that [chol_super] hands to
    [la.cholesky] for the two by two identity and the partition [(2)]. *)
Definition identity_block : fmat := fun r c =>
  fsub (inj_mat L_identity (0 + r)%nat (0 + c)%nat)
       (fdot 0 (zeros_mat (0 + r)%nat) (zeros_mat (0 + c)%nat)).

(** State of a column-by-column factorisation of [A] after [n] columns:
    the columns before [n] are final, the rest of [L] is still zero. *)
Record factor_inv (N : nat) (A : rmat) (n : nat) (L : fmat) : Prop := {
  fi_finite : forall i t, is_finite (L i t) = true;
  fi_zero : forall i t,
      (n <= t)%nat \/ (i < t)%nat \/ (N <= i)%nat -> L i t = Fin 0;
  fi_diag : forall t, (t < n)%nat -> 0 < val (L t t);
  fi_cols : forall t i, (t < n)%nat -> (t <= i)%nat -> (i < N)%nat ->
      sumR (S t) (fun u => val (L i u) * val (L t u)) = A i t
}.

(** The pivot of column [n] and the entries below it, from the columns
    before [n]. *)
Definition pivot (A : rmat) (L : fmat) (n : nat) : R :=
  A n n - sumR n (fun u => val (L n u) * val (L n u)).

Definition below_pivot (A : rmat) (L : fmat) (n i : nat) : R :=
  (A i n - sumR n (fun u => val (L i u) * val (L n u))) / sqrt (pivot A L n).

(** The partition into single columns. *)
Definition all_ones (N : nat) : list Z := repeat 1%Z N.

(** [[4, 2], [2, 5]], positive definite. *)
Definition A_4225 : rmat := fun i j =>
  match i, j with
  | 0%nat, 0%nat => 4
  | 0%nat, 1%nat => 2
  | 1%nat, 0%nat => 2
  | 1%nat, 1%nat => 5
  | _, _ => 0
  end.

(** The first [k] rows of [L] over zeros: what the up-looking loop has
    filled after [k] rows. *)
Definition leading_rows (k : nat) (L : fmat) : fmat := fun i t =>
  if (i <? k)%nat then L i t else Fin 0.

(** ** Notions for the two orientations of a factor *)

Definition upper_triangular (N : nat) (M : rmat) : Prop :=
  forall i j, (j < i)%nat -> (i < N)%nat -> M i j = 0.

(** Entry [(i, k)] of [M.T @ M] for an [N]-row real matrix. *)
Definition Tmul (N : nat) (M : rmat) (i k : nat) : R :=
  sumR N (fun t => M t i * M t k).

(** [M] is the Cholesky factor of [A] in the orientation asked for:
    lower-triangular with [M M^T = A], or upper-triangular with
    [M^T M = A]; the diagonal is positive. *)
Definition cholesky_factor (N : nat) (A : rmat) (lower : bool) (M : fmat)
    : Prop :=
  finite_mat N M /\ positive_diagonal N (rval M) /\
  if lower
  then lower_triangular N (rval M) /\
       forall i k, (i < N)%nat -> (k < N)%nat -> mulT N (rval M) i k = A i k
  else upper_triangular N (rval M) /\
       forall i k, (i < N)%nat -> (k < N)%nat -> Tmul N (rval M) i k = A i k.

(** [np.tril(A)] and [np.triu(A)]: the lower and the upper triangle of
    [A], zero elsewhere. *)
Definition tril (A : fmat) : fmat := fun i j =>
  if (j <=? i)%nat then A i j else Fin 0.

Definition triu (A : fmat) : fmat := fun i j =>
  if (i <=? j)%nat then A i j else Fin 0.

(** The zero matrix, positive semi-definite and singular. *)
Definition A_zero : rmat := fun _ _ => 0.

(** [L @ L.T - np.outer(w, w)]: the matrix whose factor a downdate
    computes. *)
Definition downdated (N : nat) (L : rmat) (w : rvec) : rmat :=
  fun i k => mulT N L i k - w i * w k.

(* ================================================================== *)
(** * The same code on machine numbers *)
(* ================================================================== *)

(** numpy computes on IEEE binary64 numbers, rounding to nearest, and on
    64-bit integers that wrap around.  [Binary64] holds the operations of
    the number model above as the kernel's binary64 operations, and
    [chol_update], [chol_left] and [chol_super] once more on them, each
    with the text of its definition above; [chol_super] takes its offsets
    as 64-bit integers and places them on an axis as Python's slices do.
    A dot product is summed from the first term on; the order BLAS sums in
    plays no part for the one-term products of the two by two arrays
    evaluated below. *)
Module Binary64.

Import PrimFloat.

Definition fval : Set := PrimFloat.float.
Definition fvec : Set := nat -> fval.
Definition fmat : Set := nat -> nat -> fval.

Definition zero : fval := 0%float.
Definition one : fval := 1%float.

Definition fadd : fval -> fval -> fval := PrimFloat.add.
Definition fsub : fval -> fval -> fval := PrimFloat.sub.
Definition fmul : fval -> fval -> fval := PrimFloat.mul.
Definition fdiv : fval -> fval -> fval := PrimFloat.div.
Definition fsqrt : fval -> fval := PrimFloat.sqrt.

(** [x >= y] and [0 < x]: false on [nan]. *)
Definition fge (x y : fval) : bool := PrimFloat.leb y x.
Definition fpositive (x : fval) : bool := PrimFloat.ltb zero x.

Definition is_nan (x : fval) : bool := negb (PrimFloat.eqb x x).
Definition is_finite (x : fval) : bool :=
  PrimFloat.ltb (PrimFloat.abs x) PrimFloat.infinity.

(** The real number a finite binary64 value stands for. *)
Definition val (x : fval) : R :=
  match FloatOps.Prim2SF x with
  | SpecFloat.S754_finite s m e =>
      (if s then -1 else 1) * IZR (Z.pos m) * powerRZ 2 e
  | _ => 0
  end.

Definition zeros_vec : fvec := fun _ => zero.
Definition zeros_mat : fmat := fun _ _ => zero.
Definition transpose (M : fmat) : fmat := fun i j => M j i.

Fixpoint fdot (n : nat) (x y : fvec) : fval :=
  match n with
  | O => zero
  | S n' => fadd (fdot n' x y) (fmul (x n') (y n'))
  end.

(** ** [chol_update] *)

Definition update_state : Set := fmat * fvec * fval.

Definition update_body (N j : nat) (st : update_state) : update_state :=
  let '(L, w, β) := st in
  let α := fdiv (w j) (L j j) in
  let β2 := fsqrt (fadd (fmul β β) (fmul α α)) in
  let γ := fdiv α (fmul β2 β) in
  let δ := fdiv β β2 in
  let L1 : fmat := fun i t =>
    if (i =? j)%nat && (t =? j)%nat
    then fadd (fmul δ (L j j)) (fmul γ (w j)) else L i t in
  let wj : fvec := fun i => if (i =? j)%nat then α else w i in
  if (j =? N - 1)%nat then (L1, wj, β2) else
  let w1 : fvec := wj in
  let w2 : fvec := fun i =>
    if (j <? i)%nat && (i <? N)%nat
    then fsub (wj i) (fmul α (L1 i j)) else wj i in
  let L2 : fmat := fun i t =>
    if (j <? i)%nat && (i <? N)%nat && (t =? j)%nat
    then fadd (fmul δ (L1 i j)) (fmul γ (w1 i)) else L1 i t in
  (L2, w2, β2).

Definition update_loop (N n : nat) (L : fmat) (w : fvec) : update_state :=
  for_range n (update_body N) (L, w, one).

Definition chol_update (N : nat) (L : fmat) (w : fvec) : fmat * fvec :=
  let '(L', w', _) := update_loop N N L w in (L', w').

(** ** [chol_left] *)

Definition oriented (lower : bool) (L : fmat) : fmat :=
  if lower then L else transpose L.

Definition chol_left_body (N : nat) (A : fmat) (k : nat) (L : fmat) : fmat :=
  let L1 : fmat := fun i t =>
    if (i =? k)%nat && (t =? k)%nat
    then fsqrt (fsub (A k k) (fdot k (L k) (L k))) else L i t in
  fun i t =>
    if (k <? i)%nat && (i <? N)%nat && (t =? k)%nat
    then fdiv (fsub (A i k) (fdot k (L1 i) (L1 k))) (L1 k k) else L1 i t.

Definition chol_left_loop (N : nat) (A : fmat) (n : nat) : fmat :=
  for_range n (chol_left_body N A) zeros_mat.

Definition chol_left (N : nat) (A : fmat) (lower : bool) : fmat :=
  oriented lower (chol_left_loop N A N).

(** ** [chol_super] *)

Definition vec_finite (n : nat) (v : fvec) : bool :=
  forallb (fun i => is_finite (v i)) (seq 0 n).

Definition mat_finite (r c : nat) (M : fmat) : bool :=
  forallb (fun i => vec_finite c (M i)) (seq 0 r).

Definition potrf_body (sz : nat) (a : fmat) (j : nat) (U : fmat)
    : result fmat :=
  let ajj := fsub (a j j) (fdot j (fun t => U t j) (fun t => U t j)) in
  if fpositive ajj then
    let ujj := fsqrt ajj in
    Ok (fun r c =>
          if (r =? j)%nat && (c =? j)%nat then ujj
          else if (r =? j)%nat && (j <? c)%nat && (c <? sz)%nat
               then fdiv (fsub (a j c)
                               (fdot j (fun t => U t j) (fun t => U t c)))
                         ujj
               else U r c)
  else Raise NotPositiveDefiniteBlock.

Definition la_cholesky (sz : nat) (a : fmat) : result fmat :=
  if mat_finite sz sz a
  then completed (for_range_e sz (potrf_body sz a) zeros_mat)
  else Raise NonFiniteInput.

Definition broadcast_div (sx : nat * nat) (X : fmat)
    (sy : nat * nat) (Y : fmat) : result ((nat * nat) * fmat) :=
  match broadcast_dim (fst sx) (fst sy), broadcast_dim (snd sx) (snd sy) with
  | Some r, Some c =>
      Ok ((r, c),
          fun i j => fdiv (X (bidx (fst sx) i) (bidx (snd sx) j))
                          (Y (bidx (fst sy) i) (bidx (snd sy) j)))
  | _, _ => Raise BroadcastError
  end.

(** A 64-bit integer: the representative in [-2^63, 2^63). *)
Definition wrap64 (z : Z) : Z := ((z + 2 ^ 63) mod 2 ^ 64 - 2 ^ 63)%Z.

(** [np.sum(s)] on an array of int64: the sum wraps around. *)
Definition np_sum (s : list Z) : Z :=
  fold_left (fun acc x => wrap64 (acc + x)) s 0%Z.

(** [ss[j]] for [ss = np.cumsum(np.r_[0, s], dtype=int)]. *)
Definition cumsum_at (s : list Z) (j : nat) : Z := np_sum (firstn j s).

(** The place a slice bound [i] takes on an axis of length [N]: a negative
    bound counts from the end, and the result is clipped to [0, N]. *)
Definition slice_index (N : nat) (i : Z) : nat :=
  Z.to_nat (Z.min (Z.of_nat N)
                  (Z.max 0 (if (i <? 0)%Z then i + Z.of_nat N else i))).

Definition chol_super_body (N : nat) (A : fmat) (s : list Z) (j : nat)
    (L : fmat) : result fmat :=
  (* k = slice(k1, k2); [:k1] ends and [k2:] starts where k does *)
  let k1 := slice_index N (cumsum_at s j) in
  let k2 := slice_index N (cumsum_at s (S j)) in
  let sz := (k2 - k1)%nat in
  let in_k := fun i => (k1 <=? i)%nat && (i <? k2)%nat in
  (* L[k, k] = la.cholesky(A[k, k] - L[k, :k1] @ L[k, :k1].T).T *)
  let B : fmat := fun r c =>
    fsub (A (k1 + r)%nat (k1 + c)%nat)
         (fdot k1 (L (k1 + r)%nat) (L (k1 + c)%nat)) in
  bind (la_cholesky sz B) (fun U =>
  let L1 : fmat := fun i t =>
    if in_k i && in_k t then transpose U (i - k1)%nat (t - k1)%nat
    else L i t in
  (* L[k2:, k] = (A[k2:, k] - L[k2:, :k1] @ L[k, :k1].T) / L[k, k].T *)
  let m := (N - k2)%nat in
  let X : fmat := fun r c =>
    fsub (A (k2 + r)%nat (k1 + c)%nat)
         (fdot k1 (L1 (k2 + r)%nat) (L1 (k1 + c)%nat)) in
  let D : fmat := fun r c => transpose L1 (k1 + r)%nat (k1 + c)%nat in
  bind (broadcast_div (m, sz) X (sz, sz) D) (fun q =>
  let '(shape, Q) := q in
  if assignable (m, sz) shape then
    Ok (fun i t =>
          if (k2 <=? i)%nat && (i <? N)%nat && in_k t
          then Q (bidx (fst shape) (i - k2)%nat) (bidx (snd shape) (t - k1)%nat)
          else L1 i t)
  else Raise BroadcastError)).

Definition chol_super (N : nat) (A : fmat) (s : list Z) (lower : bool)
    : result fmat :=
  (* assert np.sum(s) == N *)
  if negb (np_sum s =? Z.of_nat N)%Z then Raise InvalidPartition
  (* assert np.all(s > 0) *)
  else if negb (forallb (fun x => (0 <? x)%Z) s) then Raise InvalidPartition
  else
    bind (completed (for_range_e (length s) (chol_super_body N A s) zeros_mat))
         (fun L => Ok (oriented lower L)).

(** ** Concrete data *)

Definition three : fval := 3%float.

(** [2.0 ** 600] and the binary64 number next above a third,
    [0.33333333333333337]. *)
Definition two_to_600 : fval := 0x1p600%float.
Definition third_up : fval := 0x1.5555555555556p-2%float.

(** [[3, 1], [1, 0.33333333333333337]]. *)
Definition A_thin : fmat := fun i j =>
  match i, j with
  | 0%nat, 0%nat => three
  | 0%nat, 1%nat => one
  | 1%nat, 0%nat => one
  | 1%nat, 1%nat => third_up
  | _, _ => zero
  end.

(** The one by one arrays [[1.]] and [2.0 ** 600]. *)
Definition L_one : fmat := fun _ _ => one.
Definition w_huge : fvec := fun _ => two_to_600.

End Binary64.

(** The real matrix that [Binary64.A_thin] holds; it is positive
    definite, its determinant being [2^-53]. *)
Definition A_thin : rmat := fun i j =>
  match i, j with
  | 0%nat, 0%nat => 3
  | 0%nat, 1%nat => 1
  | 1%nat, 0%nat => 1
  | 1%nat, 1%nat => 6004799503160662 / 18014398509481984
  | _, _ => 0
  end.

(** Four times [2^62] and a one: the sum is [2^64 + 1], which is [1] in
    64-bit arithmetic. *)
Definition s_wrapped : list Z :=
  [(2 ^ 62)%Z; (2 ^ 62)%Z; (2 ^ 62)%Z; (2 ^ 62)%Z; 1%Z].
(* ================================================================== *)
(** * Part II. Properties *)
(* ================================================================== *)

(** ** Arithmetic on finite values *)

Lemma finite_val (x : fval) : is_finite x = true -> x = Fin (val x).
Proof. destruct x; simpl; intros H; try discriminate; reflexivity. Qed.

Lemma fadd_fin (a b : R) : fadd (Fin a) (Fin b) = Fin (a + b).
Proof. reflexivity. Qed.

Lemma fsub_fin (a b : R) : fsub (Fin a) (Fin b) = Fin (a - b).
Proof. reflexivity. Qed.

Lemma fmul_fin (a b : R) : fmul (Fin a) (Fin b) = Fin (a * b).
Proof. reflexivity. Qed.

Create Rewrite HintDb fin.
#[local] Hint Rewrite fadd_fin fsub_fin fmul_fin : fin.

Lemma fdiv_fin (a b : R) : b <> 0 -> fdiv (Fin a) (Fin b) = Fin (a / b).
Proof. intros Hb; simpl. destruct (Req_dec_T b 0); [contradiction | reflexivity]. Qed.

Lemma fsqrt_fin (a : R) : 0 <= a -> fsqrt (Fin a) = Fin (sqrt a).
Proof. intros Ha; simpl. destruct (Rlt_dec a 0); [lra | reflexivity]. Qed.

Lemma fsqrt_neg (a : R) : a < 0 -> fsqrt (Fin a) = NaN.
Proof. intros Ha; simpl. destruct (Rlt_dec a 0); [reflexivity | lra]. Qed.

Lemma fge_fin_true (a b : R) : b <= a -> fge (Fin a) (Fin b) = true.
Proof. intros H; simpl. destruct (Rle_dec b a); [reflexivity | lra]. Qed.

Lemma fge_fin_false (a b : R) : a < b -> fge (Fin a) (Fin b) = false.
Proof. intros H; simpl. destruct (Rle_dec b a); [lra | reflexivity]. Qed.

Lemma fge_fin_iff (a b : R) : fge (Fin a) (Fin b) = true <-> b <= a.
Proof.
  simpl. destruct (Rle_dec b a); split; intros; try assumption;
    try reflexivity; try discriminate; contradiction.
Qed.

Lemma fnonzero_fin (a : R) : fnonzero (Fin a) = true <-> a <> 0.
Proof.
  simpl. destruct (Req_dec_T a 0); split; intros; try assumption;
    try reflexivity; try discriminate; contradiction.
Qed.

Lemma fpositive_fin (a : R) : fpositive (Fin a) = true <-> 0 < a.
Proof.
  simpl. destruct (Rlt_dec 0 a); split; intros; try assumption;
    try reflexivity; try discriminate; contradiction.
Qed.

Lemma fmul_one_l (x : fval) : fmul (Fin 1) x = x.
Proof.
  destruct x; simpl; unfold scale_inf;
    try (destruct (Rlt_dec 0 1); [reflexivity | lra]); try reflexivity.
  f_equal; lra.
Qed.

(** ** Finite sums *)

Lemma sumR_ext (n : nat) (f g : nat -> R) :
  (forall i, (i < n)%nat -> f i = g i) -> sumR n f = sumR n g.
Proof.
  induction n as [|n IH]; intros H; simpl; [reflexivity|].
  rewrite IH by (intros; apply H; lia). rewrite H by lia. reflexivity.
Qed.

Lemma sumR_zero (n : nat) (f : nat -> R) :
  (forall i, (i < n)%nat -> f i = 0) -> sumR n f = 0.
Proof.
  induction n as [|n IH]; intros H; simpl; [reflexivity|].
  rewrite IH by (intros; apply H; lia). rewrite H by lia. lra.
Qed.

Lemma sumR_plus (n : nat) (f g : nat -> R) :
  sumR n (fun i => f i + g i) = sumR n f + sumR n g.
Proof. induction n as [|n IH]; simpl; [lra | rewrite IH; lra]. Qed.

Lemma sumR_minus (n : nat) (f g : nat -> R) :
  sumR n (fun i => f i - g i) = sumR n f - sumR n g.
Proof. induction n as [|n IH]; simpl; [lra | rewrite IH; lra]. Qed.

Lemma sumR_scal_l (n : nat) (c : R) (f : nat -> R) :
  sumR n (fun i => c * f i) = c * sumR n f.
Proof. induction n as [|n IH]; simpl; [lra | rewrite IH; lra]. Qed.

Lemma sumR_scal_r (n : nat) (c : R) (f : nat -> R) :
  sumR n (fun i => f i * c) = sumR n f * c.
Proof. induction n as [|n IH]; simpl; [lra | rewrite IH; lra]. Qed.

(** Two sequences that differ at one index only. *)
Lemma sumR_change_one (n j : nat) (f g : nat -> R) :
  (j < n)%nat -> (forall i, (i < n)%nat -> i <> j -> f i = g i) ->
  sumR n f = sumR n g + (f j - g j).
Proof.
  induction n as [|n IH]; intros Hj H; [lia|]. simpl.
  destruct (Nat.eq_dec j n) as [->|Hne].
  - rewrite (sumR_ext n f g) by (intros; apply H; lia). lra.
  - rewrite IH by (try lia; intros; apply H; lia).
    rewrite (H n) by lia. lra.
Qed.

(** Terms beyond [m] vanish. *)
Lemma sumR_trunc (n m : nat) (f : nat -> R) :
  (m <= n)%nat -> (forall i, (m <= i)%nat -> (i < n)%nat -> f i = 0) ->
  sumR n f = sumR m f.
Proof.
  induction n as [|n IH]; intros Hm H.
  - replace m with 0%nat by lia. reflexivity.
  - destruct (Nat.eq_dec m (S n)) as [->|Hne]; [reflexivity|].
    simpl. rewrite IH by (try lia; intros; apply H; lia).
    rewrite (H n) by lia. lra.
Qed.

Lemma sumR_swap (n m : nat) (f : nat -> nat -> R) :
  sumR n (fun i => sumR m (fun j => f i j)) =
  sumR m (fun j => sumR n (fun i => f i j)).
Proof.
  induction n as [|n IH]; simpl.
  - symmetry; apply sumR_zero; reflexivity.
  - rewrite IH, <- sumR_plus. reflexivity.
Qed.

Lemma sumR_mul_sumR (n m : nat) (f g : nat -> R) :
  sumR n f * sumR m g = sumR n (fun i => sumR m (fun j => f i * g j)).
Proof.
  induction n as [|n IH]; simpl; [lra|].
  rewrite <- IH, sumR_scal_l. lra.
Qed.

Lemma mulT_sym (N : nat) (M : rmat) (i k : nat) : mulT N M i k = mulT N M k i.
Proof. unfold mulT. apply sumR_ext; intros; lra. Qed.

Lemma val_fdot (n : nat) (x y : fvec) :
  (forall t, (t < n)%nat -> is_finite (x t) = true) ->
  (forall t, (t < n)%nat -> is_finite (y t) = true) ->
  fdot n x y = Fin (sumR n (fun t => val (x t) * val (y t))).
Proof.
  induction n as [|n IH]; intros Hx Hy; simpl; [reflexivity|].
  rewrite IH by (intros; auto).
  rewrite (finite_val (x n)), (finite_val (y n)) by auto. reflexivity.
Qed.

(** ** One column of the update, on finite data *)

Ltac bool_cases :=
  repeat match goal with
  | |- context [(?a =? ?b)%nat] => destruct (Nat.eqb_spec a b)
  | |- context [(?a <? ?b)%nat] => destruct (Nat.ltb_spec a b)
  | |- context [(?a <=? ?b)%nat] => destruct (Nat.leb_spec a b)
  end; cbn [andb orb negb]; try lia.

Section UpdateStep.

Variables (N j : nat) (L : fmat) (w : fvec) (b : R).
Hypothesis Hj : (j < N)%nat.
Hypothesis HL : finite_mat N L.
Hypothesis Hw : finite_vec N w.
Hypothesis Hb : 0 < b.
Hypothesis Hd : val (L j j) <> 0.

Let a := val (w j) / val (L j j).
Let b2 := sqrt (b * b + a * a).
Let g := a / (b2 * b).
Let d := b / b2.

Lemma update_scale_pos : 0 < b2.
Proof. unfold b2. apply sqrt_lt_R0. nra. Qed.

Lemma update_scale_sqr : b2 * b2 = b * b + a * a.
Proof. unfold b2. apply sqrt_sqrt. nra. Qed.

Lemma update_body_spec :
  exists L' w',
    update_body N j (L, w, Fin b) = (L', w', Fin b2) /\
    (forall i t,
        L' i t =
        if (t =? j)%nat && (j <=? i)%nat && (i <? N)%nat
        then Fin (d * val (L i j) + g * val (w i)) else L i t) /\
    (forall i,
        w' i =
        if (i =? j)%nat then Fin a
        else if (j <? i)%nat && (i <? N)%nat
             then Fin (val (w i) - a * val (L i j)) else w i).
Proof.
  pose proof update_scale_pos as Hb2.
  unfold update_body.
  rewrite (finite_val (w j)), (finite_val (L j j)) by auto.
  rewrite fdiv_fin by exact Hd. fold a. autorewrite with fin.
  rewrite fsqrt_fin by nra. fold b2. autorewrite with fin.
  assert (Hbb : b2 * b <> 0) by (apply Rgt_not_eq; nra).
  rewrite (fdiv_fin a) by exact Hbb. rewrite (fdiv_fin b) by lra.
  fold g d. autorewrite with fin.
  destruct (Nat.eqb_spec j (N - 1)) as [Hlast|Hlast].
  - eexists; eexists; split; [reflexivity|]. split.
    + intros i t. bool_cases; subst; reflexivity.
    + intros i. bool_cases; reflexivity.
  - eexists; eexists; split; [reflexivity|]. split.
    + intros i t. bool_cases; subst; try reflexivity.
      rewrite (finite_val (L i j)), (finite_val (w i)) by (auto; apply HL; lia).
      autorewrite with fin. reflexivity.
    + intros i. bool_cases; subst; try reflexivity.
      rewrite (finite_val (L i j)), (finite_val (w i)) by (auto; apply HL; lia).
      autorewrite with fin. reflexivity.
Qed.

End UpdateStep.

(** ** The update loop *)

(** The rotation of one column keeps [l l^T + v v^T / β²]. *)
Lemma update_rotation (b b2 a li lk vi vk : R) :
  0 < b -> 0 < b2 -> b2 * b2 = b * b + a * a ->
  (b / b2 * li + a / (b2 * b) * vi) * (b / b2 * lk + a / (b2 * b) * vk) +
  (vi - a * li) * (vk - a * lk) / (b2 * b2) =
  li * lk + vi * vk / (b * b).
Proof.
  intros Hb Hb2 E.
  assert (D : (b / b2 * li + a / (b2 * b) * vi) * (b / b2 * lk + a / (b2 * b) * vk) +
              (vi - a * li) * (vk - a * lk) / (b2 * b2) -
              (li * lk + vi * vk / (b * b)) =
              (b * b + a * a - b2 * b2) *
              (li * lk / (b2 * b2) + vi * vk / (b2 * b2 * (b * b)))).
  { field. split; lra. }
  assert (Z : b * b + a * a - b2 * b2 = 0) by lra.
  rewrite Z in D. lra.
Qed.

Section UpdateLoop.

Variables (N : nat) (Lin : fmat) (win : fvec).
Hypothesis Hfin_L : finite_mat N Lin.
Hypothesis Hfin_w : finite_vec N win.
Hypothesis Hlower : lower_triangular N (rval Lin).
Hypothesis Hdiag : positive_diagonal N (rval Lin).

Lemma update_inv_init : rank_one_inv 1 N Lin win 0 (Lin, win, Fin 1).
Proof.
  constructor; simpl; auto; try lra; try lia.
  - intros. lra.
  - intros i k Hi Hk. unfold residual. simpl. field.
Qed.


Lemma update_inv_step (n : nat) (st : update_state) :
  (n < N)%nat -> rank_one_inv 1 N Lin win n st ->
  rank_one_inv 1 N Lin win (S n) (update_body N n st).
Proof.
  intros Hn [HfL Hfw Hfb Hbpos Hup Hout Htodo Hdg Hres Hsol Hprod].
  destruct st as [[L w] β]. cbn [fst snd] in *.
  rewrite (finite_val β Hfb).
  assert (Hlnn : L n n = Lin n n) by (apply Htodo; lia).
  assert (Hd : 0 < val (L n n)) by (rewrite Hlnn; apply (Hdiag n Hn)).
  destruct (update_body_spec N n L w (val β) Hn HfL Hfw Hbpos
              ltac:(lra)) as (L' & w' & -> & HL' & Hw').
  pose proof (update_scale_pos n L w (val β) Hbpos) as Hb2.
  pose proof (update_scale_sqr n L w (val β)) as Hsq.
  set (a := val (w n) / val (L n n)) in *.
  set (b2 := sqrt (val β * val β + a * a)) in *.
  constructor; cbn [fst snd val].
  - intros i t Hi Ht. rewrite HL'. bool_cases; auto.
  - intros i Hi. rewrite Hw'. bool_cases; auto.
  - reflexivity.
  - exact Hb2.
  - intros i t Hit. rewrite HL'. bool_cases; auto.
  - intros i t Hi. rewrite HL'. bool_cases; auto.
  - intros i t Ht. rewrite HL'. bool_cases; apply Htodo; lia.
  - intros t Ht. rewrite HL'. bool_cases.
    + subst t. simpl.
      assert (Hwn : val (w n) = a * val (L n n)) by (unfold a; field; lra).
      rewrite Hwn.
      assert (0 < val β / b2) by (apply Rdiv_lt_0_compat; lra).
      assert (0 <= a / (b2 * val β) * (a * val (L n n))).
      { replace (a / (b2 * val β) * (a * val (L n n)))
          with ((a * a) * (val (L n n) / (b2 * val β))) by (field; lra).
        apply Rmult_le_pos; [nra|].
        apply Rlt_le, Rdiv_lt_0_compat; nra. }
      nra.
    + apply Hdg; lia.
  - intros i Hi HiN. rewrite Hw'. bool_cases. simpl.
    rewrite Hres by lia.
    rewrite (Htodo i n) by lia.
    rewrite Hw'. bool_cases. simpl.
    rewrite (sumR_ext n (fun t => val (Lin i t) * val (w' t))
                        (fun t => val (Lin i t) * val (w t))).
    2:{ intros t Ht. rewrite Hw'. bool_cases; reflexivity. }
    lra.
  - intros i Hi.
    rewrite (sumR_ext i (fun t => val (Lin i t) * val (w' t))
                        (fun t => val (Lin i t) * val (w t))).
    2:{ intros t Ht. rewrite Hw'. bool_cases; reflexivity. }
    destruct (Nat.eq_dec i n) as [->|Hne].
    + rewrite Hw'. bool_cases. simpl.
      specialize (Hres n (le_n _) Hn). rewrite <- Hlnn.
      unfold a. field_simplify; [|lra]. lra.
    + rewrite Hw'. bool_cases. apply Hsol; lia.
  - intros i k Hi Hk.
    rewrite <- (Hprod i k Hi Hk).
    unfold mulT.
    rewrite (sumR_change_one N n (fun t => rval L' i t * rval L' k t)
               (fun t => rval L i t * rval L k t)); [|lia|].
    2:{ intros t Ht Hne. unfold rval. rewrite !HL'. bool_cases; reflexivity. }
    (* uniform description of column n and of the residual *)
    assert (Hzero : forall r, (r < n)%nat -> rval L r n = 0).
    { intros r Hr. unfold rval. rewrite (Htodo r n) by lia.
      apply (Hlower r n); lia. }
    assert (Hcol : forall r, (r < N)%nat ->
               rval L' r n = val β / b2 * rval L r n
                             + a / (b2 * val β) * residual n w r).
    { intros r Hr. destruct (le_lt_dec n r) as [Hle|Hlt].
      - unfold rval, residual. rewrite HL'. bool_cases. reflexivity.
      - rewrite (Hzero r Hlt). unfold rval, residual. rewrite HL'.
        bool_cases. fold (rval L r n). rewrite (Hzero r Hlt). lra. }
    assert (Hres' : forall r, (r < N)%nat ->
               residual (S n) w' r = residual n w r - a * rval L r n).
    { intros r Hr. destruct (lt_eq_lt_dec r n) as [[Hlt|Heq]|Hgt].
      - rewrite (Hzero r Hlt). unfold residual. bool_cases. lra.
      - subst r. unfold residual, rval. bool_cases. unfold a. field. lra.
      - unfold residual, rval. rewrite Hw'. bool_cases. reflexivity. }
    rewrite !Hcol, !Hres' by assumption.
    pose proof (update_rotation (val β) b2 a (rval L i n) (rval L k n)
                  (residual n w i) (residual n w k) Hbpos Hb2 Hsq) as Hrot.
    lra.
Qed.

Lemma update_loop_inv (n : nat) :
  (n <= N)%nat -> rank_one_inv 1 N Lin win n (update_loop N n Lin win).
Proof.
  induction n as [|n IH]; intros Hn.
  - apply update_inv_init.
  - unfold update_loop in *. simpl. apply update_inv_step; [lia|].
    apply IH; lia.
Qed.

End UpdateLoop.

(** ** One column of the downdate, on finite data *)

Section DowndateStep.

Variables (N j : nat) (L : fmat) (w : fvec) (b : R).
Hypothesis Hj : (j < N)%nat.
Hypothesis HL : finite_mat N L.
Hypothesis Hw : finite_vec N w.
Hypothesis Hb : 0 < b.
Hypothesis Hd : val (L j j) <> 0.

Let a := val (w j) / val (L j j).
Let b2 := sqrt (b * b - a * a).
Let g := a / (b2 * b).
Let d := b2 / b.

Lemma downdate_check_spec :
  downdate_check j (L, w, Fin b) = true <-> b * b <= a * a.
Proof.
  unfold downdate_check.
  rewrite (finite_val (w j)), (finite_val (L j j)) by auto.
  rewrite fdiv_fin by exact Hd. fold a. autorewrite with fin.
  apply fge_fin_iff.
Qed.

Lemma downdate_body_raises :
  b * b <= a * a ->
  downdate_body N j (L, w, Fin b) = Raise NotPositiveDefinite.
Proof.
  intros Hbad. unfold downdate_body.
  rewrite (finite_val (w j)), (finite_val (L j j)) by auto.
  rewrite fdiv_fin by exact Hd. fold a. autorewrite with fin.
  rewrite fge_fin_true by exact Hbad. reflexivity.
Qed.

Hypothesis Hok : a * a < b * b.

Lemma downdate_scale_pos : 0 < b2.
Proof. unfold b2. apply sqrt_lt_R0. lra. Qed.

Lemma downdate_scale_sqr : b2 * b2 = b * b - a * a.
Proof. unfold b2. apply sqrt_sqrt. lra. Qed.

Lemma downdate_body_spec :
  exists L' w',
    downdate_body N j (L, w, Fin b) = Ok (L', w', Fin b2) /\
    (forall i t,
        L' i t =
        if (t =? j)%nat && (j <=? i)%nat && (i <? N)%nat
        then Fin (d * val (L i j) - g * (val (w i) - a * val (L i j)))
        else L i t) /\
    (forall i,
        w' i =
        if (i =? j)%nat then Fin a
        else if (j <? i)%nat && (i <? N)%nat
             then Fin (val (w i) - a * val (L i j)) else w i).
Proof.
  pose proof downdate_scale_pos as Hb2.
  assert (Hself : d * val (L j j) =
                  d * val (L j j) - g * (val (w j) - a * val (L j j))).
  { unfold a. field_simplify_eq; [ring | exact Hd]. }
  unfold downdate_body.
  rewrite (finite_val (w j)), (finite_val (L j j)) by auto.
  rewrite fdiv_fin by exact Hd. fold a. autorewrite with fin.
  rewrite fge_fin_false by exact Hok.
  rewrite fsqrt_fin by lra. fold b2. autorewrite with fin.
  assert (Hbb : b2 * b <> 0) by (apply Rgt_not_eq; nra).
  rewrite (fdiv_fin a) by exact Hbb. rewrite (fdiv_fin b2) by lra.
  fold g d. autorewrite with fin.
  destruct (Nat.eqb_spec j (N - 1)) as [Hlast|Hlast].
  - eexists; eexists; split; [reflexivity|]. split.
    + intros i t. bool_cases; subst; try reflexivity.
      f_equal. exact Hself.
    + intros i. bool_cases; reflexivity.
  - eexists; eexists; split; [reflexivity|]. split.
    + intros i t. bool_cases; subst; try reflexivity.
      * f_equal. exact Hself.
      * rewrite (finite_val (L i j)), (finite_val (w i)) by (auto; apply HL; lia).
        autorewrite with fin. reflexivity.
    + intros i. bool_cases; subst; try reflexivity.
      rewrite (finite_val (L i j)), (finite_val (w i)) by (auto; apply HL; lia).
      autorewrite with fin. reflexivity.
Qed.

End DowndateStep.

(** The rotation of one column keeps [l l^T - v v^T / β²]. *)
Lemma downdate_rotation (b b2 a li lk vi vk : R) :
  0 < b -> 0 < b2 -> b2 * b2 = b * b - a * a ->
  (b2 / b * li - a / (b2 * b) * (vi - a * li)) *
  (b2 / b * lk - a / (b2 * b) * (vk - a * lk)) -
  (vi - a * li) * (vk - a * lk) / (b2 * b2) =
  li * lk - vi * vk / (b * b).
Proof.
  intros Hb Hb2 E.
  assert (Ha : a * a = b * b - b2 * b2) by lra.
  assert (D : (b2 / b * li - a / (b2 * b) * (vi - a * li)) *
              (b2 / b * lk - a / (b2 * b) * (vk - a * lk)) -
              (vi - a * li) * (vk - a * lk) / (b2 * b2) -
              (li * lk - vi * vk / (b * b)) =
              (a * a - (b * b - b2 * b2)) *
              ((a * a + 2 * (b2 * b2)) * li * lk / (b2 * b2 * (b * b))
               - (vi * lk + li * vk) * a / (b2 * b2 * (b * b))
               + vi * vk / (b2 * b2 * (b * b))
               - li * lk / (b * b) + li * lk * (b * b - b2 * b2 - a * a) * 0)).
  { field. split; lra. }
  assert (Z : a * a - (b * b - b2 * b2) = 0) by lra.
  rewrite Z in D. lra.
Qed.

(** ** The downdate loop *)

Section DowndateLoop.

Variables (N : nat) (Lin : fmat) (win : fvec).
Hypothesis Hfin_L : finite_mat N Lin.
Hypothesis Hfin_w : finite_vec N win.
Hypothesis Hlower : lower_triangular N (rval Lin).
Hypothesis Hdiag : positive_diagonal N (rval Lin).

Lemma downdate_inv_init : rank_one_inv (-1) N Lin win 0 (Lin, win, Fin 1).
Proof.
  constructor; simpl; auto; try lra; try lia.
  - intros. lra.
  - intros i k Hi Hk. unfold residual. simpl. field.
Qed.

Lemma downdate_inv_step (n : nat) (st st' : update_state) :
  (n < N)%nat -> rank_one_inv (-1) N Lin win n st ->
  downdate_body N n st = Ok st' ->
  rank_one_inv (-1) N Lin win (S n) st'.
Proof.
  intros Hn [HfL Hfw Hfb Hbpos Hup Hout Htodo Hdg Hres Hsol Hprod] Hbody.
  destruct st as [[L w] β]. cbn [fst snd] in *.
  rewrite (finite_val β Hfb) in Hbody.
  assert (Hlnn : L n n = Lin n n) by (apply Htodo; lia).
  assert (Hd : 0 < val (L n n)) by (rewrite Hlnn; apply (Hdiag n Hn)).
  assert (Hd' : val (L n n) <> 0) by lra.
  destruct (Rle_lt_dec (val β * val β)
              (val (w n) / val (L n n) * (val (w n) / val (L n n))))
    as [Hbad|Hok].
  { rewrite (downdate_body_raises N n L w (val β) Hn HfL Hfw Hd' Hbad) in Hbody.
    discriminate. }
  destruct (downdate_body_spec N n L w (val β) Hn HfL Hfw Hbpos Hd' Hok)
    as (L' & w' & E & HL' & Hw').
  rewrite E in Hbody. injection Hbody as <-.
  pose proof (downdate_scale_pos n L w (val β) Hok) as Hb2.
  pose proof (downdate_scale_sqr n L w (val β) Hok) as Hsq.
  set (a := val (w n) / val (L n n)) in *.
  set (b2 := sqrt (val β * val β - a * a)) in *.
  assert (Hzero : forall r, (r < n)%nat -> rval L r n = 0).
  { intros r Hr. unfold rval. rewrite (Htodo r n) by lia.
    apply (Hlower r n); lia. }
  assert (Hwn : val (w n) = a * val (L n n)) by (unfold a; field; lra).
  constructor; cbn [fst snd val].
  - intros i t Hi Ht. rewrite HL'. bool_cases; auto.
  - intros i Hi. rewrite Hw'. bool_cases; auto.
  - reflexivity.
  - exact Hb2.
  - intros i t Hit. rewrite HL'. bool_cases; auto.
  - intros i t Hi. rewrite HL'. bool_cases; auto.
  - intros i t Ht. rewrite HL'. bool_cases; apply Htodo; lia.
  - intros t Ht. destruct (Nat.eq_dec t n) as [->|Hne].
    + rewrite HL'. bool_cases. cbn [val]. rewrite Hwn.
      replace (b2 / val β * val (L n n) -
               a / (b2 * val β) * (a * val (L n n) - a * val (L n n)))
        with (b2 / val β * val (L n n)) by (field; lra).
      apply Rmult_lt_0_compat; [apply Rdiv_lt_0_compat|]; lra.
    + rewrite HL'. bool_cases. apply Hdg; lia.
  - intros i Hi HiN. rewrite Hw'. bool_cases. cbn [val].
    rewrite Hres by lia.
    rewrite (Htodo i n) by lia.
    cbn [sumR]. rewrite Hw'. bool_cases. cbn [val].
    rewrite (sumR_ext n (fun t => val (Lin i t) * val (w' t))
                        (fun t => val (Lin i t) * val (w t))).
    2:{ intros t Ht. rewrite Hw'. bool_cases; reflexivity. }
    lra.
  - intros i Hi.
    rewrite (sumR_ext i (fun t => val (Lin i t) * val (w' t))
                        (fun t => val (Lin i t) * val (w t))).
    2:{ intros t Ht. rewrite Hw'. bool_cases; reflexivity. }
    destruct (Nat.eq_dec i n) as [->|Hne].
    + rewrite Hw'. bool_cases. cbn [val].
      specialize (Hres n (le_n _) Hn). rewrite <- Hlnn.
      rewrite (Rmult_comm (val (L n n)) a), <- Hwn. lra.
    + rewrite Hw'. bool_cases. apply Hsol; lia.
  - intros i k Hi Hk.
    rewrite <- (Hprod i k Hi Hk).
    unfold mulT.
    rewrite (sumR_change_one N n (fun t => rval L' i t * rval L' k t)
               (fun t => rval L i t * rval L k t)); [|lia|].
    2:{ intros t Ht Hne. unfold rval. rewrite !HL'. bool_cases; reflexivity. }
    assert (Hcol : forall r, (r < N)%nat ->
               rval L' r n =
               b2 / val β * rval L r n -
               a / (b2 * val β) * (residual n w r - a * rval L r n)).
    { intros r Hr. destruct (le_lt_dec n r) as [Hle|Hlt].
      - unfold rval, residual. rewrite HL'. bool_cases. reflexivity.
      - rewrite (Hzero r Hlt). unfold rval, residual. rewrite HL'.
        bool_cases. fold (rval L r n). rewrite (Hzero r Hlt). lra. }
    assert (Hres' : forall r, (r < N)%nat ->
               residual (S n) w' r = residual n w r - a * rval L r n).
    { intros r Hr. destruct (lt_eq_lt_dec r n) as [[Hlt|Heq]|Hgt].
      - rewrite (Hzero r Hlt). unfold residual. bool_cases. lra.
      - subst r. unfold residual, rval. bool_cases. lra.
      - unfold residual, rval. rewrite Hw'. bool_cases. reflexivity. }
    rewrite !Hcol, !Hres' by assumption.
    pose proof (downdate_rotation (val β) b2 a (rval L i n) (rval L k n)
                  (residual n w i) (residual n w k) Hbpos Hb2 Hsq) as Hrot.
    lra.
Qed.

Lemma downdate_loop_inv (n : nat) (st : update_state) :
  (n <= N)%nat -> downdate_loop N n Lin win = (st, None) ->
  rank_one_inv (-1) N Lin win n st.
Proof.
  revert st. induction n as [|n IH]; intros st Hn Hrun.
  - unfold downdate_loop in Hrun. simpl in Hrun.
    injection Hrun as <-. apply downdate_inv_init.
  - unfold downdate_loop in *. cbn [for_range_e] in Hrun.
    destruct (for_range_e n (downdate_body N) (Lin, win, Fin 1))
      as [s' [e|]] eqn:Hpre; [discriminate|].
    destruct (downdate_body N n s') as [s''|e] eqn:Hbody; [|discriminate].
    injection Hrun as <-.
    apply (downdate_inv_step n s'); [lia | apply IH; [lia | reflexivity] | exact Hbody].
Qed.

End DowndateLoop.

(** ** What the invariant gives when the loop is over *)

Lemma residual_done (N : nat) (w : fvec) (i : nat) :
  (i < N)%nat -> residual N w i = 0.
Proof. intros Hi. unfold residual. bool_cases. reflexivity. Qed.

Lemma rank_one_done_product (sgn : R) (N : nat) (Lin : fmat) (win : fvec)
    (st : update_state) :
  rank_one_inv sgn N Lin win N st ->
  forall i k, (i < N)%nat -> (k < N)%nat ->
    mulT N (rval (fst (fst st))) i k =
    mulT N (rval Lin) i k + sgn * (val (win i) * val (win k)).
Proof.
  intros Hinv i k Hi Hk.
  rewrite <- (ui_product _ _ _ _ _ _ Hinv i k Hi Hk).
  rewrite (residual_done N _ i Hi). lra.
Qed.

Lemma chol_update_unfold (N : nat) (L : fmat) (w : fvec) :
  chol_update N L w =
  (fst (fst (update_loop N N L w)), snd (fst (update_loop N N L w))).
Proof.
  unfold chol_update. destruct (update_loop N N L w) as [[L' w'] b]. reflexivity.
Qed.

Lemma chol_downdate_ok (N : nat) (L : fmat) (w : fvec) (L' : fmat) (w' : fvec) :
  chol_downdate N L w = Ok (L', w') ->
  exists b, downdate_loop N N L w = (L', w', b, None).
Proof.
  unfold chol_downdate.
  destruct (downdate_loop N N L w) as [[[L1 w1] b] [e|]]; simpl; intros H;
    [discriminate|].
  injection H as <- <-. exists b. reflexivity.
Qed.

(** Forward substitution solves the triangular system, and nothing else
    does. *)
Lemma forward_subst_unique (n : nat) (M : fmat) (b : fvec) (x : rvec) :
  (forall i t, (t <= i)%nat -> (i < n)%nat -> is_finite (M i t) = true) ->
  (forall i, (i < n)%nat -> is_finite (b i) = true) ->
  (forall i, (i < n)%nat -> val (M i i) <> 0) ->
  (forall i, (i < n)%nat ->
     sumR i (fun t => val (M i t) * x t) + val (M i i) * x i = val (b i)) ->
  forall i, (i < n)%nat -> forward_subst n M b i = Fin (x i).
Proof.
  induction n as [|n IH]; intros HM Hb Hd Hx i Hi; [lia|].
  assert (IH' : forall t, (t < n)%nat -> forward_subst n M b t = Fin (x t)).
  { intros t Ht. apply IH; auto; intros; try apply HM; try apply Hx; lia. }
  cbn [forward_subst]. bool_cases.
  - subst i.
    rewrite (val_fdot n (M n) (forward_subst n M b)).
    2:{ intros t Ht. apply HM; lia. }
    2:{ intros t Ht. rewrite IH' by exact Ht. reflexivity. }
    rewrite (sumR_ext n _ (fun t => val (M n t) * x t)).
    2:{ intros t Ht. rewrite IH' by exact Ht. reflexivity. }
    rewrite (finite_val (b n)), (finite_val (M n n)) by (auto; apply HM; lia).
    autorewrite with fin. rewrite fdiv_fin by (apply Hd; lia).
    f_equal. specialize (Hx n Hi). specialize (Hd n Hi).
    rewrite <- Hx. field. exact Hd.
  - apply IH'. lia.
Qed.

(** ** The factor of a positive definite matrix is unique *)

Lemma mulT_lower (N : nat) (M : rmat) (i n : nat) :
  lower_triangular N M -> (n < N)%nat ->
  mulT N M i n = sumR n (fun t => M i t * M n t) + M i n * M n n.
Proof.
  intros Hlow Hn. unfold mulT.
  rewrite (sumR_trunc N (S n)); [reflexivity | lia |].
  intros t Ht HtN. rewrite (Hlow n t) by lia. lra.
Qed.

Lemma chol_factor_unique (N : nat) (L M : rmat) :
  lower_triangular N L -> lower_triangular N M ->
  positive_diagonal N L -> positive_diagonal N M ->
  (forall i k, (i < N)%nat -> (k < N)%nat -> mulT N L i k = mulT N M i k) ->
  forall i j, (i < N)%nat -> (j < N)%nat -> L i j = M i j.
Proof.
  intros HlL HlM HdL HdM Hprod.
  assert (Hcols : forall n, (n <= N)%nat ->
            forall j i, (j < n)%nat -> (i < N)%nat -> L i j = M i j).
  { induction n as [|n IH]; intros Hn j i Hj Hi; [lia|].
    destruct (Nat.eq_dec j n) as [->|Hne]; [|apply IH; lia].
    assert (Hsum : forall r, (r < N)%nat ->
              L r n * L n n = M r n * M n n).
    { intros r Hr.
      pose proof (Hprod r n Hr ltac:(lia)) as E.
      rewrite (mulT_lower N L r n HlL), (mulT_lower N M r n HlM) in E by lia.
      rewrite (sumR_ext n (fun t => L r t * L n t) (fun t => M r t * M n t)) in E.
      - lra.
      - intros t Ht. rewrite (IH ltac:(lia) t r), (IH ltac:(lia) t n) by lia.
        reflexivity. }
    pose proof (HdL n ltac:(lia)) as HLn. pose proof (HdM n ltac:(lia)) as HMn.
    assert (Hnn : L n n = M n n).
    { pose proof (Hsum n ltac:(lia)) as E. nra. }
    destruct (le_lt_dec n i) as [Hle|Hlt].
    - pose proof (Hsum i Hi) as E. rewrite Hnn in E.
      apply (Rmult_eq_reg_r (M n n)); [exact E | lra].
    - rewrite (HlL i n), (HlM i n) by lia. reflexivity. }
  intros i j Hi Hj. apply (Hcols N (le_n _) j i Hj Hi).
Qed.

(** ** Real inputs *)

Lemma finite_inj_mat (N : nat) (M : rmat) : finite_mat N (inj_mat M).
Proof. intros i j _ _. reflexivity. Qed.

Lemma finite_inj_vec (N : nat) (v : rvec) : finite_vec N (inj_vec v).
Proof. intros i _. reflexivity. Qed.

Lemma update_final_inv (N : nat) (L : fmat) (w : fvec) :
  finite_mat N L -> finite_vec N w ->
  lower_triangular N (rval L) -> positive_diagonal N (rval L) ->
  rank_one_inv 1 N L w N (update_loop N N L w).
Proof. intros. apply update_loop_inv; auto. Qed.

Lemma rank_one_lower (sgn : R) (N : nat) (Lin : fmat) (win : fvec)
    (n : nat) (st : update_state) :
  lower_triangular N (rval Lin) ->
  rank_one_inv sgn N Lin win n st ->
  lower_triangular N (rval (fst (fst st))).
Proof.
  intros Hlow Hinv i t Hit Ht. unfold rval.
  rewrite (ui_upper _ _ _ _ _ _ Hinv i t Hit). apply (Hlow i t Hit Ht).
Qed.

Lemma rank_one_positive (sgn : R) (N : nat) (Lin : fmat) (win : fvec)
    (st : update_state) :
  rank_one_inv sgn N Lin win N st ->
  positive_diagonal N (rval (fst (fst st))).
Proof. intros Hinv j Hj. apply (ui_diag _ _ _ _ _ _ Hinv j Hj). Qed.

Lemma L_diag234_lower : lower_triangular 3 L_diag234.
Proof. intros i j Hij Hj. unfold L_diag234. bool_cases. reflexivity. Qed.

Lemma L_diag234_positive : positive_diagonal 3 L_diag234.
Proof.
  intros j Hj. unfold L_diag234. rewrite Nat.eqb_refl.
  destruct j as [|[|j]]; lra.
Qed.

Lemma L_two_lower : lower_triangular 1 L_two.
Proof. intros i j Hij Hj. lia. Qed.

Lemma L_two_positive : positive_diagonal 1 L_two.
Proof. intros j Hj. unfold L_two. lra. Qed.

(** ** Running the downdate loop one column further *)

Lemma downdate_loop_next (N n : nat) (L : fmat) (w : fvec)
    (st st' : update_state) :
  downdate_loop N n L w = (st, None) -> downdate_body N n st = Ok st' ->
  downdate_loop N (S n) L w = (st', None).
Proof.
  unfold downdate_loop. intros Hpre Hbody. cbn [for_range_e].
  rewrite Hpre, Hbody. reflexivity.
Qed.

Lemma downdate_loop_stops (N n : nat) (L : fmat) (w : fvec)
    (st : update_state) (e : error) :
  downdate_loop N n L w = (st, None) -> downdate_body N n st = Raise e ->
  downdate_loop N (S n) L w = (st, Some e).
Proof.
  unfold downdate_loop. intros Hpre Hbody. cbn [for_range_e].
  rewrite Hpre, Hbody. reflexivity.
Qed.

Lemma downdate_loop_stopped (N n m : nat) (L : fmat) (w : fvec)
    (st : update_state) (e : error) :
  (n <= m)%nat -> downdate_loop N n L w = (st, Some e) ->
  downdate_loop N m L w = (st, Some e).
Proof.
  unfold downdate_loop. intros Hnm Hpre.
  induction m as [|m IH].
  - replace n with 0%nat in Hpre by lia. exact Hpre.
  - destruct (Nat.eq_dec n (S m)) as [->|Hne]; [exact Hpre|].
    cbn [for_range_e]. rewrite IH by lia. reflexivity.
Qed.

Lemma downdate_body_error (N j : nat) (st : update_state) (e : error) :
  downdate_body N j st = Raise e ->
  e = NotPositiveDefinite /\ downdate_check j st = true.
Proof.
  destruct st as [[L w] b]. unfold downdate_body, downdate_check.
  destruct (fge _ _); [|destruct (j =? N - 1)%nat; discriminate].
  intros H. injection H as <-. split; reflexivity.
Qed.


(** ** Update and downdate: the product, the diagonal *)

(** C2. For a lower-triangular [L] with positive diagonal, [chol_update]
    returns a factor [L'] with [L' L'^T = L L^T + w w^T], and whenever
    [chol_downdate] returns, it returns a factor [L'] with
    [L' L'^T = L L^T - w w^T]; the diagonal of [L'] is non-negative in both
    cases. *)
Theorem chol_update_downdate_product (N : nat) (L : rmat) (w : rvec) :
  lower_triangular N L -> positive_diagonal N L ->
  (exists L' w',
      chol_update N (inj_mat L) (inj_vec w) = (L', w') /\
      finite_mat N L' /\ lower_triangular N (rval L') /\
      (forall i k, (i < N)%nat -> (k < N)%nat ->
         mulT N (rval L') i k = mulT N L i k + w i * w k) /\
      (forall j, (j < N)%nat -> 0 <= rval L' j j)) /\
  (forall L' w',
      chol_downdate N (inj_mat L) (inj_vec w) = Ok (L', w') ->
      finite_mat N L' /\ lower_triangular N (rval L') /\
      (forall i k, (i < N)%nat -> (k < N)%nat ->
         mulT N (rval L') i k = mulT N L i k - w i * w k) /\
      (forall j, (j < N)%nat -> 0 <= rval L' j j)).
Proof.
  intros Hlow Hpos. split.
  - pose proof (update_final_inv N (inj_mat L) (inj_vec w)
                  (finite_inj_mat N L) (finite_inj_vec N w) Hlow Hpos) as Hinv.
    rewrite chol_update_unfold.
    eexists; eexists; split; [reflexivity|].
    split; [apply (ui_finite_L _ _ _ _ _ _ Hinv)|].
    split; [apply (rank_one_lower _ N (inj_mat L) _ _ _ Hlow Hinv)|].
    split.
    + intros i k Hi Hk.
      rewrite (rank_one_done_product _ _ _ _ _ Hinv i k Hi Hk).
      unfold mulT, rval, inj_mat, inj_vec; simpl. lra.
    + intros j Hj. apply Rlt_le, (rank_one_positive _ _ _ _ _ Hinv j Hj).
  - intros L' w' Hrun.
    destruct (chol_downdate_ok N _ _ _ _ Hrun) as [b Hloop].
    pose proof (downdate_loop_inv N (inj_mat L) (inj_vec w)
                  (finite_inj_mat N L) (finite_inj_vec N w) Hlow Hpos
                  N (L', w', b) (le_n _) Hloop) as Hinv.
    split; [apply (ui_finite_L _ _ _ _ _ _ Hinv)|].
    split; [apply (rank_one_lower _ N (inj_mat L) _ _ _ Hlow Hinv)|].
    split.
    + intros i k Hi Hk.
      pose proof (rank_one_done_product _ _ _ _ _ Hinv i k Hi Hk) as E.
      cbn [fst snd] in E. rewrite E.
      unfold mulT, rval, inj_mat, inj_vec; simpl. lra.
    + intros j Hj. apply Rlt_le, (rank_one_positive _ _ _ _ _ Hinv j Hj).
Qed.

Lemma downdate_two_one :
  exists L' w' b,
    downdate_loop 1 1 (inj_mat L_two) (inj_vec w_one) = (L', w', b, None).
Proof.
  assert (Hok : val (inj_vec w_one 0%nat) / val (inj_mat L_two 0%nat 0%nat) *
                (val (inj_vec w_one 0%nat) / val (inj_mat L_two 0%nat 0%nat))
                < 1 * 1).
  { unfold inj_vec, inj_mat, w_one, L_two. simpl. lra. }
  destruct (downdate_body_spec 1 0 (inj_mat L_two) (inj_vec w_one) 1
              (Nat.lt_0_succ 0) (finite_inj_mat 1 L_two)
              (finite_inj_vec 1 w_one) Rlt_0_1
              ltac:(unfold inj_mat, L_two; simpl; lra) Hok)
    as (L' & w' & E & _).
  exists L', w'. eexists.
  apply (downdate_loop_next 1 0 _ _ (inj_mat L_two, inj_vec w_one, Fin 1));
    [reflexivity | exact E].
Qed.

Lemma chol_update_downdate_product_witness :
  (exists L' w',
      chol_update 3 (inj_mat L_diag234) (inj_vec w_001) = (L', w') /\
      finite_mat 3 L' /\ lower_triangular 3 (rval L') /\
      (forall i k, (i < 3)%nat -> (k < 3)%nat ->
         mulT 3 (rval L') i k = mulT 3 L_diag234 i k + w_001 i * w_001 k) /\
      (forall j, (j < 3)%nat -> 0 <= rval L' j j)) /\
  (exists L' w',
      chol_downdate 1 (inj_mat L_two) (inj_vec w_one) = Ok (L', w') /\
      finite_mat 1 L' /\ lower_triangular 1 (rval L') /\
      (forall i k, (i < 1)%nat -> (k < 1)%nat ->
         mulT 1 (rval L') i k = mulT 1 L_two i k - w_one i * w_one k) /\
      (forall j, (j < 1)%nat -> 0 <= rval L' j j)).
Proof.
  split.
  - exact (proj1 (chol_update_downdate_product 3 L_diag234 w_001
                    L_diag234_lower L_diag234_positive)).
  - destruct downdate_two_one as (L' & w' & b & Hloop).
    assert (Hrun : chol_downdate 1 (inj_mat L_two) (inj_vec w_one) = Ok (L', w')).
    { unfold chol_downdate. rewrite Hloop. reflexivity. }
    exists L', w'. split; [exact Hrun|].
    exact (proj2 (chol_update_downdate_product 1 L_two w_one
                    L_two_lower L_two_positive) L' w' Hrun).
Defined.

(** C9. Round trip: for a lower-triangular [L] with positive diagonal,
    whenever the downdate of the updated factor by the same [w] returns
    (every column passes the test [α² < β²]), it returns [L]. *)
Theorem downdate_after_update_roundtrip (N : nat) (L : rmat) (w : rvec) :
  lower_triangular N L -> positive_diagonal N L ->
  forall L' w' L'' w'',
    chol_update N (inj_mat L) (inj_vec w) = (L', w') ->
    chol_downdate N L' (inj_vec w) = Ok (L'', w'') ->
    forall i j, (i < N)%nat -> (j < N)%nat -> L'' i j = Fin (L i j).
Proof.
  intros Hlow Hpos L' w' L'' w'' Hup Hdown i j Hi Hj.
  pose proof (update_final_inv N (inj_mat L) (inj_vec w)
                (finite_inj_mat N L) (finite_inj_vec N w) Hlow Hpos) as Hu.
  unfold chol_update in Hup.
  destruct (update_loop N N (inj_mat L) (inj_vec w)) as [[Lu wu] bu].
  injection Hup as <- <-.
  pose proof (ui_finite_L _ _ _ _ _ _ Hu) as HfL'.
  pose proof (rank_one_lower _ N (inj_mat L) _ _ _ Hlow Hu) as HlL'.
  pose proof (rank_one_positive _ _ _ _ _ Hu) as HpL'.
  cbn [fst snd] in HfL', HlL', HpL'.
  assert (HprodL' : forall r k, (r < N)%nat -> (k < N)%nat ->
            mulT N (rval Lu) r k = mulT N L r k + w r * w k).
  { intros r k Hr Hk.
    pose proof (rank_one_done_product _ _ _ _ _ Hu r k Hr Hk) as E.
    cbn [fst snd] in E. rewrite E.
    unfold mulT, rval, inj_mat, inj_vec; simpl. lra. }
  destruct (chol_downdate_ok N _ _ _ _ Hdown) as [b Hloop].
  pose proof (downdate_loop_inv N Lu (inj_vec w) HfL' (finite_inj_vec N w)
                HlL' HpL' N (L'', w'', b) (le_n _) Hloop) as Hd.
  pose proof (rank_one_lower _ N Lu _ _ _ HlL' Hd) as HlL''.
  pose proof (rank_one_positive _ _ _ _ _ Hd) as HpL''.
  cbn [fst snd] in HlL'', HpL''.
  rewrite (finite_val (L'' i j)) by (apply (ui_finite_L _ _ _ _ _ _ Hd); assumption).
  f_equal.
  apply (chol_factor_unique N (rval L'') L HlL'' Hlow HpL'' Hpos); try assumption.
  intros r k Hr Hk.
  pose proof (rank_one_done_product _ _ _ _ _ Hd r k Hr Hk) as E.
  cbn [fst snd] in E. rewrite E, (HprodL' r k Hr Hk).
  unfold inj_vec; simpl. lra.
Qed.


(** ** Failure of the downdate *)

(** A stopped loop stopped at some column, in the state the columns before
    it had produced. *)
Lemma downdate_loop_first_failure (N n : nat) (L : fmat) (w : fvec)
    (st : update_state) (e : error) :
  downdate_loop N n L w = (st, Some e) ->
  exists j, (j < n)%nat /\ downdate_loop N j L w = (st, None) /\
            downdate_body N j st = Raise e.
Proof.
  unfold downdate_loop. induction n as [|n IH]; intros Hrun.
  - simpl in Hrun. discriminate.
  - cbn [for_range_e] in Hrun.
    destruct (for_range_e n (downdate_body N) (L, w, Fin 1))
      as [s' [e'|]] eqn:Hpre.
    + destruct (IH Hrun) as (j & Hj & Hpj & Hbj).
      exists j. split; [lia|]. split; assumption.
    + destruct (downdate_body N n s') as [s''|e'] eqn:Hbody; [discriminate|].
      injection Hrun as <- <-.
      exists n. split; [lia|]. split; [exact Hpre | exact Hbody].
Qed.

(** The working copies live behind the caller's arrays. *)
Lemma write_alloc_matrices (h : store) (L : fmat) (w : fvec)
    (L' : fmat) (w' : fvec) (p : nat) :
  (p < length (matrices h))%nat ->
  nth_error (matrices (write_copies (alloc_copies h L w) L' w')) p =
  nth_error (matrices h) p.
Proof.
  intros Hp. unfold write_copies, alloc_copies. cbn [matrices].
  rewrite removelast_last. apply nth_error_app1. exact Hp.
Qed.

Lemma write_alloc_vectors (h : store) (L : fmat) (w : fvec)
    (L' : fmat) (w' : fvec) (p : nat) :
  (p < length (vectors h))%nat ->
  nth_error (vectors (write_copies (alloc_copies h L w) L' w')) p =
  nth_error (vectors h) p.
Proof.
  intros Hp. unfold write_copies, alloc_copies. cbn [vectors].
  rewrite removelast_last. apply nth_error_app1. exact Hp.
Qed.




(** ** The unified entry point against the two functions it unifies *)

Lemma chol_update_two_one_solution :
  snd (chol_update 1 (inj_mat L_two) (inj_vec w_one)) 0%nat = Fin (1 / 2).
Proof.
  rewrite chol_update_unfold. cbn [snd].
  unfold update_loop. cbn [for_range].
  destruct (update_body_spec 1 0 (inj_mat L_two) (inj_vec w_one) 1
              (Nat.lt_0_succ 0) (finite_inj_mat 1 L_two)
              (finite_inj_vec 1 w_one) Rlt_0_1
              ltac:(unfold inj_mat, L_two; simpl; lra))
    as (L' & w' & E & _ & Hw').
  rewrite E. cbn [fst snd]. rewrite Hw'. reflexivity.
Qed.

Lemma forward_subst_two_one :
  forward_subst 1 (inj_mat L_two) (inj_vec w_one) 0%nat = Fin (1 / 2).
Proof.
  cbn [forward_subst fdot Nat.eqb]. unfold inj_mat, inj_vec, L_two, w_one.
  autorewrite with fin. rewrite fdiv_fin by lra. f_equal. lra.
Qed.

Lemma chol_updown_two_one_vector :
  snd (chol_updown 1 (inj_mat L_two) (inj_vec w_one) true) 0%nat = Fin 1.
Proof. reflexivity. Qed.

(** C6 (the code departs from it).  On the one by one factor [[2]] and
    [w = [1]] the second value returned by [chol_updown] in the update
    direction is [w] itself, [1], where the solution of [L x = w], which
    [chol_update] returns, is [1/2]. *)
Theorem chol_updown_one_by_one_returns_w_unsolved :
  snd (chol_updown 1 (inj_mat L_two) (inj_vec w_one) true) 0%nat = Fin 1 /\
  forward_subst 1 (inj_mat L_two) (inj_vec w_one) 0%nat = Fin (1 / 2) /\
  snd (chol_update 1 (inj_mat L_two) (inj_vec w_one)) 0%nat = Fin (1 / 2) /\
  Fin 1 <> Fin (1 / 2).
Proof.
  split; [exact chol_updown_two_one_vector|].
  split; [exact forward_subst_two_one|].
  split; [exact chol_update_two_one_solution|].
  intros H. injection H as H. lra.
Qed.

Lemma chol_downdate_identity_30 :
  chol_downdate 2 (inj_mat L_identity) (inj_vec w_30) = Raise NotPositiveDefinite.
Proof.
  unfold chol_downdate.
  assert (Hbody : downdate_body 2 0 (inj_mat L_identity, inj_vec w_30, Fin 1)
                  = Raise NotPositiveDefinite).
  { apply downdate_body_raises.
    - lia.
    - apply finite_inj_mat.
    - apply finite_inj_vec.
    - unfold inj_mat, L_identity. simpl. lra.
    - unfold inj_mat, inj_vec, L_identity, w_30. simpl. lra. }
  rewrite (downdate_loop_stopped 2 1 2 _ _ _ _ (Nat.le_succ_diag_r 1)
             (downdate_loop_stops 2 0 _ _ _ _ eq_refl Hbody)).
  reflexivity.
Qed.

Lemma chol_updown_identity_30 :
  fst (chol_updown 2 (inj_mat L_identity) (inj_vec w_30) false) 0%nat 0%nat = NaN.
Proof.
  cbv [chol_updown for_range updown_body Nat.eqb Nat.ltb Nat.leb andb fst snd
       inj_mat inj_vec L_identity w_30].
  rewrite (fdiv_fin 3 1) by lra.
  autorewrite with fin.
  rewrite fsqrt_neg by lra.
  reflexivity.
Qed.

(** C5 (the code departs from it).  In the update direction, on the one by
    one factor [[2]] with [w = [1]], [chol_updown] returns the vector [1]
    where [chol_update] returns [1/2]; in the downdate direction, on the
    two by two identity with [w = (3, 0)], [chol_downdate] raises
    NotPositiveDefinite where [chol_updown], which has no test, returns a
    factor whose first diagonal entry is [nan]. *)
Theorem chol_updown_departs_from_update_and_downdate :
  (snd (chol_updown 1 (inj_mat L_two) (inj_vec w_one) true) 0%nat = Fin 1 /\
   snd (chol_update 1 (inj_mat L_two) (inj_vec w_one)) 0%nat = Fin (1 / 2)) /\
  (chol_downdate 2 (inj_mat L_identity) (inj_vec w_30) = Raise NotPositiveDefinite /\
   fst (chol_updown 2 (inj_mat L_identity) (inj_vec w_30) false) 0%nat 0%nat = NaN).
Proof.
  split; split.
  - exact chol_updown_two_one_vector.
  - exact chol_update_two_one_solution.
  - exact chol_downdate_identity_30.
  - exact chol_updown_identity_30.
Qed.

(** ** Loops that may raise *)

Section ForRangeE.

Context {S : Type}.
Variable body : nat -> S -> result S.
Variable s0 : S.

Lemma for_range_e_next (n : nat) (st st' : S) :
  for_range_e n body s0 = (st, None) -> body n st = Ok st' ->
  for_range_e (Datatypes.S n) body s0 = (st', None).
Proof. intros Hpre Hbody. cbn [for_range_e]. rewrite Hpre, Hbody. reflexivity. Qed.

Lemma for_range_e_stops (n : nat) (st : S) (e : error) :
  for_range_e n body s0 = (st, None) -> body n st = Raise e ->
  for_range_e (Datatypes.S n) body s0 = (st, Some e).
Proof. intros Hpre Hbody. cbn [for_range_e]. rewrite Hpre, Hbody. reflexivity. Qed.

Lemma for_range_e_stopped (n m : nat) (st : S) (e : error) :
  (n <= m)%nat -> for_range_e n body s0 = (st, Some e) ->
  for_range_e m body s0 = (st, Some e).
Proof.
  intros Hnm Hpre. induction m as [|m IH].
  - replace n with 0%nat in Hpre by lia. exact Hpre.
  - destruct (Nat.eq_dec n (Datatypes.S m)) as [->|Hne]; [exact Hpre|].
    cbn [for_range_e]. rewrite IH by lia. reflexivity.
Qed.

End ForRangeE.

(** ** The partition of [chol_super] *)

Lemma forallb_positive_false (s : list Z) :
  (exists x, In x s /\ (x <= 0)%Z) ->
  forallb (fun x => (0 <? x)%Z) s = false.
Proof.
  intros (x & Hin & Hx). induction s as [|y s IH]; [contradiction|].
  simpl. destruct Hin as [->|Hin].
  - replace (0 <? x)%Z with false by (symmetry; apply Z.ltb_ge; exact Hx).
    reflexivity.
  - rewrite (IH Hin). apply andb_false_r.
Qed.

(** ** The up-looking factorisation on a negative radicand *)

Lemma fdot_ext (n : nat) (x x' y y' : fvec) :
  (forall t, (t < n)%nat -> x t = x' t) ->
  (forall t, (t < n)%nat -> y t = y' t) ->
  fdot n x y = fdot n x' y'.
Proof.
  induction n as [|n IH]; intros Hx Hy; simpl; [reflexivity|].
  rewrite IH by (intros; auto). rewrite Hx, Hy by lia. reflexivity.
Qed.

Lemma vec_finite_true (n : nat) (v : fvec) :
  vec_finite n v = true <-> forall i, (i < n)%nat -> is_finite (v i) = true.
Proof.
  unfold vec_finite. rewrite forallb_forall. split.
  - intros H i Hi. apply H. apply in_seq. lia.
  - intros H i Hi. apply in_seq in Hi. apply H. lia.
Qed.

Lemma mat_finite_true (r c : nat) (M : fmat) :
  mat_finite r c M = true <->
  forall i j, (i < r)%nat -> (j < c)%nat -> is_finite (M i j) = true.
Proof.
  unfold mat_finite. rewrite forallb_forall. split.
  - intros H i j Hi Hj.
    assert (Hrow : vec_finite c (M i) = true) by (apply H; apply in_seq; lia).
    apply (proj1 (vec_finite_true c (M i)) Hrow j Hj).
  - intros H i Hi. apply in_seq in Hi. apply vec_finite_true.
    intros j Hj. apply H; lia.
Qed.

Lemma mat_finite_false (r c : nat) (M : fmat) (i j : nat) :
  (i < r)%nat -> (j < c)%nat -> is_finite (M i j) = false ->
  mat_finite r c M = false.
Proof.
  intros Hi Hj Hnf. destruct (mat_finite r c M) eqn:E; [|reflexivity].
  rewrite (proj1 (mat_finite_true r c M) E i j Hi Hj) in Hnf. discriminate.
Qed.

Lemma chol_up_body_diag (A : fmat) (k : nat) (L : fmat) (x : fvec) :
  la_solve k L (fun i => A i k) = Ok x ->
  exists L', chol_up_body A k L = Ok L' /\
             L' k k = fsqrt (chol_up_radicand A k x).
Proof.
  intros Hsolve. unfold chol_up_body. rewrite Hsolve. cbn [bind].
  eexists. split; [reflexivity|]. cbv beta.
  rewrite !Nat.eqb_refl. cbn [andb]. unfold chol_up_radicand.
  do 2 f_equal. apply fdot_ext; intros t Ht; cbv beta;
    destruct (Nat.ltb_spec t k); try lia; reflexivity.
Qed.

Lemma la_solve_rejects_nan (n : nat) (a : fmat) (b : fvec) (i j : nat) :
  (i < n)%nat -> (j < n)%nat -> is_finite (a i j) = false ->
  la_solve n a b = Raise NonFiniteInput.
Proof.
  intros Hi Hj Hnf. unfold la_solve.
  rewrite (mat_finite_false n n a i j Hi Hj Hnf). reflexivity.
Qed.

Section NegativeRadicand.

Variables (N : nat) (A : fmat) (lower : bool) (k : nat) (L : fmat)
          (x : fvec) (r : R).
Hypothesis Hk : (k < N)%nat.
Hypothesis Hpre : chol_up_loop A k = (L, None).
Hypothesis Hsolve : la_solve k L (fun i => A i k) = Ok x.
Hypothesis Hrad : chol_up_radicand A k x = Fin r.
Hypothesis Hneg : r < 0.

Lemma chol_up_row_nan :
  exists L', chol_up_loop A (S k) = (L', None) /\ L' k k = NaN.
Proof.
  destruct (chol_up_body_diag A k L x Hsolve) as (L' & Hbody & Hdiag).
  rewrite Hrad, fsqrt_neg in Hdiag by exact Hneg.
  exists L'. split; [|exact Hdiag].
  apply (for_range_e_next (chol_up_body A) zeros_mat k L L' Hpre Hbody).
Qed.

Lemma chol_up_last_row_nan :
  S k = N ->
  exists L', chol_up N A lower = Ok (oriented lower L') /\ L' k k = NaN.
Proof.
  intros <-. destruct chol_up_row_nan as (L' & Hnext & Hdiag).
  exists L'. split; [|exact Hdiag].
  unfold chol_up. rewrite Hnext. reflexivity.
Qed.

Lemma chol_up_inner_row_nan :
  (S k < N)%nat -> chol_up N A lower = Raise NonFiniteInput.
Proof.
  intros Hlt. destruct chol_up_row_nan as (L' & Hnext & Hdiag).
  assert (Hbody' : chol_up_body A (S k) L' = Raise NonFiniteInput).
  { unfold chol_up_body.
    rewrite (la_solve_rejects_nan (S k) L' _ k k)
      by (try lia; rewrite Hdiag; reflexivity).
    reflexivity. }
  pose proof (for_range_e_stops (chol_up_body A) zeros_mat (S k) L' _
                Hnext Hbody') as Hstop.
  unfold chol_up, chol_up_loop.
  rewrite (for_range_e_stopped (chol_up_body A) zeros_mat (S (S k)) N L' _
             Hlt Hstop).
  reflexivity.
Qed.

End NegativeRadicand.

(** C4, as the code has it.  [chol_up] has no test of its own on the
    radicand.  When the radicand of row [k] is negative, [L[k,k]] becomes
    [nan]; if [k] is the last row the factor is returned with that [nan]
    and no error; if a row follows, its linear solve rejects the non-finite
    block and the operation fails with that routine's error. *)
Theorem chol_up_negative_radicand
    (N : nat) (A : fmat) (lower : bool) (k : nat) (L : fmat) (x : fvec)
    (r : R) :
  (k < N)%nat ->
  chol_up_loop A k = (L, None) ->
  la_solve k L (fun i => A i k) = Ok x ->
  chol_up_radicand A k x = Fin r -> r < 0 ->
  (S k = N ->
   exists L', chol_up N A lower = Ok (oriented lower L') /\ L' k k = NaN) /\
  ((S k < N)%nat -> chol_up N A lower = Raise NonFiniteInput).
Proof.
  intros Hk Hpre Hsolve Hrad Hneg. split.
  - apply (chol_up_last_row_nan N A lower k L x r); assumption.
  - apply (chol_up_inner_row_nan N A lower k L x r); assumption.
Qed.

Lemma la_solve_empty (a : fmat) (b : fvec) : la_solve 0 a b = Ok zeros_vec.
Proof. reflexivity. Qed.

Lemma chol_up_radicand_minus_one :
  chol_up_radicand (inj_mat A_minus_one) 0 zeros_vec = Fin (-1 + - 0).
Proof. reflexivity. Qed.

Lemma chol_up_radicand_diag_m1_1 :
  chol_up_radicand (inj_mat A_diag_m1_1) 0 zeros_vec = Fin (-1 + - 0).
Proof. reflexivity. Qed.

Lemma chol_up_negative_radicand_witness :
  (exists L', chol_up 1 (inj_mat A_minus_one) true = Ok (oriented true L') /\
              L' 0%nat 0%nat = NaN) /\
  chol_up 2 (inj_mat A_diag_m1_1) true = Raise NonFiniteInput.
Proof.
  split.
  - apply (proj1 (chol_up_negative_radicand 1 (inj_mat A_minus_one) true 0
                    zeros_mat zeros_vec (-1 + - 0) (Nat.lt_0_succ 0) eq_refl
                    (la_solve_empty _ _) chol_up_radicand_minus_one
                    ltac:(lra)) eq_refl).
  - apply (proj2 (chol_up_negative_radicand 2 (inj_mat A_diag_m1_1) true 0
                    zeros_mat zeros_vec (-1 + - 0) (Nat.lt_0_2) eq_refl
                    (la_solve_empty _ _) chol_up_radicand_diag_m1_1
                    ltac:(lra)) (Nat.lt_1_2)).
Defined.

(** C4 as stated fails: the radicand of the only row of [[-1]] is
    negative, and [chol_up] returns. *)
Lemma chol_up_negative_radicand_no_error :
  ~ (forall (N : nat) (A : fmat) (lower : bool) (k : nat) (L : fmat)
            (x : fvec) (r : R),
        (k < N)%nat ->
        chol_up_loop A k = (L, None) ->
        la_solve k L (fun i => A i k) = Ok x ->
        chol_up_radicand A k x = Fin r -> r < 0 ->
        exists e, chol_up N A lower = Raise e).
Proof.
  intros Hclaim.
  destruct (Hclaim 1%nat (inj_mat A_minus_one) true 0%nat zeros_mat zeros_vec
              (-1 + - 0) (Nat.lt_0_succ 0) eq_refl (la_solve_empty _ _)
              chol_up_radicand_minus_one ltac:(lra)) as [e He].
  destruct (chol_up_last_row_nan 1 (inj_mat A_minus_one) true 0
              zeros_mat zeros_vec (-1 + - 0) (Nat.lt_0_succ 0) eq_refl
              (la_solve_empty _ _) chol_up_radicand_minus_one
              ltac:(lra) eq_refl) as (L' & Hok & _).
  rewrite Hok in He. discriminate.
Qed.

(** ** The supernodal factorisation on a block of two columns *)

Lemma potrf_body_pos (sz : nat) (a : fmat) (j : nat) (U : fmat) (p : R) :
  fsub (a j j) (fdot j (fun t => U t j) (fun t => U t j)) = Fin p ->
  0 < p ->
  potrf_body sz a j U =
  Ok (fun r c =>
        if (r =? j)%nat && (c =? j)%nat then Fin (sqrt p)
        else if (r =? j)%nat && (j <? c)%nat && (c <? sz)%nat
             then fdiv (fsub (a j c)
                             (fdot j (fun t => U t j) (fun t => U t c)))
                       (Fin (sqrt p))
             else U r c).
Proof.
  intros Hp Hpos. unfold potrf_body. rewrite Hp.
  rewrite (proj2 (fpositive_fin p) Hpos), fsqrt_fin by lra. reflexivity.
Qed.

Lemma la_cholesky_identity_block : exists U, la_cholesky 2 identity_block = Ok U.
Proof.
  unfold la_cholesky.
  replace (mat_finite 2 2 identity_block) with true by reflexivity.
  cbn [for_range_e].
  rewrite (potrf_body_pos 2 identity_block 0 zeros_mat (1 + - 0 + - 0) eq_refl)
    by lra.
  set (U1 := fun r c : nat => _).
  assert (Hroot : sqrt (1 + - 0 + - 0) = 1).
  { replace (1 + - 0 + - 0) with 1 by lra. apply sqrt_1. }
  assert (HU01 : U1 0%nat 1%nat = Fin (0 / 1)).
  { unfold U1. cbn [Nat.eqb Nat.ltb Nat.leb andb].
    rewrite Hroot.
    replace (fsub (identity_block 0%nat 1%nat) _) with (Fin (0 + - 0 + - 0))
      by reflexivity.
    rewrite fdiv_fin by lra. f_equal. lra. }
  assert (Hpiv : fsub (identity_block 1%nat 1%nat)
                   (fdot 1 (fun t => U1 t 1%nat) (fun t => U1 t 1%nat)) =
                 Fin (1 + - 0 + - (0 + 0 / 1 * (0 / 1)))).
  { cbn [fdot]. rewrite HU01. reflexivity. }
  rewrite (potrf_body_pos 2 identity_block 1 U1 _ Hpiv) by lra.
  eexists. reflexivity.
Qed.

Lemma L_identity_spd : SPD 2 L_identity.
Proof.
  split.
  - intros i j Hi Hj.
    destruct i as [|[|i]]; destruct j as [|[|j]]; try lia; reflexivity.
  - intros x (i & Hi & Hx). unfold quad_form. cbn [sumR L_identity Nat.eqb].
    assert (Hpos : forall r : R, r <> 0 -> 0 < r * r).
    { intros r Hr. destruct (Rtotal_order r 0) as [H|[H|H]]; nra. }
    assert (Hnn : forall r : R, 0 <= r * r) by (intros r; nra).
    pose proof (Hnn (x 0%nat)) as H0. pose proof (Hnn (x 1%nat)) as H1.
    destruct i as [|[|i]]; try lia; pose proof (Hpos _ Hx); lra.
Qed.

(** C1 (the code departs from it).  For the two by two identity, which is
    symmetric positive definite, and the valid partition [s = (2)],
    [chol_super] raises: the rows below the block, an empty 0 by 2 array,
    are divided element by element by the 2 by 2 block, and the two shapes
    do not broadcast. *)
Theorem chol_super_block_of_two_raises :
  SPD 2 L_identity /\
  sumZ [2%Z] = Z.of_nat 2 /\ (forall x, In x [2%Z] -> (0 < x)%Z) /\
  chol_super 2 (inj_mat L_identity) [2%Z] true = Raise BroadcastError.
Proof.
  split; [exact L_identity_spd|].
  split; [reflexivity|]. split.
  { intros x [<-|[]]. lia. }
  unfold chol_super.
  replace (negb (sumZ [2%Z] =? Z.of_nat 2)%Z) with false by reflexivity.
  replace (negb (forallb (fun x => (0 <? x)%Z) [2%Z])) with false by reflexivity.
  cbn [length for_range_e].
  assert (Hbody : chol_super_body 2 (inj_mat L_identity) [2%Z] 0 zeros_mat =
                  Raise BroadcastError).
  { unfold chol_super_body.
    replace (cumsum_at [2%Z] 0) with 0%nat by reflexivity.
    replace (cumsum_at [2%Z] 1) with 2%nat by reflexivity.
    replace (2 - 0)%nat with 2%nat by reflexivity.
    replace (2 - 2)%nat with 0%nat by reflexivity.
    fold identity_block.
    destruct la_cholesky_identity_block as [U ->].
    reflexivity. }
  rewrite Hbody. reflexivity.
Qed.

(** ** Positive definite matrices have positive pivots *)

(** The triangular system [M^T x = c] has a solution. *)
Lemma back_subst_exists (n : nat) (M : rmat) :
  (forall t, (t < n)%nat -> M t t <> 0) ->
  (forall i t, (i < t)%nat -> (t < n)%nat -> M i t = 0) ->
  forall c : rvec,
  exists x : rvec,
    forall u, (u < n)%nat -> sumR n (fun i => x i * M i u) = c u.
Proof.
  induction n as [|n IH]; intros Hd Hlow c.
  - exists (fun _ => 0). intros u Hu. lia.
  - set (xn := c n / M n n).
    destruct (IH ltac:(intros; apply Hd; lia)
                 ltac:(intros; apply Hlow; lia)
                 (fun u => c u - xn * M n u)) as [x' Hx'].
    exists (fun i => if (i =? n)%nat then xn else x' i).
    intros u Hu. cbn [sumR]. rewrite Nat.eqb_refl.
    rewrite (sumR_ext n _ (fun i => x' i * M i u)).
    2:{ intros i Hi. destruct (Nat.eqb_spec i n); [lia | reflexivity]. }
    destruct (Nat.eq_dec u n) as [->|Hne].
    + rewrite sumR_zero.
      * unfold xn. field. apply Hd. lia.
      * intros i Hi. rewrite (Hlow i n) by lia. lra.
    + rewrite Hx' by lia. lra.
Qed.

(** [x^T (M M^T) x] is a sum of squares. *)
Lemma quad_gram (m n : nat) (M : rmat) (x : rvec) :
  sumR m (fun i => sumR m (fun j =>
     x i * sumR n (fun u => M i u * M j u) * x j)) =
  sumR n (fun u => sumR m (fun i => x i * M i u) *
                   sumR m (fun i => x i * M i u)).
Proof.
  rewrite (sumR_ext n _ (fun u => sumR m (fun i => sumR m (fun j =>
             (x i * M i u) * (x j * M j u))))).
  2:{ intros u _. apply sumR_mul_sumR. }
  rewrite (sumR_swap n m).
  apply sumR_ext. intros i _.
  rewrite (sumR_swap n m).
  apply sumR_ext. intros j _.
  rewrite <- sumR_scal_l, <- sumR_scal_r.
  apply sumR_ext. intros u _. ring.
Qed.

Section Pivot.

Variables (N : nat) (A : rmat) (M : rmat) (n : nat).
Hypothesis Hspd : SPD N A.
Hypothesis Hn : (n < N)%nat.
Hypothesis Hdiag : forall t, (t < n)%nat -> 0 < M t t.
Hypothesis Hlow : forall i t, (i < t)%nat -> (t < n)%nat -> M i t = 0.
Hypothesis Hcols : forall t i, (t < n)%nat -> (t <= i)%nat -> (i <= n)%nat ->
  sumR (S t) (fun u => M i u * M t u) = A i t.

Let G (i j : nat) : R := sumR n (fun u => M i u * M j u).
Let d : R := A n n - G n n.

Lemma gram_below (i j : nat) :
  (j < n)%nat -> (j <= i)%nat -> (i <= n)%nat -> A i j = G i j.
Proof.
  intros Hj Hji Hi. rewrite <- (Hcols j i Hj Hji Hi). unfold G.
  symmetry. apply sumR_trunc; [lia|].
  intros u Hu Hun. rewrite (Hlow j u) by lia. lra.
Qed.

Lemma gram_leading (i j : nat) :
  (i <= n)%nat -> (j <= n)%nat ->
  A i j = G i j + (if (i =? n)%nat && (j =? n)%nat then d else 0).
Proof.
  intros Hi Hj.
  assert (Hsym : G i j = G j i) by (unfold G; apply sumR_ext; intros; lra).
  destruct (Nat.eqb_spec i n) as [->|Hin]; destruct (Nat.eqb_spec j n) as [->|Hjn];
    cbn [andb].
  - unfold d. lra.
  - rewrite (gram_below n j) by lia. lra.
  - rewrite (proj1 Hspd i n) by lia.
    rewrite (gram_below n i) by lia. lra.
  - destruct (le_lt_dec j i) as [Hle|Hlt].
    + rewrite (gram_below i j) by lia. lra.
    + rewrite (proj1 Hspd i j) by lia.
      rewrite (gram_below j i) by lia. lra.
Qed.

Lemma spd_pivot_positive : 0 < A n n - sumR n (fun u => M n u * M n u).
Proof.
  fold (G n n). fold d.
  destruct (back_subst_exists n M
              ltac:(intros t Ht; apply Rgt_not_eq, (Hdiag t Ht)) Hlow
              (fun u => - M n u)) as [x Hx].
  set (xh := fun i => if (i <? n)%nat then x i
                      else if (i =? n)%nat then 1 else 0).
  assert (Hy : forall u, (u < n)%nat ->
             sumR (S n) (fun i => xh i * M i u) = 0).
  { intros u Hu. cbn [sumR]. unfold xh at 2.
    rewrite Nat.ltb_irrefl, Nat.eqb_refl.
    rewrite (sumR_ext n _ (fun i => x i * M i u)).
    2:{ intros i Hi. unfold xh. destruct (Nat.ltb_spec i n); [reflexivity | lia]. }
    rewrite (Hx u Hu). lra. }
  assert (Hq : quad_form N A xh = d).
  { unfold quad_form.
    rewrite (sumR_trunc N (S n)); [|lia|].
    2:{ intros i Hi HiN. apply sumR_zero. intros j _. unfold xh.
        destruct (Nat.ltb_spec i n); [lia|].
        destruct (Nat.eqb_spec i n); [lia|]. lra. }
    rewrite (sumR_ext (S n) _ (fun i => sumR (S n) (fun j =>
               xh i * A i j * xh j))).
    2:{ intros i Hi. apply sumR_trunc; [lia|].
        intros j Hj HjN. unfold xh at 2.
        destruct (Nat.ltb_spec j n); [lia|].
        destruct (Nat.eqb_spec j n); [lia|]. lra. }
    rewrite (sumR_ext (S n) _ (fun i =>
               sumR (S n) (fun j => xh i * G i j * xh j) +
               sumR (S n) (fun j =>
                 xh i * (if (i =? n)%nat && (j =? n)%nat then d else 0) * xh j))).
    2:{ intros i Hi. rewrite <- sumR_plus. apply sumR_ext. intros j Hj.
        rewrite (gram_leading i j) by lia. ring. }
    rewrite sumR_plus.
    unfold G at 1. rewrite (quad_gram (S n) n M xh).
    rewrite (sumR_zero n).
    2:{ intros u Hu. rewrite (Hy u Hu). lra. }
    cbn [sumR].
    rewrite (sumR_zero n).
    2:{ intros i Hi. rewrite sumR_zero.
        - destruct (Nat.eqb_spec i n); [lia|]. cbn [andb]. lra.
        - intros j Hj. destruct (Nat.eqb_spec i n); [lia|]. cbn [andb]. lra. }
    rewrite (sumR_zero n).
    2:{ intros j Hj. destruct (Nat.eqb_spec j n); [lia|].
        rewrite andb_false_r. lra. }
    rewrite Nat.eqb_refl. cbn [andb]. unfold xh.
    rewrite Nat.ltb_irrefl, Nat.eqb_refl. lra. }
  rewrite <- Hq. apply (proj2 Hspd).
  exists n. split; [exact Hn|]. unfold xh.
  rewrite Nat.ltb_irrefl, Nat.eqb_refl. lra.
Qed.

End Pivot.

(** ** The left-looking factorisation of a positive definite matrix *)

Section LeftStep.

Variables (N : nat) (A : rmat) (n : nat) (L : fmat).
Hypothesis Hspd : SPD N A.
Hypothesis Hn : (n < N)%nat.
Hypothesis Hinv : factor_inv N A n L.

Lemma factor_pivot_positive : 0 < pivot A L n.
Proof.
  unfold pivot.
  apply (spd_pivot_positive N A (rval L) n Hspd Hn).
  - intros t Ht. apply (fi_diag _ _ _ _ Hinv t Ht).
  - intros i t Hit Ht. unfold rval.
    rewrite (fi_zero _ _ _ _ Hinv i t) by lia. reflexivity.
  - intros t i Ht Hti Hi. apply (fi_cols _ _ _ _ Hinv t i); lia.
Qed.

Lemma factor_dot (i k : nat) :
  fdot n (L i) (L k) = Fin (sumR n (fun u => val (L i u) * val (L k u))).
Proof. apply val_fdot; intros; apply (fi_finite _ _ _ _ Hinv). Qed.

Lemma chol_left_body_spec (i t : nat) :
  chol_left_body N (inj_mat A) n L i t =
  if (t =? n)%nat then
    if (i =? n)%nat then Fin (sqrt (pivot A L n))
    else if (n <? i)%nat && (i <? N)%nat then Fin (below_pivot A L n i)
         else L i t
  else L i t.
Proof.
  pose proof factor_pivot_positive as Hp.
  assert (Hroot : 0 < sqrt (pivot A L n)) by (apply sqrt_lt_R0; exact Hp).
  assert (Hdiag : fsqrt (fsub (inj_mat A n n) (fdot n (L n) (L n))) =
                  Fin (sqrt (pivot A L n))).
  { rewrite factor_dot. unfold inj_mat. autorewrite with fin.
    unfold pivot in *. apply fsqrt_fin. lra. }
  unfold chol_left_body. rewrite Hdiag.
  destruct (Nat.eqb_spec t n) as [->|Htn].
  - destruct (Nat.eqb_spec i n) as [->|Hin].
    + rewrite Nat.ltb_irrefl. cbn [andb]. reflexivity.
    + rewrite andb_true_r. cbn [andb].
      destruct ((n <? i)%nat && (i <? N)%nat) eqn:Hrange; [|reflexivity].
      rewrite Nat.eqb_refl. cbn [andb].
      rewrite (fdot_ext n _ (L i) _ (L n)).
      2:{ intros u Hu. cbv beta. destruct (Nat.eqb_spec u n); [lia|].
          rewrite ?andb_false_r. reflexivity. }
      2:{ intros u Hu. cbv beta. destruct (Nat.eqb_spec u n); [lia|].
          rewrite ?andb_false_r. reflexivity. }
      rewrite factor_dot. unfold inj_mat. autorewrite with fin.
      rewrite fdiv_fin by lra. reflexivity.
  - rewrite !andb_false_r. reflexivity.
Qed.

Lemma chol_left_body_inv :
  factor_inv N A (S n) (chol_left_body N (inj_mat A) n L).
Proof.
  pose proof factor_pivot_positive as Hp.
  assert (Hroot : 0 < sqrt (pivot A L n)) by (apply sqrt_lt_R0; exact Hp).
  assert (Hsqr : sqrt (pivot A L n) * sqrt (pivot A L n) = pivot A L n)
    by (apply sqrt_sqrt; lra).
  assert (Hold : forall i u, (u < n)%nat ->
            chol_left_body N (inj_mat A) n L i u = L i u).
  { intros i u Hu. rewrite chol_left_body_spec.
    destruct (Nat.eqb_spec u n); [lia | reflexivity]. }
  constructor.
  - intros i t. rewrite chol_left_body_spec.
    destruct (t =? n)%nat; [|apply (fi_finite _ _ _ _ Hinv)].
    destruct (i =? n)%nat; [reflexivity|].
    destruct ((n <? i)%nat && (i <? N)%nat);
      [reflexivity | apply (fi_finite _ _ _ _ Hinv)].
  - intros i t Hz. rewrite chol_left_body_spec.
    destruct (Nat.eqb_spec t n) as [->|Htn].
    + destruct (Nat.eqb_spec i n); [lia|].
      destruct (Nat.ltb_spec n i); destruct (Nat.ltb_spec i N); cbn [andb];
        try lia; apply (fi_zero _ _ _ _ Hinv); lia.
    + apply (fi_zero _ _ _ _ Hinv). lia.
  - intros t Ht. rewrite chol_left_body_spec.
    destruct (Nat.eqb_spec t n) as [->|Htn].
    + exact Hroot.
    + apply (fi_diag _ _ _ _ Hinv). lia.
  - intros t i Ht Hti Hi.
    destruct (Nat.eq_dec t n) as [->|Htn].
    + cbn [sumR].
      rewrite (sumR_ext n _ (fun u => val (L i u) * val (L n u))).
      2:{ intros u Hu. rewrite !Hold by exact Hu. reflexivity. }
      rewrite !chol_left_body_spec, !Nat.eqb_refl.
      destruct (Nat.eqb_spec i n) as [->|Hin].
      * cbn [val]. rewrite Hsqr. unfold pivot. lra.
      * destruct (Nat.ltb_spec n i); destruct (Nat.ltb_spec i N); cbn [andb];
          try lia.
        cbn [val]. unfold below_pivot. field_simplify; lra.
    + rewrite <- (fi_cols _ _ _ _ Hinv t i) by lia.
      apply sumR_ext. intros u Hu. rewrite !Hold by lia. reflexivity.
Qed.

End LeftStep.

Lemma factor_inv_init (N : nat) (A : rmat) : factor_inv N A 0 zeros_mat.
Proof.
  constructor; try reflexivity; intros; lia.
Qed.

Lemma chol_left_loop_inv (N : nat) (A : rmat) (n : nat) :
  SPD N A -> (n <= N)%nat ->
  factor_inv N A n (chol_left_loop N (inj_mat A) n).
Proof.
  intros Hspd. induction n as [|n IH]; intros Hn.
  - apply factor_inv_init.
  - unfold chol_left_loop. cbn [for_range].
    apply chol_left_body_inv; [exact Hspd | lia | apply IH; lia].
Qed.

(** What the invariant gives when all columns are done. *)
Lemma factor_inv_product (N : nat) (A : rmat) (L : fmat) :
  SPD N A -> factor_inv N A N L ->
  forall i k, (i < N)%nat -> (k < N)%nat -> mulT N (rval L) i k = A i k.
Proof.
  intros Hspd Hinv.
  assert (Hlow : forall i k, (k <= i)%nat -> (i < N)%nat ->
            mulT N (rval L) i k = A i k).
  { intros i k Hki Hi. rewrite <- (fi_cols _ _ _ _ Hinv k i) by lia.
    unfold mulT, rval. apply sumR_trunc; [lia|].
    intros u Hu HuN. rewrite (fi_zero _ _ _ _ Hinv k u) by lia.
    cbn [val]. lra. }
  intros i k Hi Hk. destruct (le_lt_dec k i) as [Hle|Hlt].
  - apply Hlow; assumption.
  - rewrite mulT_sym, (proj1 Hspd i k) by assumption. apply Hlow; lia.
Qed.

(** ** The supernodal factorisation on single columns *)

Lemma sumZ_repeat_one (n : nat) : sumZ (repeat 1%Z n) = Z.of_nat n.
Proof.
  induction n as [|n IH]; [reflexivity|].
  cbn [repeat sumZ fold_right]. fold (sumZ (repeat 1%Z n)). rewrite IH. lia.
Qed.

Lemma firstn_repeat_one (j n : nat) :
  (j <= n)%nat -> firstn j (repeat 1%Z n) = repeat 1%Z j.
Proof.
  revert n. induction j as [|j IH]; intros n Hj; [reflexivity|].
  destruct n as [|n]; [lia|]. cbn [repeat firstn]. rewrite IH by lia.
  reflexivity.
Qed.

Lemma cumsum_all_ones (N j : nat) :
  (j <= N)%nat -> cumsum_at (all_ones N) j = j.
Proof.
  intros Hj. unfold cumsum_at, all_ones.
  rewrite firstn_repeat_one by exact Hj. rewrite sumZ_repeat_one. lia.
Qed.

Lemma all_ones_positive (N : nat) :
  forallb (fun x => (0 <? x)%Z) (all_ones N) = true.
Proof.
  apply forallb_forall. intros x Hx. apply repeat_spec in Hx. subst x.
  reflexivity.
Qed.

Lemma la_cholesky_one (B : fmat) (p : R) :
  B 0%nat 0%nat = Fin p -> 0 < p ->
  exists U, la_cholesky 1 B = Ok U /\ U 0%nat 0%nat = Fin (sqrt p).
Proof.
  intros HB Hp. unfold la_cholesky.
  assert (Hfin : mat_finite 1 1 B = true).
  { apply mat_finite_true. intros i j Hi Hj.
    replace i with 0%nat by lia. replace j with 0%nat by lia.
    rewrite HB. reflexivity. }
  rewrite Hfin. cbn [for_range_e].
  assert (Hpiv : fsub (B 0%nat 0%nat)
                   (fdot 0 (fun t => zeros_mat t 0%nat)
                           (fun t => zeros_mat t 0%nat)) = Fin (p + - 0)).
  { rewrite HB. reflexivity. }
  rewrite (potrf_body_pos 1 B 0 zeros_mat _ Hpiv) by lra.
  eexists. split; [reflexivity|]. cbn [Nat.eqb andb].
  do 2 f_equal. lra.
Qed.

Section SuperStep.

Variables (N : nat) (A : rmat) (n : nat) (L : fmat).
Hypothesis Hspd : SPD N A.
Hypothesis Hn : (n < N)%nat.
Hypothesis Hinv : factor_inv N A n L.

Lemma chol_super_body_ones :
  chol_super_body N (inj_mat A) (all_ones N) n L =
  Ok (chol_left_body N (inj_mat A) n L).
Proof.
  pose proof (factor_pivot_positive N A n L Hspd Hn Hinv) as Hp.
  assert (Hroot : 0 < sqrt (pivot A L n)) by (apply sqrt_lt_R0; exact Hp).
  unfold chol_super_body.
  rewrite (cumsum_all_ones N n), (cumsum_all_ones N (S n)) by lia.
  replace (S n - n)%nat with 1%nat by lia.
  set (B := fun r c : nat => fsub _ _).
  assert (HB : B 0%nat 0%nat = Fin (pivot A L n)).
  { unfold B. rewrite Nat.add_0_r.
    rewrite (factor_dot N A n L Hinv). reflexivity. }
  destruct (la_cholesky_one B (pivot A L n) HB Hp) as (U & -> & HU).
  cbn [bind].
  unfold broadcast_div, broadcast_dim. cbn [fst snd].
  rewrite Nat.eqb_refl.
  set (m := (N - S n)%nat).
  assert (Hbidx : forall i, (S n <= i)%nat -> (i < N)%nat ->
            (S n + bidx m (bidx m (i - S n)))%nat = i).
  { intros i Hi HiN. unfold bidx.
    destruct (Nat.eqb_spec m 1) as [Hm|Hm]; unfold m in *; lia. }
  replace (if (m =? 1)%nat then Some m
           else if (m =? 1)%nat then Some 1%nat else Some m)
    with (Some m) by (destruct (m =? 1)%nat; reflexivity).
  cbn [bind]. unfold assignable. cbn [fst snd].
  rewrite !Nat.eqb_refl. cbn [orb andb].
  f_equal. extensionality i. extensionality t.
  rewrite (chol_left_body_spec N A n L Hspd Hn Hinv).
  destruct (Nat.eqb_spec t n) as [->|Htn].
  2:{ replace ((n <=? t)%nat && (t <? S n)%nat) with false
        by (symmetry; destruct (Nat.leb_spec n t);
            destruct (Nat.ltb_spec t (S n)); cbn [andb]; try reflexivity; lia).
      rewrite !andb_false_r. reflexivity. }
  replace ((n <=? n)%nat && (n <? S n)%nat) with true
    by (symmetry; rewrite Nat.leb_refl; apply Nat.ltb_lt; lia).
  rewrite !andb_true_r. rewrite Nat.sub_diag.
  destruct (Nat.eqb_spec i n) as [->|Hin].
  - replace ((S n <=? n)%nat && (n <? N)%nat) with false
      by (symmetry; destruct (Nat.leb_spec (S n) n); [lia | reflexivity]).
    rewrite Nat.leb_refl. replace (n <? S n)%nat with true
      by (symmetry; apply Nat.ltb_lt; lia).
    cbn [andb]. unfold transpose. rewrite Nat.sub_diag. exact HU.
  - destruct (Nat.ltb_spec n i) as [Hlt|Hge];
      destruct (Nat.ltb_spec i N) as [HiN|HiN]; cbn [andb].
    + replace (S n <=? i)%nat with true by (symmetry; apply Nat.leb_le; lia).
      cbn [andb]. unfold transpose.
      replace (bidx 1 0) with 0%nat by reflexivity.
      replace (bidx 1 (bidx m (i - S n))) with 0%nat by reflexivity.
      rewrite !Nat.add_0_r, (Hbidx i Hlt HiN).
      rewrite Nat.leb_refl. replace (n <? S n)%nat with true
        by (symmetry; apply Nat.ltb_lt; lia).
      cbn [andb]. rewrite Nat.sub_diag, HU.
      rewrite (fdot_ext n _ (L i) _ (L n)).
      2:{ intros u Hu. cbv beta.
          replace (n <=? u)%nat with false
            by (symmetry; apply Nat.leb_gt; exact Hu).
          rewrite ?andb_false_r. reflexivity. }
      2:{ intros u Hu. cbv beta.
          replace (n <=? u)%nat with false
            by (symmetry; apply Nat.leb_gt; exact Hu).
          rewrite ?andb_false_r. reflexivity. }
      rewrite (factor_dot N A n L Hinv). unfold inj_mat.
      autorewrite with fin. rewrite fdiv_fin by lra. reflexivity.
    + rewrite andb_false_r. cbn [andb].
      replace ((n <=? i)%nat && (i <? S n)%nat) with false
        by (symmetry; destruct (Nat.leb_spec n i);
            destruct (Nat.ltb_spec i (S n)); cbn [andb]; try reflexivity; lia).
      reflexivity.
    + replace (S n <=? i)%nat with false by (symmetry; apply Nat.leb_gt; lia).
      cbn [andb].
      replace ((n <=? i)%nat && (i <? S n)%nat) with false
        by (symmetry; destruct (Nat.leb_spec n i);
            destruct (Nat.ltb_spec i (S n)); cbn [andb]; try reflexivity; lia).
      reflexivity.
    + lia.
Qed.

End SuperStep.

Lemma chol_super_ones_loop (N : nat) (A : rmat) (n : nat) :
  SPD N A -> (n <= N)%nat ->
  for_range_e n (chol_super_body N (inj_mat A) (all_ones N)) zeros_mat =
  (chol_left_loop N (inj_mat A) n, None).
Proof.
  intros Hspd. induction n as [|n IH]; intros Hn; [reflexivity|].
  apply (for_range_e_next _ _ n (chol_left_loop N (inj_mat A) n)).
  - apply IH. lia.
  - unfold chol_left_loop at 2. cbn [for_range].
    apply chol_super_body_ones; [exact Hspd | lia |].
    apply chol_left_loop_inv; [exact Hspd | lia].
Qed.

(** C7, in exact arithmetic.  For a symmetric positive definite [A],
    [chol_super] with the partition into single columns returns the very
    factor [chol_left] returns. *)
Theorem chol_super_all_ones_is_chol_left (N : nat) (A : rmat) (lower : bool) :
  SPD N A ->
  chol_super N (inj_mat A) (all_ones N) lower =
  Ok (chol_left N (inj_mat A) lower).
Proof.
  intros Hspd. unfold chol_super.
  unfold all_ones at 1. rewrite sumZ_repeat_one, Z.eqb_refl. cbn [negb].
  rewrite all_ones_positive. cbn [negb].
  unfold all_ones at 1. rewrite repeat_length.
  rewrite (chol_super_ones_loop N A N Hspd (le_n _)).
  reflexivity.
Qed.

Lemma A_4225_spd : SPD 2 A_4225.
Proof.
  split.
  - intros i j Hi Hj.
    destruct i as [|[|i]]; destruct j as [|[|j]]; try lia; reflexivity.
  - intros x (i & Hi & Hx). unfold quad_form. cbn [sumR A_4225].
    assert (Hpos : forall r : R, r <> 0 -> 0 < r * r).
    { intros r Hr. destruct (Rtotal_order r 0) as [H|[H|H]]; nra. }
    assert (Hnn : forall r : R, 0 <= r * r) by (intros r; nra).
    pose proof (Hnn (x 0%nat + 2 * x 1%nat)) as Hsq.
    pose proof (Hnn (x 0%nat)) as H0. pose proof (Hnn (x 1%nat)) as H1.
    destruct i as [|[|i]]; try lia; pose proof (Hpos _ Hx); lra.
Qed.

Lemma chol_super_all_ones_is_chol_left_witness :
  chol_super 2 (inj_mat A_4225) (all_ones 2) true =
  Ok (chol_left 2 (inj_mat A_4225) true).
Proof.
  apply (chol_super_all_ones_is_chol_left 2 A_4225 true A_4225_spd).
Defined.

(** ** Where the unified entry point agrees with the two functions *)

Lemma updown_body_update (N k : nat) (st : update_state) :
  (k < N)%nat -> updown_body N true k st = update_body N k st.
Proof.
  intros Hk. destruct st as [[L w] β].
  unfold updown_body, update_body. rewrite !fmul_one_l.
  destruct (Nat.eqb_spec k (N - 1)) as [Hlast|Hlast].
  - f_equal. f_equal.
    + extensionality i. extensionality t. bool_cases; reflexivity.
    + extensionality i. bool_cases; reflexivity.
  - f_equal. f_equal.
    + extensionality i. extensionality t. bool_cases; reflexivity.
    + extensionality i. bool_cases; reflexivity.
Qed.

Lemma updown_loop_update (N n : nat) (L : fmat) (w : fvec) :
  (n <= N)%nat ->
  for_range n (updown_body N true) (L, w, Fin 1) = update_loop N n L w.
Proof.
  unfold update_loop. induction n as [|n IH]; intros Hn; [reflexivity|].
  cbn [for_range]. rewrite IH by lia. apply updown_body_update. lia.
Qed.

(** X1. In the update direction, and for every dimension but one,
    [chol_updown] is [chol_update]. *)
Lemma chol_updown_is_chol_update (N : nat) (L : fmat) (w : fvec) :
  N <> 1%nat -> chol_updown N L w true = chol_update N L w.
Proof.
  intros HN. unfold chol_updown, chol_update.
  destruct (Nat.eqb_spec N 1) as [|_]; [contradiction|].
  rewrite (updown_loop_update N N L w (le_n _)). reflexivity.
Qed.

Lemma fmul_minus_one_l (x : fval) : fmul (Fin (-1)) x = fneg x.
Proof.
  destruct x; cbn [fmul fneg]; unfold scale_inf;
    repeat match goal with
      | |- context [Rlt_dec ?a ?b] => destruct (Rlt_dec a b); try lra
      end; try reflexivity.
  f_equal. lra.
Qed.

Lemma fdiv_fneg_l (x y : fval) : fdiv (fneg x) y = fneg (fdiv x y).
Proof.
  destruct x as [a| | |]; destruct y as [b| | |]; cbn [fdiv fneg];
    unfold scale_inf;
    repeat match goal with
      | |- context [Req_dec_T ?a ?b] => destruct (Req_dec_T a b); try lra
      | |- context [Rlt_dec ?a ?b] => destruct (Rlt_dec a b); try lra
      end; cbn [fneg]; try reflexivity; f_equal; lra.
Qed.

Lemma fmul_fneg_l (x y : fval) : fmul (fneg x) y = fneg (fmul x y).
Proof.
  destruct x as [a| | |]; destruct y as [b| | |]; cbn [fmul fneg];
    unfold scale_inf;
    repeat match goal with
      | |- context [Rlt_dec ?a ?b] => destruct (Rlt_dec a b); try lra
      end; cbn [fneg]; try reflexivity; f_equal; lra.
Qed.

Lemma updown_body_downdate (N k : nat) (st st' : update_state) :
  (k < N)%nat -> downdate_body N k st = Ok st' ->
  updown_body N false k st = st'.
Proof.
  intros Hk. destruct st as [[L w] β].
  unfold updown_body, downdate_body.
  rewrite !fmul_minus_one_l, fdiv_fneg_l.
  destruct (fge _ _); [discriminate|].
  fold (fsub (fmul β β) (fmul (fdiv (w k) (L k k)) (fdiv (w k) (L k k)))).
  destruct (Nat.eqb_spec k (N - 1)) as [Hlast|Hlast];
    intros H; injection H as <-.
  - f_equal. f_equal.
    + extensionality i. extensionality t. bool_cases; reflexivity.
    + extensionality i. bool_cases; reflexivity.
  - f_equal. f_equal.
    + extensionality i. extensionality t. bool_cases; try reflexivity.
      rewrite fmul_fneg_l. reflexivity.
    + extensionality i. bool_cases; reflexivity.
Qed.

Lemma updown_loop_downdate (N n : nat) (L : fmat) (w : fvec)
    (st : update_state) :
  (n <= N)%nat -> downdate_loop N n L w = (st, None) ->
  for_range n (updown_body N false) (L, w, Fin 1) = st.
Proof.
  unfold downdate_loop. revert st.
  induction n as [|n IH]; intros st Hn Hrun.
  - simpl in Hrun. injection Hrun as <-. reflexivity.
  - cbn [for_range_e] in Hrun.
    destruct (for_range_e n (downdate_body N) (L, w, Fin 1))
      as [s' [e|]] eqn:Hpre; [discriminate|].
    destruct (downdate_body N n s') as [s''|e] eqn:Hbody; [|discriminate].
    injection Hrun as <-.
    cbn [for_range]. rewrite (IH s') by (try lia; reflexivity).
    apply updown_body_downdate; [lia | exact Hbody].
Qed.

(** X2. In the downdate direction, for every dimension but one, [chol_updown]
    returns what [chol_downdate] returns whenever the latter returns. *)
Lemma chol_updown_is_chol_downdate (N : nat) (L : fmat) (w : fvec)
    (r : fmat * fvec) :
  N <> 1%nat -> chol_downdate N L w = Ok r -> chol_updown N L w false = r.
Proof.
  intros HN Hrun. destruct r as [L' w'].
  destruct (chol_downdate_ok N L w L' w' Hrun) as [b Hloop].
  unfold chol_updown.
  destruct (Nat.eqb_spec N 1) as [|_]; [contradiction|].
  rewrite (updown_loop_downdate N N L w _ (le_n _) Hloop). reflexivity.
Qed.

(** X3. In exact arithmetic, the vector returned by [chol_update] solves [L x
    = w]: it is what forward substitution finds. *)
Lemma chol_update_solves (N : nat) (L : rmat) (w : rvec) :
  lower_triangular N L -> positive_diagonal N L ->
  forall i, (i < N)%nat ->
    snd (chol_update N (inj_mat L) (inj_vec w)) i =
      forward_subst N (inj_mat L) (inj_vec w) i /\
    sumR N (fun t => L i t * val (snd (chol_update N (inj_mat L) (inj_vec w)) t))
      = w i.
Proof.
  intros Hlow Hpos i Hi.
  pose proof (update_final_inv N (inj_mat L) (inj_vec w)
                (finite_inj_mat N L) (finite_inj_vec N w) Hlow Hpos) as Hinv.
  rewrite chol_update_unfold. cbn [snd].
  set (x := snd (fst (update_loop N N (inj_mat L) (inj_vec w)))) in *.
  pose proof (ui_solved _ _ _ _ _ _ Hinv) as Hsol.
  pose proof (ui_finite_w _ _ _ _ _ _ Hinv) as Hfw.
  fold x in Hsol, Hfw. cbn [inj_mat inj_vec val] in Hsol.
  split.
  - rewrite (finite_val (x i)) by (apply Hfw; exact Hi).
    symmetry.
    apply (forward_subst_unique N (inj_mat L) (inj_vec w)
             (fun t => val (x t))).
    + intros; reflexivity.
    + intros; reflexivity.
    + intros t Ht. apply Rgt_not_eq. apply (Hpos t Ht).
    + intros t Ht. apply (Hsol t Ht).
    + exact Hi.
  - rewrite <- (Hsol i Hi).
    rewrite (sumR_trunc N (S i)); [reflexivity | lia |].
    intros t Ht HtN. rewrite (Hlow i t) by lia. lra.
Qed.

(** ** The variants of the factorisation agree *)

(** [chol_left] returns the factor of a positive definite matrix. *)
Lemma chol_left_correct (N : nat) (A : rmat) :
  SPD N A ->
  let L := chol_left N (inj_mat A) true in
  (forall i t, is_finite (L i t) = true) /\
  lower_triangular N (rval L) /\ positive_diagonal N (rval L) /\
  forall i k, (i < N)%nat -> (k < N)%nat -> mulT N (rval L) i k = A i k.
Proof.
  intros Hspd L.
  pose proof (chol_left_loop_inv N A N Hspd (le_n _)) as Hinv.
  change (chol_left_loop N (inj_mat A) N) with L in Hinv.
  split; [apply (fi_finite _ _ _ _ Hinv)|].
  split.
  { intros i t Hit Ht. unfold rval.
    rewrite (fi_zero _ _ _ _ Hinv i t) by lia. reflexivity. }
  split; [intros j Hj; apply (fi_diag _ _ _ _ Hinv j Hj)|].
  apply (factor_inv_product N A L Hspd Hinv).
Qed.

Lemma chol_left_body_old (N : nat) (A : fmat) (n : nat) (L : fmat)
    (i u : nat) :
  u <> n -> chol_left_body N A n L i u = L i u.
Proof.
  intros Hu. unfold chol_left_body.
  destruct (Nat.eqb_spec u n); [contradiction|].
  rewrite !andb_false_r. reflexivity.
Qed.

Section RightStep.

Variables (N : nat) (A : rmat) (n : nat) (L : fmat) (Aw : fmat).
Hypothesis Hspd : SPD N A.
Hypothesis Hn : (n < N)%nat.
Hypothesis Hinv : factor_inv N A n L.
Hypothesis Hwork : forall i t,
  (n <= i)%nat -> (i < N)%nat -> (n <= t)%nat -> (t < N)%nat ->
  Aw i t = Fin (A i t - sumR n (fun u => val (L i u) * val (L t u))).

Lemma chol_right_body_factor :
  snd (chol_right_body N n (Aw, L)) = chol_left_body N (inj_mat A) n L.
Proof.
  pose proof (factor_pivot_positive N A n L Hspd Hn Hinv) as Hp.
  assert (Hroot : 0 < sqrt (pivot A L n)) by (apply sqrt_lt_R0; exact Hp).
  unfold chol_right_body. cbn [snd].
  extensionality i. extensionality t.
  rewrite (chol_left_body_spec N A n L Hspd Hn Hinv).
  assert (Hdiag : fsqrt (Aw n n) = Fin (sqrt (pivot A L n))).
  { rewrite Hwork by lia. fold (pivot A L n). apply fsqrt_fin. lra. }
  destruct (Nat.eqb_spec t n) as [->|Htn].
  - rewrite !andb_true_r, Nat.eqb_refl.
    destruct (Nat.eqb_spec i n) as [->|Hin].
    + rewrite Nat.ltb_irrefl. cbn [andb]. exact Hdiag.
    + destruct (Nat.ltb_spec n i); destruct (Nat.ltb_spec i N); cbn [andb];
        try reflexivity.
      rewrite Hdiag, Hwork by lia. rewrite fdiv_fin by lra. reflexivity.
  - rewrite !andb_false_r. reflexivity.
Qed.

Lemma chol_right_body_work (i t : nat) :
  (S n <= i)%nat -> (i < N)%nat -> (S n <= t)%nat -> (t < N)%nat ->
  fst (chol_right_body N n (Aw, L)) i t =
  Fin (A i t - sumR (S n) (fun u =>
         val (chol_left_body N (inj_mat A) n L i u) *
         val (chol_left_body N (inj_mat A) n L t u))).
Proof.
  intros Hi HiN Ht HtN.
  assert (Hcol : forall r, snd (chol_right_body N n (Aw, L)) r n =
                           chol_left_body N (inj_mat A) n L r n)
    by (intros r; rewrite chol_right_body_factor; reflexivity).
  unfold chol_right_body in Hcol |- *. cbn [fst snd] in Hcol |- *.
  replace ((n <? i)%nat && (i <? N)%nat && (n <? t)%nat && (t <? N)%nat)
    with true
    by (symmetry; rewrite !andb_true_iff; repeat split; apply Nat.ltb_lt; lia).
  rewrite !Hcol.
  rewrite (chol_left_body_spec N A n L Hspd Hn Hinv i n),
          (chol_left_body_spec N A n L Hspd Hn Hinv t n), Nat.eqb_refl.
  destruct (Nat.eqb_spec i n); [lia|]. destruct (Nat.eqb_spec t n); [lia|].
  replace ((n <? i)%nat && (i <? N)%nat) with true
    by (symmetry; rewrite andb_true_iff; split; apply Nat.ltb_lt; lia).
  replace ((n <? t)%nat && (t <? N)%nat) with true
    by (symmetry; rewrite andb_true_iff; split; apply Nat.ltb_lt; lia).
  rewrite Hwork by lia. autorewrite with fin. f_equal.
  cbn [sumR].
  rewrite (sumR_ext n (fun u => val (chol_left_body N (inj_mat A) n L i u) *
                                val (chol_left_body N (inj_mat A) n L t u))
             (fun u => val (L i u) * val (L t u))).
  2:{ intros u Hu. rewrite !chol_left_body_old by lia. reflexivity. }
  rewrite (chol_left_body_spec N A n L Hspd Hn Hinv i n),
          (chol_left_body_spec N A n L Hspd Hn Hinv t n), Nat.eqb_refl.
  destruct (Nat.eqb_spec i n); [lia|]. destruct (Nat.eqb_spec t n); [lia|].
  replace ((n <? i)%nat && (i <? N)%nat) with true
    by (symmetry; rewrite andb_true_iff; split; apply Nat.ltb_lt; lia).
  replace ((n <? t)%nat && (t <? N)%nat) with true
    by (symmetry; rewrite andb_true_iff; split; apply Nat.ltb_lt; lia).
  cbn [val]. lra.
Qed.

End RightStep.

Lemma chol_right_loop_inv (N : nat) (A : rmat) (n : nat) :
  SPD N A -> (n <= N)%nat ->
  snd (chol_right_loop N (inj_mat A) n) = chol_left_loop N (inj_mat A) n /\
  forall i t,
    (n <= i)%nat -> (i < N)%nat -> (n <= t)%nat -> (t < N)%nat ->
    fst (chol_right_loop N (inj_mat A) n) i t =
    Fin (A i t - sumR n (fun u =>
           val (chol_left_loop N (inj_mat A) n i u) *
           val (chol_left_loop N (inj_mat A) n t u))).
Proof.
  intros Hspd. induction n as [|n IH]; intros Hn.
  - split; [reflexivity|]. intros i t _ _ _ _.
    unfold chol_right_loop, inj_mat. cbn [for_range fst sumR].
    f_equal. lra.
  - destruct (IH ltac:(lia)) as [HL HA].
    pose proof (chol_left_loop_inv N A n Hspd ltac:(lia)) as Hinv.
    unfold chol_right_loop, chol_left_loop in *. cbn [for_range].
    destruct (for_range n (chol_right_body N) (inj_mat A, zeros_mat))
      as [Aw L] eqn:Est.
    cbn [fst snd] in HL, HA. subst L.
    split.
    + apply (chol_right_body_factor N A n _ Aw Hspd ltac:(lia) Hinv HA).
    + intros i t Hi HiN Ht HtN.
      apply (chol_right_body_work N A n _ Aw Hspd ltac:(lia) Hinv HA);
        assumption.
Qed.

Lemma chol_right_is_chol_left (N : nat) (A : rmat) (lower : bool) :
  SPD N A -> chol_right N (inj_mat A) lower = chol_left N (inj_mat A) lower.
Proof.
  intros Hspd. unfold chol_right, chol_left.
  rewrite (proj1 (chol_right_loop_inv N A N Hspd (le_n _))). reflexivity.
Qed.

Lemma fnonzero_false_val (x : fval) :
  is_finite x = true -> fnonzero x = false -> val x = 0.
Proof.
  destruct x as [a| | |]; cbn; intros Hf Hz; try discriminate.
  destruct (Req_dec_T a 0); [assumption | discriminate].
Qed.

(** The accumulation over the nonzeros of row [k]. *)
Lemma amp_accumulate (N k : nat) (L : fmat) (a1 : fvec) (m i : nat) :
  (forall r c, is_finite (L r c) = true) ->
  is_finite (a1 i) = true -> (k <= i)%nat -> (i < N)%nat ->
  for_range m
    (fun j (acc : fvec) =>
       if fnonzero (L k j)
       then fun i => if (k <=? i)%nat && (i <? N)%nat
                     then fsub (acc i) (fmul (L i j) (L k j)) else acc i
       else acc)
    a1 i =
  Fin (val (a1 i) - sumR m (fun j => val (L i j) * val (L k j))).
Proof.
  intros HfL Hfa Hki HiN. induction m as [|m IH].
  - cbn [for_range sumR]. rewrite (finite_val (a1 i) Hfa) at 1.
    f_equal. lra.
  - cbn [for_range sumR]. destruct (fnonzero (L k m)) eqn:Hnz.
    + replace ((k <=? i)%nat && (i <? N)%nat) with true
        by (symmetry; rewrite andb_true_iff; split;
            [apply Nat.leb_le | apply Nat.ltb_lt]; lia).
      rewrite IH, (finite_val (L i m)), (finite_val (L k m)) by apply HfL.
      autorewrite with fin. cbn [val]. f_equal. lra.
    + rewrite IH. f_equal.
      rewrite (fnonzero_false_val (L k m) (HfL k m) Hnz). lra.
Qed.

Section AmpStep.

Variables (N : nat) (A : rmat) (n : nat) (L : fmat) (a : fvec).
Hypothesis Hspd : SPD N A.
Hypothesis Hn : (n < N)%nat.
Hypothesis Hinv : factor_inv N A n L.

Lemma chol_left_amp_body_factor :
  fst (chol_left_amp_body N (inj_mat A) n (L, a)) =
  chol_left_body N (inj_mat A) n L.
Proof.
  pose proof (factor_pivot_positive N A n L Hspd Hn Hinv) as Hp.
  assert (Hroot : 0 < sqrt (pivot A L n)) by (apply sqrt_lt_R0; exact Hp).
  unfold chol_left_amp_body. cbn [fst].
  set (a1 := fun i : nat => if (n <=? i)%nat && (i <? N)%nat
                            then inj_mat A i n else a i).
  match goal with
  | |- context [for_range N ?f a1] => set (a2 := for_range N f a1)
  end.
  assert (Ha2 : forall i, (n <= i)%nat -> (i < N)%nat ->
            a2 i = Fin (A i n - sumR n (fun u => val (L i u) * val (L n u)))).
  { intros i Hi HiN.
    assert (Ha1 : a1 i = Fin (A i n)).
    { unfold a1.
      replace ((n <=? i)%nat && (i <? N)%nat) with true
        by (symmetry; rewrite andb_true_iff; split;
            [apply Nat.leb_le | apply Nat.ltb_lt]; lia).
      reflexivity. }
    unfold a2.
    rewrite (amp_accumulate N n L a1 N i (fi_finite _ _ _ _ Hinv))
      by (try lia; rewrite Ha1; reflexivity).
    rewrite Ha1. cbn [val]. f_equal. f_equal.
    apply sumR_trunc; [lia|].
    intros u Hu HuN. rewrite (fi_zero _ _ _ _ Hinv n u) by lia.
    cbn [val]. lra. }
  extensionality i. extensionality t.
  rewrite (chol_left_body_spec N A n L Hspd Hn Hinv).
  assert (Hdiag : fsqrt (a2 n) = Fin (sqrt (pivot A L n))).
  { rewrite Ha2 by lia. fold (pivot A L n). apply fsqrt_fin. lra. }
  destruct (Nat.eqb_spec t n) as [->|Htn].
  - rewrite !andb_true_r, Nat.eqb_refl.
    destruct (Nat.eqb_spec i n) as [->|Hin].
    + rewrite Nat.ltb_irrefl. cbn [andb]. exact Hdiag.
    + destruct (Nat.ltb_spec n i); destruct (Nat.ltb_spec i N); cbn [andb];
        try reflexivity.
      rewrite Hdiag, Ha2 by lia. rewrite fdiv_fin by lra. reflexivity.
  - rewrite !andb_false_r. reflexivity.
Qed.

End AmpStep.

Lemma chol_left_amp_loop_inv (N : nat) (A : rmat) (n : nat) :
  SPD N A -> (n <= N)%nat ->
  fst (for_range n (chol_left_amp_body N (inj_mat A)) (zeros_mat, zeros_vec)) =
  chol_left_loop N (inj_mat A) n.
Proof.
  intros Hspd. induction n as [|n IH]; intros Hn; [reflexivity|].
  pose proof (chol_left_loop_inv N A n Hspd ltac:(lia)) as Hinv.
  specialize (IH ltac:(lia)).
  unfold chol_left_loop in *. cbn [for_range].
  destruct (for_range n (chol_left_amp_body N (inj_mat A))
              (zeros_mat, zeros_vec)) as [L a].
  cbn [fst] in IH. subst L.
  apply (chol_left_amp_body_factor N A n _ a Hspd ltac:(lia) Hinv).
Qed.

Lemma chol_left_amp_is_chol_left (N : nat) (A : rmat) (lower : bool) :
  SPD N A ->
  chol_left_amp N (inj_mat A) lower = chol_left N (inj_mat A) lower.
Proof.
  intros Hspd. unfold chol_left_amp, chol_left.
  rewrite (chol_left_amp_loop_inv N A N Hspd (le_n _)). reflexivity.
Qed.

Lemma existsb_false_seq (f : nat -> bool) (n : nat) :
  (forall i, (i < n)%nat -> f i = false) -> existsb f (seq 0 n) = false.
Proof.
  intros H. destruct (existsb f (seq 0 n)) eqn:E; [|reflexivity].
  apply existsb_exists in E. destruct E as (i & Hin & Hfi).
  apply in_seq in Hin. rewrite H in Hfi by lia. discriminate.
Qed.

Lemma la_solve_ok (n : nat) (a : fmat) (b : fvec) :
  (forall i j, (i < n)%nat -> (j < n)%nat -> is_finite (a i j) = true) ->
  (forall i, (i < n)%nat -> is_finite (b i) = true) ->
  (forall i, (i < n)%nat -> val (a i i) <> 0) ->
  la_solve n a b = Ok (forward_subst n a b).
Proof.
  intros Ha Hb Hd. unfold la_solve.
  rewrite (proj2 (mat_finite_true n n a) Ha),
          (proj2 (vec_finite_true n b) Hb). cbn [andb negb].
  rewrite existsb_false_seq; [reflexivity|].
  intros i Hi. rewrite (finite_val (a i i)) by (apply Ha; exact Hi).
  rewrite (proj2 (fnonzero_fin _) (Hd i Hi)). reflexivity.
Qed.

Section UpStep.

Variables (N : nat) (A : rmat) (Lf : fmat) (k : nat).
Hypothesis Hspd : SPD N A.
Hypothesis Hk : (k < N)%nat.
Hypothesis Hinv : factor_inv N A N Lf.

Lemma up_row_solved (t : nat) :
  (t < k)%nat ->
  forward_subst k (leading_rows k Lf) (fun i => inj_mat A i k) t = Lf k t.
Proof.
  intros Ht.
  rewrite (finite_val (Lf k t)) by apply (fi_finite _ _ _ _ Hinv).
  apply (forward_subst_unique k (leading_rows k Lf) (fun i => inj_mat A i k)
           (fun u => val (Lf k u))); [| | | |exact Ht].
  - intros i u Hui Hi. unfold leading_rows.
    destruct (Nat.ltb_spec i k); [apply (fi_finite _ _ _ _ Hinv) | reflexivity].
  - intros i Hi. reflexivity.
  - intros i Hi. unfold leading_rows.
    destruct (Nat.ltb_spec i k); [|lia].
    apply Rgt_not_eq, (fi_diag _ _ _ _ Hinv i). lia.
  - intros i Hi. unfold inj_mat. cbn [val].
    rewrite (proj1 Hspd i k) by lia.
    rewrite <- (fi_cols _ _ _ _ Hinv i k) by lia.
    cbn [sumR]. unfold leading_rows.
    destruct (Nat.ltb_spec i k); [|lia].
    rewrite (sumR_ext i (fun u => val (Lf i u) * val (Lf k u))
               (fun u => val (Lf k u) * val (Lf i u)))
      by (intros; lra).
    lra.
Qed.

Lemma up_diagonal :
  sqrt (A k k - sumR k (fun u => val (Lf k u) * val (Lf k u))) =
  val (Lf k k).
Proof.
  pose proof (fi_cols _ _ _ _ Hinv k k Hk (le_n _) Hk) as Hcol.
  cbn [sumR] in Hcol.
  pose proof (fi_diag _ _ _ _ Hinv k Hk) as Hpos.
  replace (A k k - sumR k (fun u => val (Lf k u) * val (Lf k u)))
    with (val (Lf k k) * val (Lf k k)) by lra.
  apply sqrt_square. lra.
Qed.

Lemma chol_up_body_rows :
  chol_up_body (inj_mat A) k (leading_rows k Lf) =
  Ok (leading_rows (S k) Lf).
Proof.
  unfold chol_up_body.
  rewrite la_solve_ok.
  2:{ intros i j Hi Hj. unfold leading_rows.
      destruct (Nat.ltb_spec i k); [apply (fi_finite _ _ _ _ Hinv) | reflexivity]. }
  2:{ intros i Hi. reflexivity. }
  2:{ intros i Hi. unfold leading_rows.
      destruct (Nat.ltb_spec i k); [|lia].
      apply Rgt_not_eq, (fi_diag _ _ _ _ Hinv i). lia. }
  cbn [bind]. f_equal.
  extensionality i. extensionality t.
  assert (Hrow : forall u, (u < k)%nat ->
            (if (k =? k)%nat && (u <? k)%nat
             then forward_subst k (leading_rows k Lf)
                    (fun i0 => inj_mat A i0 k) u
             else leading_rows k Lf k u) = Lf k u).
  { intros u Hu. rewrite Nat.eqb_refl.
    destruct (Nat.ltb_spec u k); [|lia]. cbn [andb].
    apply up_row_solved. exact Hu. }
  change (leading_rows (S k) Lf i t)
    with (if (i <? S k)%nat then Lf i t else Fin 0).
  destruct (Nat.eqb_spec i k) as [->|Hik].
  - replace (k <? S k)%nat with true by (symmetry; apply Nat.ltb_lt; lia).
    destruct (Nat.eqb_spec t k) as [->|Htk]; cbn [andb].
    + rewrite (fdot_ext k _ (Lf k) _ (Lf k)) by (intros u Hu; apply Hrow; exact Hu).
      rewrite val_fdot by (intros; apply (fi_finite _ _ _ _ Hinv)).
      unfold inj_mat. autorewrite with fin.
      rewrite fsqrt_fin.
      * rewrite up_diagonal. symmetry. apply finite_val.
        apply (fi_finite _ _ _ _ Hinv).
      * pose proof (fi_cols _ _ _ _ Hinv k k Hk (le_n _) Hk) as Hcol.
        cbn [sumR] in Hcol. nra.
    + destruct (Nat.ltb_spec t k) as [Hlt|Hge].
      * apply up_row_solved. exact Hlt.
      * unfold leading_rows. rewrite Nat.ltb_irrefl.
        symmetry. apply (fi_zero _ _ _ _ Hinv). lia.
  - cbn [andb]. unfold leading_rows.
    destruct (Nat.ltb_spec i k); destruct (Nat.ltb_spec i (S k)); try lia;
      reflexivity.
Qed.

End UpStep.

Lemma chol_up_loop_rows (N : nat) (A : rmat) (n : nat) :
  SPD N A -> (n <= N)%nat ->
  chol_up_loop (inj_mat A) n =
  (leading_rows n (chol_left_loop N (inj_mat A) N), None).
Proof.
  intros Hspd. pose proof (chol_left_loop_inv N A N Hspd (le_n _)) as Hinv.
  induction n as [|n IH]; intros Hn.
  - unfold chol_up_loop. cbn [for_range_e]. f_equal.
  - unfold chol_up_loop.
    apply (for_range_e_next _ _ n
             (leading_rows n (chol_left_loop N (inj_mat A) N))).
    + apply IH. lia.
    + apply (chol_up_body_rows N A _ n Hspd ltac:(lia) Hinv).
Qed.

Lemma chol_up_is_chol_left (N : nat) (A : rmat) (lower : bool) :
  SPD N A ->
  chol_up N (inj_mat A) lower = Ok (chol_left N (inj_mat A) lower).
Proof.
  intros Hspd. pose proof (chol_left_loop_inv N A N Hspd (le_n _)) as Hinv.
  unfold chol_up. rewrite (chol_up_loop_rows N A N Hspd (le_n _)).
  cbn [completed bind]. unfold chol_left. do 2 f_equal.
  extensionality i. extensionality t. unfold leading_rows.
  destruct (Nat.ltb_spec i N); [reflexivity|].
  symmetry. apply (fi_zero _ _ _ _ Hinv). lia.
Qed.

(** What holds of C1: on a symmetric positive definite matrix [chol_left]
    returns a lower-triangular [L] with positive diagonal and
    [L L^T = A], and [chol_up], [chol_left_amp], [chol_right] and
    [chol_super] on single columns return the same [L]. *)
Lemma factorisations_agree (N : nat) (A : rmat) :
  SPD N A ->
  let L := chol_left N (inj_mat A) true in
  (lower_triangular N (rval L) /\ positive_diagonal N (rval L) /\
   forall i k, (i < N)%nat -> (k < N)%nat -> mulT N (rval L) i k = A i k) /\
  chol_up N (inj_mat A) true = Ok L /\
  chol_left_amp N (inj_mat A) true = L /\
  chol_right N (inj_mat A) true = L /\
  chol_super N (inj_mat A) (all_ones N) true = Ok L.
Proof.
  intros Hspd L.
  destruct (chol_left_correct N A Hspd) as (_ & Hlow & Hpos & Hprod).
  split; [split; [exact Hlow | split; [exact Hpos | exact Hprod]]|].
  split; [apply chol_up_is_chol_left; exact Hspd|].
  split; [apply chol_left_amp_is_chol_left; exact Hspd|].
  split; [apply chol_right_is_chol_left; exact Hspd|].
  unfold chol_super.
  unfold all_ones at 1. rewrite sumZ_repeat_one, Z.eqb_refl. cbn [negb].
  rewrite all_ones_positive. cbn [negb].
  unfold all_ones at 1. rewrite repeat_length.
  rewrite (chol_super_ones_loop N A N Hspd (le_n _)).
  reflexivity.
Qed.

(** ** The downdate of an updated factor never fails *)

Section RoundTrip.

Variables (N : nat) (Lin : fmat) (win : fvec).
Hypothesis Hfin_L : finite_mat N Lin.
Hypothesis Hfin_w : finite_vec N win.
Hypothesis Hlower : lower_triangular N (rval Lin).
Hypothesis Hdiag : positive_diagonal N (rval Lin).

Let Lu (n : nat) : fmat := fst (fst (update_loop N n Lin win)).
Let wu (n : nat) : fvec := snd (fst (update_loop N n Lin win)).
Let bu (n : nat) : R := val (snd (update_loop N n Lin win)).

Lemma update_loop_state (n : nat) :
  (n <= N)%nat -> update_loop N n Lin win = (Lu n, wu n, Fin (bu n)).
Proof.
  intros Hn.
  pose proof (update_loop_inv N Lin win Hfin_L Hfin_w Hlower Hdiag n Hn) as Hinv.
  unfold Lu, wu, bu.
  destruct (update_loop N n Lin win) as [[L w] b]. cbn [fst snd].
  rewrite <- (finite_val b (ui_finite_b _ _ _ _ _ _ Hinv)). reflexivity.
Qed.

Lemma update_loop_step (n : nat) :
  (n < N)%nat ->
  let a := val (wu n n) / val (Lin n n) in
  let b2 := sqrt (bu n * bu n + a * a) in
  0 < bu n /\ 0 < val (Lin n n) /\ bu (S n) = b2 /\
  (forall i t,
      Lu (S n) i t =
      if (t =? n)%nat && (n <=? i)%nat && (i <? N)%nat
      then Fin (bu n / b2 * val (Lin i n) + a / (b2 * bu n) * val (wu n i))
      else Lu n i t) /\
  (forall i, (n < i)%nat -> (i < N)%nat ->
      wu (S n) i = Fin (val (wu n i) - a * val (Lin i n))).
Proof.
  intros Hn a b2.
  pose proof (update_loop_inv N Lin win Hfin_L Hfin_w Hlower Hdiag n
                (Nat.lt_le_incl _ _ Hn)) as Hinv.
  pose proof (update_loop_state n (Nat.lt_le_incl _ _ Hn)) as Hst.
  rewrite Hst in Hinv.
  pose proof (ui_scale_pos _ _ _ _ _ _ Hinv) as Hb.
  pose proof (ui_todo _ _ _ _ _ _ Hinv) as Htodo.
  cbn [fst snd val] in Hb, Htodo.
  assert (Hl : 0 < val (Lin n n)) by apply (Hdiag n Hn).
  destruct (update_body_spec N n (Lu n) (wu n) (bu n) Hn
              (ui_finite_L _ _ _ _ _ _ Hinv) (ui_finite_w _ _ _ _ _ _ Hinv)
              Hb ltac:(rewrite (Htodo n n (le_n _)); lra))
    as (L' & w' & E & HL' & Hw').
  assert (Hnext : update_loop N (S n) Lin win = update_body N n (Lu n, wu n, Fin (bu n))).
  { unfold update_loop in *. cbn [for_range]. rewrite Hst. reflexivity. }
  rewrite E in Hnext.
  rewrite (Htodo n n (le_n _)) in Hnext, HL', Hw'.
  fold a in Hnext, HL', Hw'. fold b2 in Hnext, HL'.
  split; [exact Hb|]. split; [exact Hl|].
  split; [unfold bu; rewrite Hnext; reflexivity|].
  split.
  - intros i t. unfold Lu at 1. rewrite Hnext. cbn [fst]. rewrite HL'.
    destruct ((t =? n)%nat && (n <=? i)%nat && (i <? N)%nat); [|reflexivity].
    rewrite (Htodo i n (le_n _)). reflexivity.
  - intros i Hi HiN. unfold wu at 1. rewrite Hnext. cbn [fst snd]. rewrite Hw'.
    destruct (Nat.eqb_spec i n); [lia|].
    replace ((n <? i)%nat && (i <? N)%nat) with true
      by (symmetry; rewrite andb_true_iff; split; apply Nat.ltb_lt; lia).
    rewrite (Htodo i n (le_n _)). reflexivity.
Qed.

(** A column, once rotated, is not touched again. *)
Lemma update_column_final (n m : nat) (i t : nat) :
  (n <= m)%nat -> (m <= N)%nat -> (t < n)%nat -> Lu m i t = Lu n i t.
Proof.
  intros Hnm HmN Ht. induction m as [|m IH].
  - replace n with 0%nat by lia. reflexivity.
  - destruct (Nat.eq_dec n (S m)) as [->|Hne]; [reflexivity|].
    destruct (update_loop_step m ltac:(lia)) as (_ & _ & _ & HL & _).
    rewrite HL. destruct (Nat.eqb_spec t m); [lia|]. cbn [andb].
    apply IH; lia.
Qed.

Lemma roundtrip_lockstep (n : nat) :
  (n <= N)%nat ->
  exists Ld wd,
    downdate_loop N n (Lu N) win = (Ld, wd, Fin (1 / bu n), None) /\
    (forall i, (n <= i)%nat -> (i < N)%nat ->
       wd i = Fin (val (wu n i) / (bu n * bu n))).
Proof.
  pose proof (update_loop_inv N Lin win Hfin_L Hfin_w Hlower Hdiag N (le_n _))
    as HinvU.
  rewrite (update_loop_state N (le_n _)) in HinvU.
  pose proof (ui_finite_L _ _ _ _ _ _ HinvU) as HfL'.
  pose proof (rank_one_lower _ N Lin _ _ _ Hlower HinvU) as HlL'.
  pose proof (rank_one_positive _ _ _ _ _ HinvU) as HpL'.
  cbn [fst snd] in HfL', HlL', HpL'.
  induction n as [|n IH]; intros Hn.
  - exists (Lu N), win. split.
    + unfold downdate_loop. cbn [for_range_e]. unfold bu, update_loop.
      cbn [for_range snd val]. do 3 f_equal. field.
    + intros i _ HiN. unfold wu, bu, update_loop. cbn [for_range fst snd val].
      rewrite (finite_val (win i)) at 1 by (apply Hfin_w; exact HiN).
      f_equal. field.
  - destruct (IH ltac:(lia)) as (Ld & wd & Hpre & Hwd).
    destruct (update_loop_step n ltac:(lia)) as (Hb & Hl & Hb2 & HLu & Hwu).
    set (a := val (wu n n) / val (Lin n n)) in *.
    set (b := bu n) in *.
    set (b2 := sqrt (b * b + a * a)) in *.
    assert (Hb2pos : 0 < b2) by (unfold b2; apply sqrt_lt_R0; nra).
    assert (Hb2sq : b2 * b2 = b * b + a * a)
      by (unfold b2; apply sqrt_sqrt; nra).
    pose proof (downdate_loop_inv N (Lu N) win HfL' Hfin_w HlL' HpL' n
                  (Ld, wd, Fin (1 / b)) ltac:(lia) Hpre) as HinvD.
    pose proof (ui_todo _ _ _ _ _ _ HinvD) as HtodoD.
    cbn [fst snd] in HtodoD.
    (* column n of the updated factor *)
    assert (Hcol : forall i, (n <= i)%nat -> (i < N)%nat ->
              Ld i n = Fin (b / b2 * val (Lin i n)
                            + a / (b2 * b) * val (wu n i))).
    { intros i Hi HiN. rewrite (HtodoD i n (le_n _)).
      rewrite (update_column_final (S n) N i n) by lia.
      rewrite HLu, Nat.eqb_refl. cbn [andb].
      replace ((n <=? i)%nat && (i <? N)%nat) with true
        by (symmetry; rewrite andb_true_iff; split;
            [apply Nat.leb_le | apply Nat.ltb_lt]; lia).
      reflexivity. }
    assert (Hwn : val (wu n n) = a * val (Lin n n)) by (unfold a; field; lra).
    assert (Hdiag_n : val (Ld n n) = val (Lin n n) * b2 / b).
    { rewrite (Hcol n (le_n _) ltac:(lia)). cbn [val]. rewrite Hwn.
      replace (b / b2 * val (Lin n n) + a / (b2 * b) * (a * val (Lin n n)))
        with (val (Lin n n) * (b * b + a * a) / (b2 * b)) by (field; lra).
      rewrite <- Hb2sq. field. lra. }
    assert (Hα : val (wd n) / val (Ld n n) = a / (b * b2)).
    { rewrite (Hwd n (le_n _) ltac:(lia)), Hdiag_n. cbn [val]. rewrite Hwn.
      field. repeat split; lra. }
    assert (Hok : val (wd n) / val (Ld n n) * (val (wd n) / val (Ld n n))
                  < 1 / b * (1 / b)).
    { rewrite Hα.
      replace (a / (b * b2) * (a / (b * b2)))
        with (a * a / (b2 * b2) * (1 / b * (1 / b))) by (field; lra).
      assert (Hfrac : a * a / (b2 * b2) < 1).
      { apply (Rmult_lt_reg_r (b2 * b2)); [nra|].
        replace (a * a / (b2 * b2) * (b2 * b2)) with (a * a) by (field; lra).
        nra. }
      assert (0 < 1 / b * (1 / b)).
      { apply Rmult_lt_0_compat; apply Rdiv_lt_0_compat; lra. }
      nra. }
    destruct (downdate_body_spec N n Ld wd (1 / b) ltac:(lia)
                (ui_finite_L _ _ _ _ _ _ HinvD)
                (ui_finite_w _ _ _ _ _ _ HinvD)
                ltac:(apply Rdiv_lt_0_compat; lra)
                ltac:(rewrite Hdiag_n; apply Rgt_not_eq;
                      apply Rdiv_lt_0_compat; [nra | lra]) Hok)
      as (Ld' & wd' & E & _ & Hwd').
    assert (Hscale : sqrt (1 / b * (1 / b) -
                           val (wd n) / val (Ld n n) *
                           (val (wd n) / val (Ld n n))) = 1 / bu (S n)).
    { rewrite Hb2, Hα. fold b b2.
      replace (1 / b * (1 / b) - a / (b * b2) * (a / (b * b2)))
        with (1 / b2 * (1 / b2)).
      - apply sqrt_square. apply Rlt_le, Rdiv_lt_0_compat; lra.
      - replace (1 / b * (1 / b) - a / (b * b2) * (a / (b * b2)))
          with ((b2 * b2 - a * a) / (b * b * (b2 * b2))) by (field; lra).
        replace (b2 * b2 - a * a) with (b * b) by lra. field. lra. }
    rewrite Hscale in E.
    exists Ld', wd'. split.
    + apply (downdate_loop_next N n _ _ (Ld, wd, Fin (1 / b)) _ Hpre E).
    + intros i Hi HiN. rewrite Hwd'.
      destruct (Nat.eqb_spec i n); [lia|].
      replace ((n <? i)%nat && (i <? N)%nat) with true
        by (symmetry; rewrite andb_true_iff; split; apply Nat.ltb_lt; lia).
      rewrite Hα, (Hwd i ltac:(lia) HiN), (Hcol i ltac:(lia) HiN).
      rewrite (Hwu i ltac:(lia) HiN), Hb2. fold a b b2. cbn [val].
      f_equal.
      replace (val (wu n i) / (b * b) -
               a / (b * b2) *
               (b / b2 * val (Lin i n) + a / (b2 * b) * val (wu n i)))
        with ((val (wu n i) * (b2 * b2 - a * a) / (b * b)
               - a * val (Lin i n)) / (b2 * b2)) by (field; lra).
      replace (b2 * b2 - a * a) with (b * b) by lra. field. lra.
Qed.

Lemma downdate_after_update_returns :
  exists L'' w'',
    chol_downdate N (fst (chol_update N Lin win)) win = Ok (L'', w'').
Proof.
  destruct (roundtrip_lockstep N (le_n _)) as (Ld & wd & Hrun & _).
  exists Ld, wd. rewrite chol_update_unfold. cbn [fst]. fold (Lu N).
  unfold chol_downdate. rewrite Hrun. reflexivity.
Qed.

End RoundTrip.

Lemma downdate_after_update_roundtrip_witness :
  exists L' w' L'' w'',
    chol_update 3 (inj_mat L_diag234) (inj_vec w_001) = (L', w') /\
    chol_downdate 3 L' (inj_vec w_001) = Ok (L'', w'') /\
    forall i j, (i < 3)%nat -> (j < 3)%nat -> L'' i j = Fin (L_diag234 i j).
Proof.
  destruct (downdate_after_update_returns 3 (inj_mat L_diag234)
              (inj_vec w_001) (finite_inj_mat 3 L_diag234)
              (finite_inj_vec 3 w_001) L_diag234_lower L_diag234_positive)
    as (L'' & w'' & Hrun).
  destruct (chol_update 3 (inj_mat L_diag234) (inj_vec w_001))
    as [L' w'] eqn:Hup.
  cbn [fst] in Hrun.
  exists L', w', L'', w''. split; [reflexivity|]. split; [exact Hrun|].
  exact (downdate_after_update_roundtrip 3 L_diag234 w_001
           L_diag234_lower L_diag234_positive L' w' L'' w'' Hup Hrun).
Defined.

(** ** Where the numbers matter *)

(** C10, in exact arithmetic.  On a lower-triangular [L] with positive
    diagonal [chol_update] returns finite arrays (it has no failing path)
    and the new factor has a positive diagonal again: the diagonal entry
    it returns in column [j] is [δ L[j,j] + γ w[j]], for the working
    vector [w] and the scale [β] the loop holds when it reaches column
    [j], with [δ > 0] and [γ w[j] = w[j]² / (L[j,j] β' β) >= 0]. *)
Theorem chol_update_positive_diagonal (N : nat) (L : rmat) (w : rvec) :
  lower_triangular N L -> positive_diagonal N L ->
  (exists L' w',
      chol_update N (inj_mat L) (inj_vec w) = (L', w') /\
      finite_mat N L' /\ finite_vec N w' /\
      lower_triangular N (rval L') /\ positive_diagonal N (rval L')) /\
  (forall j, (j < N)%nat ->
      exists Lj wj β,
        update_loop N j (inj_mat L) (inj_vec w) = (Lj, wj, Fin β) /\
        0 < β /\ Lj j j = Fin (L j j) /\
        let α := val (wj j) / L j j in
        let β' := sqrt (β * β + α * α) in
        let γ := α / (β' * β) in
        let δ := β / β' in
        fst (chol_update N (inj_mat L) (inj_vec w)) j j
          = Fin (δ * L j j + γ * val (wj j)) /\
        0 < δ /\
        γ * val (wj j) = val (wj j) * val (wj j) / (L j j * β' * β) /\
        0 <= γ * val (wj j)).
Proof.
  intros Hlow Hpos. split.
  - pose proof (update_final_inv N (inj_mat L) (inj_vec w)
                  (finite_inj_mat N L) (finite_inj_vec N w) Hlow Hpos) as Hinv.
    rewrite chol_update_unfold.
    eexists; eexists; split; [reflexivity|].
    split; [apply (ui_finite_L _ _ _ _ _ _ Hinv)|].
    split; [apply (ui_finite_w _ _ _ _ _ _ Hinv)|].
    split; [apply (rank_one_lower _ N (inj_mat L) _ _ _ Hlow Hinv)|].
    apply (rank_one_positive _ _ _ _ _ Hinv).
  - intros j Hj.
    pose proof (update_loop_state N (inj_mat L) (inj_vec w)
                  (finite_inj_mat N L) (finite_inj_vec N w) Hlow Hpos
                  j (Nat.lt_le_incl _ _ Hj)) as Hst.
    destruct (update_loop_step N (inj_mat L) (inj_vec w)
                (finite_inj_mat N L) (finite_inj_vec N w) Hlow Hpos j Hj)
      as (Hb & Hl & _ & HLu & _).
    pose proof (update_column_final N (inj_mat L) (inj_vec w)
                  (finite_inj_mat N L) (finite_inj_vec N w) Hlow Hpos
                  (S j) N j j Hj (le_n _)
                  (Nat.lt_succ_diag_r j)) as Hfinal.
    pose proof (update_loop_inv N (inj_mat L) (inj_vec w)
                  (finite_inj_mat N L) (finite_inj_vec N w) Hlow Hpos
                  j (Nat.lt_le_incl _ _ Hj)) as Hinv.
    pose proof (ui_todo _ _ _ _ _ _ Hinv j j (le_n _)) as Htodo.
    set (Lj := fst (fst (update_loop N j (inj_mat L) (inj_vec w)))) in *.
    set (wj := snd (fst (update_loop N j (inj_mat L) (inj_vec w)))) in *.
    set (b := val (snd (update_loop N j (inj_mat L) (inj_vec w)))) in *.
    cbn [inj_mat val] in Hl, HLu.
    exists Lj, wj, b. split; [exact Hst|]. split; [exact Hb|].
    split; [exact Htodo|].
    intros α β' γ δ.
    assert (Hb' : 0 < β') by (unfold β'; apply sqrt_lt_R0; nra).
    split.
    { rewrite chol_update_unfold. cbn [fst]. rewrite Hfinal, HLu.
      rewrite Nat.eqb_refl, Nat.leb_refl.
      replace (j <? N)%nat with true by (symmetry; apply Nat.ltb_lt; exact Hj).
      cbn [andb]. reflexivity. }
    split; [apply Rdiv_lt_0_compat; lra|].
    assert (Eγ : γ * val (wj j) =
                 val (wj j) * val (wj j) / (L j j * β' * b)).
    { unfold γ, α. field. repeat split; lra. }
    split; [exact Eγ|]. rewrite Eγ.
    apply Rmult_le_pos; [nra|].
    apply Rlt_le, Rinv_0_lt_compat.
    apply Rmult_lt_0_compat; [apply Rmult_lt_0_compat|]; lra.
Qed.

Lemma chol_update_positive_diagonal_witness :
  (exists L' w',
      chol_update 3 (inj_mat L_diag234) (inj_vec w_001) = (L', w') /\
      finite_mat 3 L' /\ finite_vec 3 w' /\
      lower_triangular 3 (rval L') /\ positive_diagonal 3 (rval L')) /\
  (forall j, (j < 3)%nat ->
      exists Lj wj β,
        update_loop 3 j (inj_mat L_diag234) (inj_vec w_001)
          = (Lj, wj, Fin β) /\
        0 < β /\ Lj j j = Fin (L_diag234 j j) /\
        let α := val (wj j) / L_diag234 j j in
        let β' := sqrt (β * β + α * α) in
        let γ := α / (β' * β) in
        let δ := β / β' in
        fst (chol_update 3 (inj_mat L_diag234) (inj_vec w_001)) j j
          = Fin (δ * L_diag234 j j + γ * val (wj j)) /\
        0 < δ /\
        γ * val (wj j)
          = val (wj j) * val (wj j) / (L_diag234 j j * β' * β) /\
        0 <= γ * val (wj j)).
Proof.
  exact (chol_update_positive_diagonal 3 L_diag234 w_001
           L_diag234_lower L_diag234_positive).
Defined.

Lemma powerRZ_two_neg (p : positive) :
  powerRZ 2 (Z.neg p) = / IZR (2 ^ Z.pos p).
Proof.
  cbn [powerRZ]. rewrite pow_IZR, positive_nat_Z. reflexivity.
Qed.

Lemma binary64_val_one : Binary64.val Binary64.one = 1.
Proof.
  unfold Binary64.val.
  replace (FloatOps.Prim2SF Binary64.one)
    with (SpecFloat.S754_finite false 4503599627370496 (-52))
    by (vm_compute; reflexivity).
  rewrite powerRZ_two_neg.
  replace (2 ^ 52)%Z with 4503599627370496%Z by reflexivity.
  field.
Qed.

Lemma binary64_val_three : Binary64.val Binary64.three = 3.
Proof.
  unfold Binary64.val.
  replace (FloatOps.Prim2SF Binary64.three)
    with (SpecFloat.S754_finite false 6755399441055744 (-51))
    by (vm_compute; reflexivity).
  rewrite powerRZ_two_neg.
  replace (2 ^ 51)%Z with 2251799813685248%Z by reflexivity.
  field.
Qed.

Lemma binary64_val_third_up :
  Binary64.val Binary64.third_up = 6004799503160662 / 18014398509481984.
Proof.
  unfold Binary64.val.
  replace (FloatOps.Prim2SF Binary64.third_up)
    with (SpecFloat.S754_finite false 6004799503160662 (-54))
    by (vm_compute; reflexivity).
  rewrite powerRZ_two_neg.
  replace (2 ^ 54)%Z with 18014398509481984%Z by reflexivity.
  field.
Qed.

Lemma binary64_val_zero : Binary64.val Binary64.zero = 0.
Proof.
  unfold Binary64.val.
  replace (FloatOps.Prim2SF Binary64.zero) with (SpecFloat.S754_zero false)
    by (vm_compute; reflexivity).
  reflexivity.
Qed.

Lemma A_thin_spd : SPD 2 A_thin.
Proof.
  split.
  - intros i j Hi Hj.
    destruct i as [|[|i]]; destruct j as [|[|j]]; try lia; reflexivity.
  - intros x (i & Hi & Hx). unfold quad_form. cbn [sumR A_thin].
    set (c := 6004799503160662 / 18014398509481984).
    assert (Hc : 0 < c - 1 / 3) by (unfold c; lra).
    assert (E : 0 + (0 + x 0%nat * 3 * x 0%nat + x 0%nat * 1 * x 1%nat) +
                (0 + x 1%nat * 1 * x 0%nat + x 1%nat * c * x 1%nat)
                = 3 * ((x 0%nat + x 1%nat / 3) * (x 0%nat + x 1%nat / 3))
                  + (c - 1 / 3) * (x 1%nat * x 1%nat)) by field.
    rewrite E. clear E.
    assert (Hnn : forall r : R, 0 <= r * r) by (intros r; nra).
    assert (Hsq : forall r : R, r <> 0 -> 0 < r * r).
    { intros r Hr. destruct (Rtotal_order r 0) as [H|[H|H]]; nra. }
    pose proof (Hnn (x 0%nat + x 1%nat / 3)) as H0.
    pose proof (Hnn (x 1%nat)) as H1.
    destruct (Req_dec (x 1%nat) 0) as [Hz|Hnz].
    + assert (Hx0 : x 0%nat <> 0).
      { destruct i as [|[|i]]; try lia; [exact Hx | contradiction]. }
      rewrite Hz.
      replace (x 0%nat + 0 / 3) with (x 0%nat) by field.
      pose proof (Hsq _ Hx0). lra.
    + pose proof (Hsq _ Hnz) as Hp.
      assert (0 < (c - 1 / 3) * (x 1%nat * x 1%nat))
        by (apply Rmult_lt_0_compat; assumption).
      lra.
Qed.

(** C7 as stated fails on the machine's numbers.  [[3, 1], [1,
    0.33333333333333337]] is symmetric positive definite, yet the pivot
    of its second column rounds to [-2^-54]: [chol_left] returns a factor
    with [nan] in [L[1,1]], and [chol_super] with the all-ones partition
    returns none, [la.cholesky] raising on the block. *)
Theorem chol_super_all_ones_binary64_differs :
  SPD 2 A_thin /\
  (forall i j, (i < 2)%nat -> (j < 2)%nat ->
     Binary64.val (Binary64.A_thin i j) = A_thin i j) /\
  Binary64.is_nan (Binary64.chol_left 2 Binary64.A_thin true 1%nat 1%nat)
    = true /\
  Binary64.chol_super 2 Binary64.A_thin (all_ones 2) true
    = Raise NotPositiveDefiniteBlock.
Proof.
  split; [exact A_thin_spd|]. split.
  - intros i j Hi Hj.
    destruct i as [|[|i]]; destruct j as [|[|j]]; try lia;
      cbn [Binary64.A_thin A_thin].
    + exact binary64_val_three.
    + exact binary64_val_one.
    + exact binary64_val_one.
    + exact binary64_val_third_up.
  - split; vm_compute; reflexivity.
Qed.

(** C10 as stated fails on the machine's numbers.  For [L = [[1.]]] and
    [w = [2.0 ** 600]] the square of [α] overflows, [γ] and [δ] are zero,
    and [chol_update] returns [L[0,0] = 0.0]: not a positive number. *)
Theorem chol_update_binary64_zero_diagonal :
  Binary64.val (Binary64.L_one 0%nat 0%nat) = 1 /\
  Binary64.is_finite (Binary64.w_huge 0%nat) = true /\
  fst (Binary64.chol_update 1 Binary64.L_one Binary64.w_huge) 0%nat 0%nat
    = Binary64.zero /\
  Binary64.fpositive
    (fst (Binary64.chol_update 1 Binary64.L_one Binary64.w_huge) 0%nat 0%nat)
    = false.
Proof.
  split; [exact binary64_val_one|].
  split; [vm_compute; reflexivity|].
  split; vm_compute; reflexivity.
Qed.

(** C8, on 64-bit integers.  [chol_super] rejects a partition with a
    non-positive entry, or whose entries do not sum to [N] in the
    arithmetic of [np.sum], with the assertion's error, whatever the
    matrix holds: nothing is computed and no factor is returned.  So it
    does for [s = (2, 1)] on a four by four matrix. *)
Theorem chol_super_rejects_invalid_partition
    (N : nat) (A : Binary64.fmat) (s : list Z) (lower : bool) :
  Binary64.np_sum s <> Z.of_nat N \/ (exists x, In x s /\ (x <= 0)%Z) ->
  Binary64.chol_super N A s lower = Raise InvalidPartition.
Proof.
  intros Hbad. unfold Binary64.chol_super.
  destruct (Z.eqb_spec (Binary64.np_sum s) (Z.of_nat N)) as [Hsum|Hsum];
    cbn [negb]; [|reflexivity].
  destruct Hbad as [Hne|Hneg]; [contradiction|].
  rewrite (forallb_positive_false s Hneg). reflexivity.
Qed.

Lemma chol_super_rejects_invalid_partition_witness :
  Binary64.chol_super 4 Binary64.zeros_mat [2%Z; 1%Z] true
    = Raise InvalidPartition.
Proof.
  apply (chol_super_rejects_invalid_partition 4 Binary64.zeros_mat
           [2%Z; 1%Z] true).
  left. vm_compute. discriminate.
Defined.

(** C8 as stated fails where the sum wraps around.  The entries of
    [s = (2^62, 2^62, 2^62, 2^62, 1)] are positive and sum to [2^64 + 1],
    not to the dimension [1] of [[1.]]; [np.sum] gives [1], both
    assertions pass, the first block is factored, and the error raised is
    the one of the second block's assignment, not the assertion's. *)
Theorem chol_super_wrapped_sum_not_rejected :
  sumZ s_wrapped <> Z.of_nat 1 /\
  Binary64.np_sum s_wrapped = Z.of_nat 1 /\
  forallb (fun x => (0 <? x)%Z) s_wrapped = true /\
  snd (for_range_e 1 (Binary64.chol_super_body 1 Binary64.L_one s_wrapped)
         Binary64.zeros_mat) = None /\
  fst (for_range_e 1 (Binary64.chol_super_body 1 Binary64.L_one s_wrapped)
         Binary64.zeros_mat) 0%nat 0%nat = Binary64.one /\
  Binary64.chol_super 1 Binary64.L_one s_wrapped true = Raise BroadcastError.
Proof.
  split; [vm_compute; discriminate|].
  repeat split; vm_compute; reflexivity.
Qed.

(* ================================================================== *)
(** * Part III. Further properties of the code *)
(* ================================================================== *)

(** ** The vector returned next to the factor *)

Lemma chol_update_solves_witness :
  snd (chol_update 3 (inj_mat L_diag234) (inj_vec w_001)) 2%nat =
    forward_subst 3 (inj_mat L_diag234) (inj_vec w_001) 2%nat /\
  sumR 3 (fun t => L_diag234 2%nat t *
                   val (snd (chol_update 3 (inj_mat L_diag234)
                               (inj_vec w_001)) t))
    = w_001 2%nat.
Proof.
  apply (chol_update_solves 3 L_diag234 w_001
           L_diag234_lower L_diag234_positive 2%nat).
  lia.
Defined.

(** X4. In exact arithmetic, the vector returned by [chol_downdate], when it
    returns, solves [L x = w] for the factor and the vector it was given: it
    is what forward substitution finds. *)
Theorem chol_downdate_solves (N : nat) (L : rmat) (w : rvec) :
  lower_triangular N L -> positive_diagonal N L ->
  forall L' w', chol_downdate N (inj_mat L) (inj_vec w) = Ok (L', w') ->
  forall i, (i < N)%nat ->
    w' i = forward_subst N (inj_mat L) (inj_vec w) i /\
    sumR N (fun t => L i t * val (w' t)) = w i.
Proof.
  intros Hlow Hpos L' w' Hrun i Hi.
  destruct (chol_downdate_ok N _ _ _ _ Hrun) as [b Hloop].
  pose proof (downdate_loop_inv N (inj_mat L) (inj_vec w)
                (finite_inj_mat N L) (finite_inj_vec N w) Hlow Hpos
                N (L', w', b) (le_n _) Hloop) as Hinv.
  pose proof (ui_solved _ _ _ _ _ _ Hinv) as Hsol.
  pose proof (ui_finite_w _ _ _ _ _ _ Hinv) as Hfw.
  cbn [fst snd inj_mat inj_vec val] in Hsol, Hfw.
  split.
  - rewrite (finite_val (w' i)) by (apply Hfw; exact Hi).
    symmetry.
    apply (forward_subst_unique N (inj_mat L) (inj_vec w)
             (fun t => val (w' t))).
    + intros; reflexivity.
    + intros; reflexivity.
    + intros t Ht. apply Rgt_not_eq. apply (Hpos t Ht).
    + intros t Ht. apply (Hsol t Ht).
    + exact Hi.
  - rewrite <- (Hsol i Hi).
    rewrite (sumR_trunc N (S i)); [reflexivity | lia |].
    intros t Ht HtN. rewrite (Hlow i t) by lia. lra.
Qed.

Lemma chol_downdate_solves_witness :
  exists L' w',
    chol_downdate 1 (inj_mat L_two) (inj_vec w_one) = Ok (L', w') /\
    w' 0%nat = forward_subst 1 (inj_mat L_two) (inj_vec w_one) 0%nat /\
    sumR 1 (fun t => L_two 0%nat t * val (w' t)) = w_one 0%nat.
Proof.
  destruct downdate_two_one as (L' & w' & b & Hloop).
  assert (Hrun : chol_downdate 1 (inj_mat L_two) (inj_vec w_one) = Ok (L', w')).
  { unfold chol_downdate. rewrite Hloop. reflexivity. }
  exists L', w'. split; [exact Hrun|].
  apply (chol_downdate_solves 1 L_two w_one L_two_lower L_two_positive
           L' w' Hrun 0%nat).
  lia.
Defined.

(** ** The factorisations on a positive definite matrix *)

Lemma oriented_factor (N : nat) (A : rmat) (L : fmat) (lower : bool) :
  (forall i t, is_finite (L i t) = true) ->
  lower_triangular N (rval L) -> positive_diagonal N (rval L) ->
  (forall i k, (i < N)%nat -> (k < N)%nat -> mulT N (rval L) i k = A i k) ->
  cholesky_factor N A lower (oriented lower L).
Proof.
  intros Hfin Hlow Hpos Hprod. unfold cholesky_factor.
  destruct lower; cbn [oriented].
  - split; [intros i j _ _; apply Hfin|]. split; [exact Hpos|].
    split; assumption.
  - split; [intros i j _ _; apply Hfin|]. split; [exact Hpos|].
    split.
    + intros i j Hji Hi. unfold rval, transpose. apply (Hlow j i Hji Hi).
    + intros i k Hi Hk. rewrite <- (Hprod i k Hi Hk). reflexivity.
Qed.

(** X5. In exact arithmetic, [chol_left] on a symmetric positive definite
    matrix returns its Cholesky factor, in either orientation. *)
Theorem chol_left_factorises (N : nat) (A : rmat) (lower : bool) :
  SPD N A -> cholesky_factor N A lower (chol_left N (inj_mat A) lower).
Proof.
  intros Hspd.
  destruct (chol_left_correct N A Hspd) as (Hfin & Hlow & Hpos & Hprod).
  apply (oriented_factor N A _ lower Hfin Hlow Hpos Hprod).
Qed.

Lemma chol_left_factorises_witness :
  cholesky_factor 2 A_4225 false (chol_left 2 (inj_mat A_4225) false).
Proof. apply (chol_left_factorises 2 A_4225 false A_4225_spd). Defined.

(** X6. In exact arithmetic, [chol_left_amp] on a symmetric positive definite
    matrix returns its Cholesky factor, in either orientation: skipping the
    zero entries of row [k] loses nothing. *)
Theorem chol_left_amp_factorises (N : nat) (A : rmat) (lower : bool) :
  SPD N A -> cholesky_factor N A lower (chol_left_amp N (inj_mat A) lower).
Proof.
  intros Hspd. rewrite (chol_left_amp_is_chol_left N A lower Hspd).
  destruct (chol_left_correct N A Hspd) as (Hfin & Hlow & Hpos & Hprod).
  apply (oriented_factor N A _ lower Hfin Hlow Hpos Hprod).
Qed.

Lemma chol_left_amp_factorises_witness :
  cholesky_factor 2 A_4225 false (chol_left_amp 2 (inj_mat A_4225) false).
Proof. apply (chol_left_amp_factorises 2 A_4225 false A_4225_spd). Defined.

(** X7. In exact arithmetic, [chol_right] on a symmetric positive definite
    matrix returns its Cholesky factor, in either orientation. *)
Theorem chol_right_factorises (N : nat) (A : rmat) (lower : bool) :
  SPD N A -> cholesky_factor N A lower (chol_right N (inj_mat A) lower).
Proof.
  intros Hspd. rewrite (chol_right_is_chol_left N A lower Hspd).
  destruct (chol_left_correct N A Hspd) as (Hfin & Hlow & Hpos & Hprod).
  apply (oriented_factor N A _ lower Hfin Hlow Hpos Hprod).
Qed.

Lemma chol_right_factorises_witness :
  cholesky_factor 2 A_4225 false (chol_right 2 (inj_mat A_4225) false).
Proof. apply (chol_right_factorises 2 A_4225 false A_4225_spd). Defined.

(** X8. In exact arithmetic, [chol_up] on a symmetric positive definite matrix
    raises nothing and returns its Cholesky factor, in either orientation: no
    linear solve meets a singular or non-finite block. *)
Theorem chol_up_factorises (N : nat) (A : rmat) (lower : bool) :
  SPD N A ->
  exists M, chol_up N (inj_mat A) lower = Ok M /\ cholesky_factor N A lower M.
Proof.
  intros Hspd. exists (chol_left N (inj_mat A) lower).
  split; [apply (chol_up_is_chol_left N A lower Hspd)|].
  destruct (chol_left_correct N A Hspd) as (Hfin & Hlow & Hpos & Hprod).
  apply (oriented_factor N A _ lower Hfin Hlow Hpos Hprod).
Qed.

Lemma chol_up_factorises_witness :
  exists M, chol_up 2 (inj_mat A_4225) false = Ok M /\
            cholesky_factor 2 A_4225 false M.
Proof. apply (chol_up_factorises 2 A_4225 false A_4225_spd). Defined.

(** ** Round trips *)

(** X9. An updated factor can always be downdated by the same vector:
    [chol_downdate] raises nothing and returns the factor the update started
    from. *)
Theorem update_then_downdate_restores (N : nat) (L : rmat) (w : rvec) :
  lower_triangular N L -> positive_diagonal N L ->
  exists L'' w'',
    chol_downdate N (fst (chol_update N (inj_mat L) (inj_vec w))) (inj_vec w)
      = Ok (L'', w'') /\
    forall i j, (i < N)%nat -> (j < N)%nat -> L'' i j = Fin (L i j).
Proof.
  intros Hlow Hpos.
  destruct (downdate_after_update_returns N (inj_mat L) (inj_vec w)
              (finite_inj_mat N L) (finite_inj_vec N w) Hlow Hpos)
    as (L'' & w'' & Hdown).
  exists L'', w''. split; [exact Hdown|]. intros i j Hi Hj.
  pose proof (update_final_inv N (inj_mat L) (inj_vec w)
                (finite_inj_mat N L) (finite_inj_vec N w) Hlow Hpos) as Hu.
  rewrite chol_update_unfold in Hdown. cbn [fst] in Hdown.
  pose proof (ui_finite_L _ _ _ _ _ _ Hu) as HfL'.
  pose proof (rank_one_lower _ N (inj_mat L) _ _ _ Hlow Hu) as HlL'.
  pose proof (rank_one_positive _ _ _ _ _ Hu) as HpL'.
  destruct (chol_downdate_ok N _ _ _ _ Hdown) as [b Hloop].
  pose proof (downdate_loop_inv N _ (inj_vec w) HfL' (finite_inj_vec N w)
                HlL' HpL' N (L'', w'', b) (le_n _) Hloop) as Hd.
  pose proof (rank_one_lower _ N _ _ _ _ HlL' Hd) as HlL''.
  pose proof (rank_one_positive _ _ _ _ _ Hd) as HpL''.
  cbn [fst snd] in HlL'', HpL''.
  rewrite (finite_val (L'' i j))
    by (apply (ui_finite_L _ _ _ _ _ _ Hd); assumption).
  f_equal.
  apply (chol_factor_unique N (rval L'') L HlL'' Hlow HpL'' Hpos);
    try assumption.
  intros r k Hr Hk.
  pose proof (rank_one_done_product _ _ _ _ _ Hd r k Hr Hk) as E.
  pose proof (rank_one_done_product _ _ _ _ _ Hu r k Hr Hk) as E'.
  cbn [fst snd] in E. rewrite E, E'.
  unfold mulT, rval, inj_mat, inj_vec; simpl. lra.
Qed.

Lemma update_then_downdate_restores_witness :
  exists L'' w'',
    chol_downdate 3 (fst (chol_update 3 (inj_mat L_diag234) (inj_vec w_001)))
      (inj_vec w_001) = Ok (L'', w'') /\
    forall i j, (i < 3)%nat -> (j < 3)%nat -> L'' i j = Fin (L_diag234 i j).
Proof.
  apply (update_then_downdate_restores 3 L_diag234 w_001
           L_diag234_lower L_diag234_positive).
Defined.

(** X10. A factor that [chol_downdate] returns, updated by the same vector, is
    the factor the downdate started from. *)
Theorem downdate_then_update_restores (N : nat) (L : rmat) (w : rvec) :
  lower_triangular N L -> positive_diagonal N L ->
  forall L' w', chol_downdate N (inj_mat L) (inj_vec w) = Ok (L', w') ->
  forall i j, (i < N)%nat -> (j < N)%nat ->
    fst (chol_update N L' (inj_vec w)) i j = Fin (L i j).
Proof.
  intros Hlow Hpos L' w' Hdown i j Hi Hj.
  destruct (chol_downdate_ok N _ _ _ _ Hdown) as [b Hloop].
  pose proof (downdate_loop_inv N (inj_mat L) (inj_vec w)
                (finite_inj_mat N L) (finite_inj_vec N w) Hlow Hpos
                N (L', w', b) (le_n _) Hloop) as Hd.
  pose proof (ui_finite_L _ _ _ _ _ _ Hd) as HfL'.
  pose proof (rank_one_lower _ N (inj_mat L) _ _ _ Hlow Hd) as HlL'.
  pose proof (rank_one_positive _ _ _ _ _ Hd) as HpL'.
  cbn [fst snd] in HfL', HlL', HpL'.
  pose proof (update_final_inv N L' (inj_vec w) HfL' (finite_inj_vec N w)
                HlL' HpL') as Hu.
  pose proof (rank_one_lower _ N _ _ _ _ HlL' Hu) as HlL''.
  pose proof (rank_one_positive _ _ _ _ _ Hu) as HpL''.
  rewrite chol_update_unfold. cbn [fst].
  rewrite (finite_val (fst (fst (update_loop N N L' (inj_vec w))) i j))
    by (apply (ui_finite_L _ _ _ _ _ _ Hu); assumption).
  f_equal.
  apply (chol_factor_unique N _ L HlL'' Hlow HpL'' Hpos); try assumption.
  intros r k Hr Hk.
  pose proof (rank_one_done_product _ _ _ _ _ Hu r k Hr Hk) as E.
  pose proof (rank_one_done_product _ _ _ _ _ Hd r k Hr Hk) as E'.
  cbn [fst snd] in E'. rewrite E, E'.
  unfold mulT, rval, inj_mat, inj_vec; simpl. lra.
Qed.

Lemma downdate_then_update_restores_witness :
  exists L' w',
    chol_downdate 1 (inj_mat L_two) (inj_vec w_one) = Ok (L', w') /\
    fst (chol_update 1 L' (inj_vec w_one)) 0%nat 0%nat = Fin (L_two 0%nat 0%nat).
Proof.
  destruct downdate_two_one as (L' & w' & b & Hloop).
  assert (Hrun : chol_downdate 1 (inj_mat L_two) (inj_vec w_one) = Ok (L', w')).
  { unfold chol_downdate. rewrite Hloop. reflexivity. }
  exists L', w'. split; [exact Hrun|].
  apply (downdate_then_update_restores 1 L_two w_one L_two_lower
           L_two_positive L' w' Hrun 0%nat 0%nat); lia.
Defined.

(** ** The unified entry point on concrete factors *)

Lemma chol_updown_is_chol_update_witness :
  chol_updown 2 (inj_mat L_identity) (inj_vec w_30) true =
  chol_update 2 (inj_mat L_identity) (inj_vec w_30).
Proof.
  apply (chol_updown_is_chol_update 2 (inj_mat L_identity) (inj_vec w_30)).
  discriminate.
Defined.

Lemma chol_updown_is_chol_downdate_witness :
  exists r,
    chol_downdate 3 (fst (chol_update 3 (inj_mat L_diag234) (inj_vec w_001)))
      (inj_vec w_001) = Ok r /\
    chol_updown 3 (fst (chol_update 3 (inj_mat L_diag234) (inj_vec w_001)))
      (inj_vec w_001) false = r.
Proof.
  destruct (downdate_after_update_returns 3 (inj_mat L_diag234)
              (inj_vec w_001) (finite_inj_mat 3 L_diag234)
              (finite_inj_vec 3 w_001) L_diag234_lower L_diag234_positive)
    as (L'' & w'' & Hrun).
  exists (L'', w''). split; [exact Hrun|].
  apply (chol_updown_is_chol_downdate 3 _ _ (L'', w''));
    [discriminate | exact Hrun].
Defined.

(** ** The zero vector *)

Lemma same_product_same_factor (N : nat) (L : rmat) (M : fmat) :
  lower_triangular N L -> positive_diagonal N L ->
  finite_mat N M -> lower_triangular N (rval M) ->
  positive_diagonal N (rval M) ->
  (forall i k, (i < N)%nat -> (k < N)%nat ->
     mulT N (rval M) i k = mulT N L i k) ->
  forall i j, (i < N)%nat -> (j < N)%nat -> M i j = Fin (L i j).
Proof.
  intros Hlow Hpos Hfin HlM HpM Hprod i j Hi Hj.
  rewrite (finite_val (M i j)) by (apply Hfin; assumption).
  f_equal.
  apply (chol_factor_unique N (rval M) L HlM Hlow HpM Hpos Hprod i j Hi Hj).
Qed.

(** The only solution of [L x = 0] is zero. *)
Lemma solved_zero (N : nat) (L : rmat) (x : fvec) :
  positive_diagonal N L -> finite_vec N x ->
  (forall i, (i < N)%nat ->
     sumR i (fun t => L i t * val (x t)) + L i i * val (x i) = 0) ->
  forall i, (i < N)%nat -> x i = Fin 0.
Proof.
  intros Hpos Hfin Hsol i.
  induction i as [i IH] using lt_wf_ind. intros Hi.
  pose proof (Hsol i Hi) as E.
  rewrite sumR_zero in E.
  - rewrite (finite_val (x i)) by (apply Hfin; exact Hi). f_equal.
    pose proof (Hpos i Hi) as Hl.
    assert (Z : L i i * val (x i) = 0) by lra.
    destruct (Rmult_integral _ _ Z); lra.
  - intros t Ht. rewrite (IH t Ht ltac:(lia)). cbn [val]. lra.
Qed.

Lemma update_zero_inv (N : nat) (L : rmat) :
  lower_triangular N L -> positive_diagonal N L ->
  rank_one_inv 1 N (inj_mat L) zeros_vec N
    (update_loop N N (inj_mat L) zeros_vec).
Proof.
  intros Hlow Hpos.
  apply (update_final_inv N (inj_mat L) (inj_vec (fun _ => 0))
           (finite_inj_mat N L) (finite_inj_vec N _) Hlow Hpos).
Qed.

Lemma chol_update_zero_factor (N : nat) (L : rmat) :
  lower_triangular N L -> positive_diagonal N L ->
  fst (chol_update N (inj_mat L) zeros_vec) = inj_mat L.
Proof.
  intros Hlow Hpos.
  pose proof (update_zero_inv N L Hlow Hpos) as Hinv.
  rewrite chol_update_unfold. cbn [fst].
  apply functional_extensionality; intros i.
  apply functional_extensionality; intros t.
  destruct (Nat.lt_ge_cases i N) as [Hi|Hi];
    [|apply (ui_outside _ _ _ _ _ _ Hinv i t Hi)].
  destruct (Nat.lt_ge_cases t N) as [Ht|Ht];
    [|apply (ui_todo _ _ _ _ _ _ Hinv i t Ht)].
  apply (same_product_same_factor N L _ Hlow Hpos
           (ui_finite_L _ _ _ _ _ _ Hinv)
           (rank_one_lower _ N (inj_mat L) _ _ _ Hlow Hinv)
           (rank_one_positive _ _ _ _ _ Hinv)); try assumption.
  intros r k Hr Hk.
  rewrite (rank_one_done_product _ _ _ _ _ Hinv r k Hr Hk).
  unfold mulT, rval, inj_mat, zeros_vec; simpl. lra.
Qed.

(** X11. Updating by the zero vector changes nothing: [chol_update] returns
    the factor it was given, and the zero vector. *)
Theorem chol_update_zero_vector (N : nat) (L : rmat) :
  lower_triangular N L -> positive_diagonal N L ->
  fst (chol_update N (inj_mat L) zeros_vec) = inj_mat L /\
  forall i, (i < N)%nat ->
    snd (chol_update N (inj_mat L) zeros_vec) i = Fin 0.
Proof.
  intros Hlow Hpos. split; [apply chol_update_zero_factor; assumption|].
  pose proof (update_zero_inv N L Hlow Hpos) as Hinv.
  rewrite chol_update_unfold. cbn [snd].
  apply (solved_zero N L _ Hpos (ui_finite_w _ _ _ _ _ _ Hinv)).
  intros i Hi. apply (ui_solved _ _ _ _ _ _ Hinv i Hi).
Qed.

Lemma chol_update_zero_vector_witness :
  fst (chol_update 3 (inj_mat L_diag234) zeros_vec) = inj_mat L_diag234 /\
  forall i, (i < 3)%nat ->
    snd (chol_update 3 (inj_mat L_diag234) zeros_vec) i = Fin 0.
Proof.
  apply (chol_update_zero_vector 3 L_diag234
           L_diag234_lower L_diag234_positive).
Defined.

(** X12. Downdating by the zero vector never fails and changes nothing:
    [chol_downdate] returns the factor it was given, and the zero vector. *)
Theorem chol_downdate_zero_vector (N : nat) (L : rmat) :
  lower_triangular N L -> positive_diagonal N L ->
  exists L' w',
    chol_downdate N (inj_mat L) zeros_vec = Ok (L', w') /\
    forall i, (i < N)%nat ->
      w' i = Fin 0 /\ forall j, (j < N)%nat -> L' i j = Fin (L i j).
Proof.
  intros Hlow Hpos.
  destruct (downdate_after_update_returns N (inj_mat L)
              (inj_vec (fun _ => 0)) (finite_inj_mat N L)
              (finite_inj_vec N _) Hlow Hpos) as (L' & w' & Hrun).
  change (inj_vec (fun _ => 0)) with zeros_vec in Hrun.
  rewrite (chol_update_zero_factor N L Hlow Hpos) in Hrun.
  exists L', w'. split; [exact Hrun|].
  destruct (chol_downdate_ok N _ _ _ _ Hrun) as [b Hloop].
  pose proof (downdate_loop_inv N (inj_mat L) (inj_vec (fun _ => 0))
                (finite_inj_mat N L) (finite_inj_vec N _) Hlow Hpos
                N (L', w', b) (le_n _) Hloop) as Hinv.
  intros i Hi. split.
  - apply (solved_zero N L w' Hpos (ui_finite_w _ _ _ _ _ _ Hinv)
             (ui_solved _ _ _ _ _ _ Hinv) i Hi).
  - intros j Hj.
    apply (same_product_same_factor N L L' Hlow Hpos
             (ui_finite_L _ _ _ _ _ _ Hinv)
             (rank_one_lower _ N (inj_mat L) _ _ _ Hlow Hinv)
             (rank_one_positive _ _ _ _ _ Hinv)); try assumption.
    intros r k Hr Hk.
    pose proof (rank_one_done_product _ _ _ _ _ Hinv r k Hr Hk) as E.
    cbn [fst snd] in E. rewrite E.
    unfold mulT, rval, inj_mat, inj_vec; simpl. lra.
Qed.

Lemma chol_downdate_zero_vector_witness :
  exists L' w',
    chol_downdate 3 (inj_mat L_diag234) zeros_vec = Ok (L', w') /\
    forall i, (i < 3)%nat ->
      w' i = Fin 0 /\ forall j, (j < 3)%nat -> L' i j = Fin (L_diag234 i j).
Proof.
  apply (chol_downdate_zero_vector 3 L_diag234
           L_diag234_lower L_diag234_positive).
Defined.

(** ** What the rank-one loops leave alone *)

Lemma update_body_keeps (N j : nat) (st : update_state) (i t : nat) :
  (j < N)%nat -> (i < t)%nat \/ (N <= i)%nat \/ t <> j ->
  fst (fst (update_body N j st)) i t = fst (fst st) i t.
Proof.
  intros Hj H. destruct st as [[L w] b]. unfold update_body. cbv zeta.
  destruct (j =? N - 1)%nat; cbn [fst snd]; bool_cases; reflexivity.
Qed.

Lemma downdate_body_keeps (N j : nat) (st st' : update_state) (i t : nat) :
  (j < N)%nat -> (i < t)%nat \/ (N <= i)%nat \/ t <> j ->
  downdate_body N j st = Ok st' ->
  fst (fst st') i t = fst (fst st) i t.
Proof.
  intros Hj H. destruct st as [[L w] b]. unfold downdate_body. cbv zeta.
  destruct (fge _ _); [discriminate|].
  destruct (j =? N - 1)%nat; intros E; injection E as <-;
    cbn [fst snd]; bool_cases; reflexivity.
Qed.

Lemma update_loop_keeps (N : nat) (L : fmat) (w : fvec) (i t n : nat) :
  (n <= N)%nat -> (i < t)%nat \/ (N <= i)%nat \/ (n <= t)%nat ->
  fst (fst (update_loop N n L w)) i t = L i t.
Proof.
  unfold update_loop. induction n as [|n IH]; intros Hn H; [reflexivity|].
  cbn [for_range]. rewrite update_body_keeps by lia. apply IH; lia.
Qed.

Lemma downdate_loop_keeps (N : nat) (L : fmat) (w : fvec) (i t n : nat)
    (st : update_state) :
  (n <= N)%nat -> (i < t)%nat \/ (N <= i)%nat \/ (n <= t)%nat ->
  downdate_loop N n L w = (st, None) ->
  fst (fst st) i t = L i t.
Proof.
  unfold downdate_loop. revert st.
  induction n as [|n IH]; intros st Hn H Hrun.
  - injection Hrun as <-. reflexivity.
  - cbn [for_range_e] in Hrun.
    destruct (for_range_e n (downdate_body N) (L, w, Fin 1))
      as [s' [e|]] eqn:Hpre; [discriminate|].
    destruct (downdate_body N n s') as [s''|e] eqn:Hbody; [|discriminate].
    injection Hrun as <-.
    rewrite (downdate_body_keeps N n s' s'' i t) by (try lia; exact Hbody).
    apply IH; [lia | lia | reflexivity].
Qed.

(** X13. [chol_update] and [chol_downdate] write the lower triangle of the
    leading [N] by [N] block only: every entry above the diagonal is returned
    as it was given, whatever it holds. *)
Theorem rank_one_keeps_upper (N : nat) (L : fmat) (w : fvec) (i t : nat) :
  (i < t)%nat ->
  fst (chol_update N L w) i t = L i t /\
  forall L' w', chol_downdate N L w = Ok (L', w') -> L' i t = L i t.
Proof.
  intros H. split.
  - rewrite chol_update_unfold. cbn [fst].
    apply update_loop_keeps; [lia | left; exact H].
  - intros L' w' Hrun.
    destruct (chol_downdate_ok N _ _ _ _ Hrun) as [b Hloop].
    apply (downdate_loop_keeps N L w i t N (L', w', b) (le_n _)
             (or_introl H) Hloop).
Qed.

Lemma rank_one_keeps_upper_witness :
  fst (chol_update 2 (inj_mat L_two) (inj_vec w_one)) 0%nat 1%nat =
    inj_mat L_two 0%nat 1%nat /\
  forall L' w',
    chol_downdate 2 (inj_mat L_two) (inj_vec w_one) = Ok (L', w') ->
    L' 0%nat 1%nat = inj_mat L_two 0%nat 1%nat.
Proof.
  apply (rank_one_keeps_upper 2 (inj_mat L_two) (inj_vec w_one) 0%nat 1%nat).
  lia.
Defined.

(** ** The one by one branch of [chol_updown] *)

Lemma one_by_one_lower (L : rmat) : lower_triangular 1 L.
Proof. intros i j Hij Hj. lia. Qed.

Lemma one_by_one_positive (L : rmat) :
  0 < L 0%nat 0%nat -> positive_diagonal 1 L.
Proof. intros H j Hj. replace j with 0%nat by lia. exact H. Qed.

Lemma sqrt_of_square (x y : R) : 0 < x -> x * x = y -> x = sqrt y.
Proof. intros Hx <-. symmetry. apply sqrt_square. lra. Qed.

(** X14. In exact arithmetic, on a one by one factor [[l]] with [l > 0] the
    update direction of [chol_updown] returns the factor [chol_update]
    returns, [sqrt (l^2 + w^2)]. *)
Theorem chol_updown_one_by_one_update (L : rmat) (w : rvec) :
  0 < L 0%nat 0%nat ->
  fst (chol_updown 1 (inj_mat L) (inj_vec w) true) 0%nat 0%nat =
    Fin (sqrt (L 0%nat 0%nat * L 0%nat 0%nat + w 0%nat * w 0%nat)) /\
  fst (chol_update 1 (inj_mat L) (inj_vec w)) 0%nat 0%nat =
    Fin (sqrt (L 0%nat 0%nat * L 0%nat 0%nat + w 0%nat * w 0%nat)).
Proof.
  intros Hl. split.
  - unfold chol_updown. cbn [Nat.eqb fst].
    unfold transpose, inj_mat, inj_vec. autorewrite with fin.
    rewrite fsqrt_fin by nra. do 2 f_equal. ring.
  - pose proof (update_final_inv 1 (inj_mat L) (inj_vec w)
                  (finite_inj_mat 1 L) (finite_inj_vec 1 w)
                  (one_by_one_lower L) (one_by_one_positive L Hl)) as Hinv.
    rewrite chol_update_unfold. cbn [fst].
    set (M := fst (fst (update_loop 1 1 (inj_mat L) (inj_vec w)))) in *.
    rewrite (finite_val (M 0%nat 0%nat))
      by (apply (ui_finite_L _ _ _ _ _ _ Hinv); lia).
    f_equal. apply sqrt_of_square.
    + apply (rank_one_positive _ _ _ _ _ Hinv 0%nat). lia.
    + pose proof (rank_one_done_product _ _ _ _ _ Hinv 0%nat 0%nat
                    (Nat.lt_0_succ 0) (Nat.lt_0_succ 0)) as E.
      unfold mulT, rval in E. cbn [sumR] in E. fold M in E.
      unfold inj_mat, inj_vec in E. cbn [val] in E. lra.
Qed.

Lemma chol_updown_one_by_one_update_witness :
  fst (chol_updown 1 (inj_mat L_two) (inj_vec w_one) true) 0%nat 0%nat =
    Fin (sqrt (L_two 0%nat 0%nat * L_two 0%nat 0%nat +
               w_one 0%nat * w_one 0%nat)) /\
  fst (chol_update 1 (inj_mat L_two) (inj_vec w_one)) 0%nat 0%nat =
    Fin (sqrt (L_two 0%nat 0%nat * L_two 0%nat 0%nat +
               w_one 0%nat * w_one 0%nat)).
Proof.
  apply (chol_updown_one_by_one_update L_two w_one).
  unfold L_two. lra.
Defined.

Lemma ratio_square_lt (x l : R) :
  0 < l -> x * x < l * l -> x / l * (x / l) < 1 * 1.
Proof.
  intros Hl H.
  replace (x / l * (x / l)) with (x * x / (l * l)) by (field; lra).
  apply (Rmult_lt_reg_r (l * l)); [nra|].
  replace (x * x / (l * l) * (l * l)) with (x * x) by (field; lra). lra.
Qed.

Lemma ratio_square_ge (x l : R) :
  0 < l -> l * l <= x * x -> 1 * 1 <= x / l * (x / l).
Proof.
  intros Hl H.
  replace (x / l * (x / l)) with (x * x / (l * l)) by (field; lra).
  apply (Rmult_le_reg_r (l * l)); [nra|].
  replace (x * x / (l * l) * (l * l)) with (x * x) by (field; lra). lra.
Qed.

(** X15. In exact arithmetic, on a one by one factor [[l]] with [l > 0] and a
    vector with [w^2 < l^2] the downdate direction of [chol_updown] returns
    the factor [chol_downdate] returns, [sqrt (l^2 - w^2)]. *)
Theorem chol_updown_one_by_one_downdate (L : rmat) (w : rvec) :
  0 < L 0%nat 0%nat ->
  w 0%nat * w 0%nat < L 0%nat 0%nat * L 0%nat 0%nat ->
  fst (chol_updown 1 (inj_mat L) (inj_vec w) false) 0%nat 0%nat =
    Fin (sqrt (L 0%nat 0%nat * L 0%nat 0%nat - w 0%nat * w 0%nat)) /\
  exists L' w',
    chol_downdate 1 (inj_mat L) (inj_vec w) = Ok (L', w') /\
    L' 0%nat 0%nat =
      Fin (sqrt (L 0%nat 0%nat * L 0%nat 0%nat - w 0%nat * w 0%nat)).
Proof.
  intros Hl Hw. split.
  - unfold chol_updown. cbn [Nat.eqb fst].
    unfold transpose, inj_mat, inj_vec. autorewrite with fin.
    rewrite fsqrt_fin by nra. do 2 f_equal. ring.
  - destruct (downdate_body_spec 1 0 (inj_mat L) (inj_vec w) 1
                (Nat.lt_0_succ 0) (finite_inj_mat 1 L)
                (finite_inj_vec 1 w) Rlt_0_1
                (Rgt_not_eq _ _ Hl)
                (ratio_square_lt _ _ Hl Hw))
      as (L' & w' & E & _).
    pose proof (downdate_loop_next 1 0 _ _
                  (inj_mat L, inj_vec w, Fin 1) _ eq_refl E) as Hloop.
    exists L', w'. split.
    + unfold chol_downdate. rewrite Hloop. reflexivity.
    + pose proof (downdate_loop_inv 1 (inj_mat L) (inj_vec w)
                    (finite_inj_mat 1 L) (finite_inj_vec 1 w)
                    (one_by_one_lower L) (one_by_one_positive L Hl)
                    1 _ (le_n _) Hloop) as Hinv.
      cbn [fst snd] in Hinv.
      rewrite (finite_val (L' 0%nat 0%nat))
        by (apply (ui_finite_L _ _ _ _ _ _ Hinv); lia).
      f_equal. apply sqrt_of_square.
      * apply (rank_one_positive _ _ _ _ _ Hinv 0%nat). lia.
      * pose proof (rank_one_done_product _ _ _ _ _ Hinv 0%nat 0%nat
                      (Nat.lt_0_succ 0) (Nat.lt_0_succ 0)) as P.
        unfold mulT, rval, inj_mat, inj_vec in P. cbn [sumR val fst snd] in P.
        cbn [fst]. lra.
Qed.

Lemma chol_updown_one_by_one_downdate_witness :
  fst (chol_updown 1 (inj_mat L_two) (inj_vec w_one) false) 0%nat 0%nat =
    Fin (sqrt (L_two 0%nat 0%nat * L_two 0%nat 0%nat -
               w_one 0%nat * w_one 0%nat)) /\
  exists L' w',
    chol_downdate 1 (inj_mat L_two) (inj_vec w_one) = Ok (L', w') /\
    L' 0%nat 0%nat =
      Fin (sqrt (L_two 0%nat 0%nat * L_two 0%nat 0%nat -
                 w_one 0%nat * w_one 0%nat)).
Proof.
  apply (chol_updown_one_by_one_downdate L_two w_one);
    unfold L_two, w_one; lra.
Defined.

(** X16. In exact arithmetic, on a one by one factor [[l]] with [l > 0] and a
    vector with [w^2 >= l^2], where [chol_downdate] raises, the downdate
    direction of [chol_updown] raises nothing: it returns the factor [nan], or
    [0] when [w^2 = l^2]. *)
Theorem chol_updown_one_by_one_untested (L : rmat) (w : rvec) :
  0 < L 0%nat 0%nat ->
  L 0%nat 0%nat * L 0%nat 0%nat <= w 0%nat * w 0%nat ->
  chol_downdate 1 (inj_mat L) (inj_vec w) = Raise NotPositiveDefinite /\
  fst (chol_updown 1 (inj_mat L) (inj_vec w) false) 0%nat 0%nat =
    if Rlt_dec (L 0%nat 0%nat * L 0%nat 0%nat) (w 0%nat * w 0%nat)
    then NaN else Fin 0.
Proof.
  intros Hl Hw. split.
  - pose proof (downdate_body_raises 1 0 (inj_mat L) (inj_vec w) 1
                  (Nat.lt_0_succ 0) (finite_inj_mat 1 L)
                  (finite_inj_vec 1 w)
                  (Rgt_not_eq _ _ Hl)
                  (ratio_square_ge _ _ Hl Hw)) as E.
    pose proof (downdate_loop_stops 1 0 _ _
                  (inj_mat L, inj_vec w, Fin 1) _ eq_refl E) as Hloop.
    unfold chol_downdate. rewrite Hloop. reflexivity.
  - unfold chol_updown. cbn [Nat.eqb fst].
    unfold transpose, inj_mat, inj_vec. autorewrite with fin.
    destruct (Rlt_dec (L 0%nat 0%nat * L 0%nat 0%nat) (w 0%nat * w 0%nat))
      as [Hlt|Hge].
    + apply fsqrt_neg. nra.
    + rewrite fsqrt_fin by nra. f_equal.
      replace (L 0%nat 0%nat * L 0%nat 0%nat + -1 * w 0%nat * w 0%nat)
        with 0 by nra.
      apply sqrt_0.
Qed.

Lemma chol_updown_one_by_one_untested_witness :
  chol_downdate 1 (inj_mat L_two) (inj_vec w_three)
    = Raise NotPositiveDefinite /\
  fst (chol_updown 1 (inj_mat L_two) (inj_vec w_three) false) 0%nat 0%nat =
    if Rlt_dec (L_two 0%nat 0%nat * L_two 0%nat 0%nat)
               (w_three 0%nat * w_three 0%nat)
    then NaN else Fin 0.
Proof.
  apply (chol_updown_one_by_one_untested L_two w_three);
    unfold L_two, w_three; lra.
Defined.

(** ** A negative pivot in [chol_left] *)

Lemma fdiv_nan_r (x : fval) : fdiv x NaN = NaN.
Proof. destruct x; reflexivity. Qed.

(** A column of [chol_left], once written, is final. *)
Lemma chol_left_loop_column_final (N : nat) (A : fmat) (n m i t : nat) :
  (t < n)%nat -> (n <= m)%nat ->
  chol_left_loop N A m i t = chol_left_loop N A n i t.
Proof.
  intros Ht Hnm. induction m as [|m IH]; [lia|].
  destruct (Nat.eq_dec n (S m)) as [->|Hne]; [reflexivity|].
  unfold chol_left_loop in *. cbn [for_range].
  rewrite chol_left_body_old by lia. apply IH. lia.
Qed.

(** X17. [chol_left] has no test of the pivot: when the radicand of column [k]
    is negative it raises nothing, and column [k] of the returned factor is
    [nan] from the diagonal down. *)
Theorem chol_left_negative_pivot (N : nat) (A : fmat) (k : nat) (r : R) :
  (k < N)%nat ->
  fsub (A k k) (fdot k (chol_left_loop N A k k) (chol_left_loop N A k k))
    = Fin r ->
  r < 0 ->
  forall i, (k <= i)%nat -> (i < N)%nat ->
    chol_left N A true i k = NaN /\ chol_left N A false k i = NaN.
Proof.
  intros Hk Hrad Hr i Hki Hi.
  assert (E : chol_left_loop N A N i k = NaN).
  { rewrite (chol_left_loop_column_final N A (S k) N i k) by lia.
    unfold chol_left_loop. cbn [for_range]. fold (chol_left_loop N A k).
    unfold chol_left_body. rewrite Hrad, (fsqrt_neg r Hr).
    destruct (Nat.eq_dec i k) as [->|Hne].
    - rewrite !Nat.eqb_refl, Nat.ltb_irrefl. cbn [andb]. reflexivity.
    - rewrite !Nat.eqb_refl. cbn [andb].
      replace (k <? i)%nat with true by (symmetry; apply Nat.ltb_lt; lia).
      replace (i <? N)%nat with true by (symmetry; apply Nat.ltb_lt; lia).
      cbn [andb]. apply fdiv_nan_r. }
  split; unfold chol_left, oriented, transpose; exact E.
Qed.

Lemma chol_left_negative_pivot_witness :
  chol_left 2 (inj_mat A_diag_m1_1) true 1%nat 0%nat = NaN /\
  chol_left 2 (inj_mat A_diag_m1_1) false 0%nat 1%nat = NaN.
Proof.
  apply (chol_left_negative_pivot 2 (inj_mat A_diag_m1_1) 0%nat (-1 + - 0)).
  - lia.
  - reflexivity.
  - lra.
  - lia.
  - lia.
Defined.

(** ** The triangle of [A] that each factorisation reads *)

Lemma for_range_ext {S : Type} (n : nat) (f g : nat -> S -> S) (s : S) :
  (forall k s', (k < n)%nat -> f k s' = g k s') ->
  for_range n f s = for_range n g s.
Proof.
  induction n as [|n IH]; intros H; [reflexivity|].
  cbn [for_range]. rewrite IH by (intros; apply H; lia). apply H. lia.
Qed.

Lemma for_range_e_ext {S : Type} (n : nat) (f g : nat -> S -> result S)
    (s : S) :
  (forall k s', (k < n)%nat -> f k s' = g k s') ->
  for_range_e n f s = for_range_e n g s.
Proof.
  induction n as [|n IH]; intros H; [reflexivity|].
  cbn [for_range_e]. rewrite IH by (intros; apply H; lia).
  destruct (for_range_e n g s) as [s' [e|]]; [reflexivity|].
  rewrite H by lia. reflexivity.
Qed.

Section LowerTriangle.

Variables (N : nat) (A A' : fmat).
Hypothesis Hagree : forall i t, (t <= i)%nat -> (i < N)%nat -> A i t = A' i t.

Lemma chol_left_body_lower (k : nat) (L : fmat) :
  (k < N)%nat -> chol_left_body N A k L = chol_left_body N A' k L.
Proof.
  intros Hk. unfold chol_left_body.
  apply functional_extensionality; intros i.
  apply functional_extensionality; intros t.
  rewrite (Hagree k k (le_n _) Hk).
  destruct (Nat.ltb_spec k i); cbn [andb]; [|reflexivity].
  destruct (Nat.ltb_spec i N); cbn [andb]; [|reflexivity].
  rewrite (Hagree i k) by lia. reflexivity.
Qed.

Lemma chol_left_amp_body_lower (k : nat) (st : fmat * fvec) :
  (k < N)%nat -> chol_left_amp_body N A k st = chol_left_amp_body N A' k st.
Proof.
  intros Hk. destruct st as [L a]. unfold chol_left_amp_body.
  replace (fun i : nat => if (k <=? i)%nat && (i <? N)%nat then A i k else a i)
    with (fun i : nat => if (k <=? i)%nat && (i <? N)%nat then A' i k else a i);
    [reflexivity|].
  apply functional_extensionality; intros i.
  destruct (Nat.leb_spec k i); cbn [andb]; [|reflexivity].
  destruct (Nat.ltb_spec i N); cbn [andb]; [|reflexivity].
  rewrite (Hagree i k) by lia. reflexivity.
Qed.

(** The right-looking loop keeps the two working copies equal on the
    lower triangle, and the two factors equal. *)
Lemma chol_right_loop_lower (n : nat) :
  (n <= N)%nat ->
  snd (chol_right_loop N A n) = snd (chol_right_loop N A' n) /\
  forall i t, (t <= i)%nat -> (i < N)%nat ->
    fst (chol_right_loop N A n) i t = fst (chol_right_loop N A' n) i t.
Proof.
  unfold chol_right_loop. induction n as [|n IH]; intros Hn.
  - split; [reflexivity | exact Hagree].
  - destruct (IH ltac:(lia)) as [HL HA]. cbn [for_range].
    destruct (for_range n (chol_right_body N) (A, zeros_mat)) as [B L].
    destruct (for_range n (chol_right_body N) (A', zeros_mat)) as [B' L'].
    cbn [fst snd] in HL, HA. subst L'.
    assert (E : snd (chol_right_body N n (B, L)) =
                snd (chol_right_body N n (B', L))).
    { cbn [chol_right_body snd].
      apply functional_extensionality; intros i.
      apply functional_extensionality; intros t.
      rewrite (HA n n (le_n _) ltac:(lia)).
      destruct (Nat.ltb_spec n i); cbn [andb]; [|reflexivity].
      destruct (Nat.ltb_spec i N); cbn [andb]; [|reflexivity].
      rewrite (HA i n) by lia. reflexivity. }
    split; [exact E|].
    intros i t Hti Hi.
    change (fst (chol_right_body N n (B, L)) i t) with
      (if (n <? i)%nat && (i <? N)%nat && (n <? t)%nat && (t <? N)%nat
       then fsub (B i t) (fmul (snd (chol_right_body N n (B, L)) i n)
                               (snd (chol_right_body N n (B, L)) t n))
       else B i t).
    change (fst (chol_right_body N n (B', L)) i t) with
      (if (n <? i)%nat && (i <? N)%nat && (n <? t)%nat && (t <? N)%nat
       then fsub (B' i t) (fmul (snd (chol_right_body N n (B', L)) i n)
                                (snd (chol_right_body N n (B', L)) t n))
       else B' i t).
    rewrite E, (HA i t Hti Hi). reflexivity.
Qed.

End LowerTriangle.

(** X18. [chol_left], [chol_left_amp] and [chol_right] read the lower triangle
    of [A] only: two matrices that agree on and below the diagonal get the
    same result, whatever is above it.  In particular the result for [A] is
    the result for [np.tril(A)]. *)
Theorem lower_triangle_only (N : nat) (A A' : fmat) (lower : bool) :
  (forall i t, (t <= i)%nat -> (i < N)%nat -> A i t = A' i t) ->
  chol_left N A lower = chol_left N A' lower /\
  chol_left_amp N A lower = chol_left_amp N A' lower /\
  chol_right N A lower = chol_right N A' lower.
Proof.
  intros H. split; [|split].
  - unfold chol_left, chol_left_loop. f_equal.
    apply for_range_ext. intros k L Hk.
    apply (chol_left_body_lower N A A' H k L Hk).
  - unfold chol_left_amp. do 2 f_equal.
    apply for_range_ext. intros k st Hk.
    apply (chol_left_amp_body_lower N A A' H k st Hk).
  - unfold chol_right. f_equal.
    apply (chol_right_loop_lower N A A' H N (le_n _)).
Qed.

Lemma lower_triangle_only_witness :
  chol_left 2 (inj_mat A_4225) true = chol_left 2 (tril (inj_mat A_4225)) true /\
  chol_left_amp 2 (inj_mat A_4225) true
    = chol_left_amp 2 (tril (inj_mat A_4225)) true /\
  chol_right 2 (inj_mat A_4225) true
    = chol_right 2 (tril (inj_mat A_4225)) true.
Proof.
  apply (lower_triangle_only 2 (inj_mat A_4225) (tril (inj_mat A_4225)) true).
  intros i t Hti Hi. unfold tril.
  destruct (Nat.leb_spec t i); [reflexivity | lia].
Defined.

Section UpperTriangle.

Variables (N : nat) (A A' : fmat).
Hypothesis Hagree : forall i t, (i <= t)%nat -> (t < N)%nat -> A i t = A' i t.

Lemma vec_finite_ext (n : nat) (b b' : fvec) :
  (forall i, (i < n)%nat -> b i = b' i) -> vec_finite n b = vec_finite n b'.
Proof.
  intros H. apply Bool.eq_true_iff_eq. rewrite !vec_finite_true.
  split; intros G i Hi; [rewrite <- (H i Hi) | rewrite (H i Hi)];
    apply (G i Hi).
Qed.

Lemma forward_subst_ext (n : nat) (M : fmat) (b b' : fvec) :
  (forall i, (i < n)%nat -> b i = b' i) ->
  forward_subst n M b = forward_subst n M b'.
Proof.
  induction n as [|n IH]; intros H; [reflexivity|].
  cbn [forward_subst]. rewrite IH by (intros; apply H; lia).
  rewrite (H n) by lia. reflexivity.
Qed.

Lemma la_solve_ext (n : nat) (M : fmat) (b b' : fvec) :
  (forall i, (i < n)%nat -> b i = b' i) -> la_solve n M b = la_solve n M b'.
Proof.
  intros H. unfold la_solve.
  rewrite (vec_finite_ext n b b' H), (forward_subst_ext n M b b' H).
  reflexivity.
Qed.

Lemma chol_up_body_upper (k : nat) (L : fmat) :
  (k < N)%nat -> chol_up_body A k L = chol_up_body A' k L.
Proof.
  intros Hk. unfold chol_up_body.
  rewrite (la_solve_ext k L (fun i => A i k) (fun i => A' i k))
    by (intros i Hi; apply Hagree; lia).
  rewrite (Hagree k k (le_n _) Hk). reflexivity.
Qed.

End UpperTriangle.

(** X19. [chol_up] reads the upper triangle of [A] only: two matrices that
    agree on and above the diagonal get the same result, or the same error. *)
Theorem chol_up_upper_triangle_only (N : nat) (A A' : fmat) (lower : bool) :
  (forall i t, (i <= t)%nat -> (t < N)%nat -> A i t = A' i t) ->
  chol_up N A lower = chol_up N A' lower.
Proof.
  intros H. unfold chol_up, chol_up_loop.
  rewrite (for_range_e_ext N (chol_up_body A) (chol_up_body A'));
    [reflexivity|].
  intros k L Hk. apply (chol_up_body_upper N A A' H k L Hk).
Qed.

Lemma chol_up_upper_triangle_only_witness :
  chol_up 2 (inj_mat A_4225) true = chol_up 2 (triu (inj_mat A_4225)) true.
Proof.
  apply (chol_up_upper_triangle_only 2 (inj_mat A_4225)
           (triu (inj_mat A_4225)) true).
  intros i t Hit Ht. unfold triu.
  destruct (Nat.leb_spec i t); [reflexivity | lia].
Defined.

(** ** A block wider than one column in [chol_super] *)

Lemma fadd_nonfinite_l (x y : fval) :
  is_finite x = false -> is_finite (fadd x y) = false.
Proof. destruct x, y; cbn; intros; try reflexivity; discriminate. Qed.

Lemma fadd_nonfinite_r (x y : fval) :
  is_finite y = false -> is_finite (fadd x y) = false.
Proof. destruct x, y; cbn; intros; try reflexivity; discriminate. Qed.


Lemma scale_inf_nonfinite (a : R) (i : fval) :
  is_finite i = false -> is_finite (scale_inf a i) = false.
Proof.
  intros H. unfold scale_inf.
  destruct (Rlt_dec 0 a); [exact H|].
  destruct (Rlt_dec a 0); [|reflexivity].
  destruct i; [discriminate | reflexivity | reflexivity | reflexivity].
Qed.

Lemma fmul_nonfinite_l (x y : fval) :
  is_finite x = false -> is_finite (fmul x y) = false.
Proof.
  destruct x; [discriminate | | |]; intros _; destruct y; cbn [fmul];
    try reflexivity; apply scale_inf_nonfinite; reflexivity.
Qed.

Lemma fdiv_nonfinite_l (x y : fval) :
  is_finite x = false -> is_finite (fdiv x y) = false.
Proof.
  destruct x; [discriminate | | |]; intros _; destruct y; cbn [fdiv];
    try reflexivity;
    destruct (Req_dec_T r 0); try reflexivity;
    apply scale_inf_nonfinite; reflexivity.
Qed.

Lemma fdiv_by_zero (x : fval) : is_finite (fdiv x (Fin 0)) = false.
Proof.
  destruct x as [a| | |]; cbn [fdiv];
    destruct (Req_dec_T 0 0); try contradiction; try reflexivity.
  apply scale_inf_nonfinite. reflexivity.
Qed.

Lemma fdot_nonfinite (n : nat) (x y : fvec) (t : nat) :
  (t < n)%nat -> is_finite (x t) = false -> is_finite (fdot n x y) = false.
Proof.
  induction n as [|n IH]; intros Ht Hx; [lia|]. cbn [fdot].
  destruct (Nat.eq_dec t n) as [->|Hne].
  - apply fadd_nonfinite_r, fmul_nonfinite_l, Hx.
  - apply fadd_nonfinite_l, IH; [lia | exact Hx].
Qed.



(** *** The offsets of a valid partition *)

Lemma sumZ_app (a b : list Z) : sumZ (a ++ b) = (sumZ a + sumZ b)%Z.
Proof.
  unfold sumZ. induction a as [|x a IH]; cbn [app fold_right]; [lia|].
  rewrite IH. lia.
Qed.

Lemma firstn_snoc (s : list Z) (j : nat) :
  (j < length s)%nat -> firstn (S j) s = firstn j s ++ [nth j s 0%Z].
Proof.
  revert j. induction s as [|x s IH]; intros j Hj; [cbn in Hj; lia|].
  destruct j as [|j]; [reflexivity|].
  cbn [length] in Hj.
  change (firstn (S (S j)) (x :: s)) with (x :: firstn (S j) s).
  change (firstn (S j) (x :: s)) with (x :: firstn j s).
  change (nth (S j) (x :: s) 0%Z) with (nth j s 0%Z).
  rewrite (IH j) by lia. reflexivity.
Qed.

Lemma positive_entry (s : list Z) (j : nat) :
  forallb (fun x => (0 <? x)%Z) s = true -> (j < length s)%nat ->
  (0 < nth j s 0)%Z.
Proof.
  intros Hpos Hj. rewrite forallb_forall in Hpos.
  apply Z.ltb_lt, Hpos, nth_In, Hj.
Qed.

Lemma sumZ_firstn_nonneg (s : list Z) (j : nat) :
  forallb (fun x => (0 <? x)%Z) s = true -> (0 <= sumZ (firstn j s))%Z.
Proof.
  intros Hpos. rewrite forallb_forall in Hpos.
  revert j. induction s as [|x s IH]; intros j.
  - destruct j; cbn; lia.
  - destruct j as [|j]; [cbn; lia|]. cbn [firstn].
    change (sumZ (x :: firstn j s)) with (x + sumZ (firstn j s))%Z.
    assert (0 < x)%Z by (apply Z.ltb_lt, Hpos; left; reflexivity).
    assert (0 <= sumZ (firstn j s))%Z
      by (apply IH; intros y Hy; apply Hpos; right; exact Hy).
    lia.
Qed.

Lemma cumsum_at_S (s : list Z) (j : nat) :
  forallb (fun x => (0 <? x)%Z) s = true -> (j < length s)%nat ->
  cumsum_at s (S j) = (cumsum_at s j + Z.to_nat (nth j s 0%Z))%nat.
Proof.
  intros Hpos Hj. unfold cumsum_at.
  rewrite (firstn_snoc s j Hj), sumZ_app.
  change (sumZ [nth j s 0%Z]) with (nth j s 0 + 0)%Z.
  pose proof (sumZ_firstn_nonneg s j Hpos).
  pose proof (positive_entry s j Hpos Hj). lia.
Qed.


Ltac prune_cases :=
  repeat match goal with
  | |- context [(?a =? ?b)%nat] => destruct (Nat.eqb_spec a b); try lia
  | |- context [(?a <? ?b)%nat] => destruct (Nat.ltb_spec a b); try lia
  | |- context [(?a <=? ?b)%nat] => destruct (Nat.leb_spec a b); try lia
  end; cbn [andb orb negb].

Section WideBlock.

Variables (N : nat) (A : fmat) (s : list Z).
Hypothesis Hsum : sumZ s = Z.of_nat N.
Hypothesis Hpos : forallb (fun x => (0 <? x)%Z) s = true.






End WideBlock.



(** ** A zero pivot *)

Lemma fdot_finite_l (n : nat) (x y : fvec) :
  is_finite (fdot n x y) = true ->
  forall t, (t < n)%nat -> is_finite (x t) = true.
Proof.
  intros H t Ht. destruct (is_finite (x t)) eqn:E; [reflexivity|].
  rewrite (fdot_nonfinite n x y t Ht E) in H. discriminate.
Qed.

(** The up-looking loop never writes above the diagonal. *)
Lemma chol_up_loop_upper (A : fmat) (n : nat) (L : fmat) (i t : nat) :
  chol_up_loop A n = (L, None) -> (i < t)%nat -> L i t = Fin 0.
Proof.
  unfold chol_up_loop. revert L.
  induction n as [|n IH]; intros L Hrun Hit.
  - injection Hrun as <-. reflexivity.
  - cbn [for_range_e] in Hrun.
    destruct (for_range_e n (chol_up_body A) zeros_mat)
      as [L0 [e|]] eqn:Hpre; [discriminate|].
    destruct (chol_up_body A n L0) as [L1|e] eqn:Hbody; [|discriminate].
    injection Hrun as <-.
    unfold chol_up_body in Hbody.
    destruct (la_solve n L0 (fun i0 => A i0 n)) as [x|e]; [|discriminate].
    cbn [bind] in Hbody. injection Hbody as <-.
    cbv beta. prune_cases; apply (IH L0 eq_refl Hit).
Qed.

Lemma la_solve_finite (n : nat) (a : fmat) (b x : fvec) (i t : nat) :
  la_solve n a b = Ok x -> (i < n)%nat -> (t < n)%nat ->
  is_finite (a i t) = true.
Proof.
  unfold la_solve. intros H Hi Ht.
  destruct (mat_finite n n a) eqn:E; [|discriminate].
  apply (proj1 (mat_finite_true n n a) E i t Hi Ht).
Qed.

(** X21. [chol_up] on a zero radicand: when the radicand of row [k] is zero
    and a row follows, [L[k,k]] becomes zero and the linear solve of the next
    row fails on the singular block. *)
Theorem chol_up_zero_radicand (N : nat) (A : rmat) (lower : bool) (k : nat)
    (L : fmat) (x : fvec) (r : R) :
  (S k < N)%nat ->
  chol_up_loop (inj_mat A) k = (L, None) ->
  la_solve k L (fun i => inj_mat A i k) = Ok x ->
  chol_up_radicand (inj_mat A) k x = Fin r -> r = 0 ->
  chol_up N (inj_mat A) lower = Raise SingularMatrix.
Proof.
  intros Hk Hpre Hsolve Hrad ->.
  destruct (chol_up_body_diag (inj_mat A) k L x Hsolve)
    as (L' & Hbody & Hdiag).
  rewrite Hrad, fsqrt_fin, sqrt_0 in Hdiag by lra.
  pose proof (for_range_e_next (chol_up_body (inj_mat A)) zeros_mat k L L'
                Hpre Hbody) as Hnext.
  assert (Hx : forall t, (t < k)%nat -> is_finite (x t) = true).
  { apply (fdot_finite_l k x x).
    unfold chol_up_radicand, fsub, inj_mat in Hrad.
    destruct (fdot k x x); [reflexivity | | |]; discriminate. }
  assert (HL' : forall i t, (i <= k)%nat -> (t <= k)%nat ->
                  is_finite (L' i t) = true).
  { intros i t Hi Ht.
    destruct (Nat.lt_ge_cases i t) as [Hit|Hti].
    - rewrite (chol_up_loop_upper (inj_mat A) (S k) L' i t Hnext Hit).
      reflexivity.
    - unfold chol_up_body in Hbody. rewrite Hsolve in Hbody.
      cbn [bind] in Hbody. injection Hbody as HL'.
      destruct (Nat.eq_dec i k) as [->|Hik].
      + destruct (Nat.eq_dec t k) as [->|Htk];
          [rewrite Hdiag; reflexivity|].
        rewrite <- HL'. cbv beta. prune_cases. apply Hx. lia.
      + rewrite <- HL'. cbv beta. prune_cases.
        apply (la_solve_finite k L _ x i t Hsolve); lia. }
  assert (Hbody' : chol_up_body (inj_mat A) (S k) L' = Raise SingularMatrix).
  { unfold chol_up_body, la_solve.
    rewrite (proj2 (mat_finite_true (S k) (S k) L'))
      by (intros i t Hi Ht; apply HL'; lia).
    rewrite (proj2 (vec_finite_true (S k) (fun i => inj_mat A i (S k))))
      by (intros; reflexivity).
    cbn [andb negb].
    assert (E : existsb (fun i => negb (fnonzero (L' i i))) (seq 0 (S k))
                = true).
    { apply existsb_exists. exists k. split; [apply in_seq; lia|].
      rewrite Hdiag. cbn [fnonzero].
      destruct (Req_dec_T 0 0); [reflexivity | contradiction]. }
    rewrite E. reflexivity. }
  pose proof (for_range_e_stops (chol_up_body (inj_mat A)) zeros_mat (S k) L'
                _ Hnext Hbody') as Hstop.
  unfold chol_up, chol_up_loop.
  rewrite (for_range_e_stopped (chol_up_body (inj_mat A)) zeros_mat
             (S (S k)) N L' _ Hk Hstop).
  reflexivity.
Qed.

Lemma chol_up_zero_radicand_witness :
  chol_up 2 (inj_mat A_zero) true = Raise SingularMatrix.
Proof.
  apply (chol_up_zero_radicand 2 A_zero true 0%nat zeros_mat zeros_vec
           (0 + - 0)).
  - lia.
  - reflexivity.
  - reflexivity.
  - reflexivity.
  - lra.
Defined.

(** X22. [chol_left] on a zero pivot raises nothing: [L[k,k]] is zero and the
    division leaves [inf] or [nan] in every entry of column [k] below the
    diagonal of the returned factor. *)
Theorem chol_left_zero_pivot (N : nat) (A : fmat) (k : nat) (r : R) :
  (k < N)%nat ->
  fsub (A k k) (fdot k (chol_left_loop N A k k) (chol_left_loop N A k k))
    = Fin r ->
  r = 0 ->
  chol_left N A true k k = Fin 0 /\
  forall i, (k < i)%nat -> (i < N)%nat ->
    is_finite (chol_left N A true i k) = false.
Proof.
  intros Hk Hrad ->.
  assert (E : forall i, chol_left N A true i k =
                        chol_left_body N A k (chol_left_loop N A k) i k).
  { intros i. unfold chol_left, oriented.
    rewrite (chol_left_loop_column_final N A (S k) N i k) by lia.
    reflexivity. }
  split.
  - rewrite E. unfold chol_left_body.
    rewrite Hrad, fsqrt_fin, sqrt_0 by lra.
    rewrite !Nat.eqb_refl, Nat.ltb_irrefl. reflexivity.
  - intros i Hki Hi. rewrite E. unfold chol_left_body.
    rewrite Hrad, fsqrt_fin, sqrt_0 by lra.
    rewrite !Nat.eqb_refl. cbn [andb].
    replace (k <? i)%nat with true by (symmetry; apply Nat.ltb_lt; lia).
    replace (i <? N)%nat with true by (symmetry; apply Nat.ltb_lt; lia).
    cbn [andb]. apply fdiv_by_zero.
Qed.

Lemma chol_left_zero_pivot_witness :
  chol_left 2 (inj_mat A_zero) true 0%nat 0%nat = Fin 0 /\
  forall i, (0 < i)%nat -> (i < 2)%nat ->
    is_finite (chol_left 2 (inj_mat A_zero) true i 0%nat) = false.
Proof.
  apply (chol_left_zero_pivot 2 (inj_mat A_zero) 0%nat (0 + - 0)).
  - lia.
  - reflexivity.
  - lra.
Defined.

(** ** The checks of the script's main block *)

Lemma solved_rows (sgn : R) (N : nat) (Lin : fmat) (win : fvec)
    (st : update_state) :
  lower_triangular N (rval Lin) ->
  rank_one_inv sgn N Lin win N st ->
  forall i, (i < N)%nat ->
    sumR N (fun t => val (Lin i t) * val (snd (fst st) t)) = val (win i).
Proof.
  intros Hlow Hinv i Hi. rewrite <- (ui_solved _ _ _ _ _ _ Hinv i Hi).
  rewrite (sumR_trunc N (S i)); [reflexivity | lia |].
  intros t Ht HtN. pose proof (Hlow i t ltac:(lia) HtN) as Z.
  unfold rval in Z. rewrite Z. lra.
Qed.

(** X23. The checks of the main block hold for every symmetric positive
    definite [A] of dimension other than one and every vector [w]: with [R]
    the factor of [A], [chol_update(R, w)] returns the factor of [A + w w^T]
    and the solution of [R x = w]; [chol_updown] returns the same pair;
    [chol_downdate] of the updated factor by [w] raises nothing, returns a
    factor of [A] and the solution of [L_up x = w], and [chol_updown] again
    returns the same pair. *)
Theorem main_checks_hold (N : nat) (A : rmat) (w : rvec) :
  SPD N A -> N <> 1%nat ->
  let R := chol_left N (inj_mat A) true in
  let L_up := fst (chol_update N R (inj_vec w)) in
  let w_up := snd (chol_update N R (inj_vec w)) in
  (forall i k, (i < N)%nat -> (k < N)%nat ->
     mulT N (rval L_up) i k = A i k + w i * w k) /\
  (forall i, (i < N)%nat ->
     sumR N (fun t => val (R i t) * val (w_up t)) = w i) /\
  chol_updown N R (inj_vec w) true = (L_up, w_up) /\
  exists L_down w_down,
    chol_downdate N L_up (inj_vec w) = Ok (L_down, w_down) /\
    (forall i k, (i < N)%nat -> (k < N)%nat ->
       mulT N (rval L_down) i k = A i k) /\
    (forall i, (i < N)%nat ->
       sumR N (fun t => val (L_up i t) * val (w_down t)) = w i) /\
    chol_updown N L_up (inj_vec w) false = (L_down, w_down).
Proof.
  intros Hspd HN R L_up w_up.
  destruct (chol_left_correct N A Hspd) as (Hfin & Hlow & Hpos & Hprod).
  fold R in Hfin, Hlow, Hpos, Hprod.
  assert (HfR : finite_mat N R) by (intros i j _ _; apply Hfin).
  pose proof (update_final_inv N R (inj_vec w) HfR (finite_inj_vec N w)
                Hlow Hpos) as Hu.
  assert (EL : L_up = fst (fst (update_loop N N R (inj_vec w))))
    by (unfold L_up; rewrite chol_update_unfold; reflexivity).
  assert (Ew : w_up = snd (fst (update_loop N N R (inj_vec w))))
    by (unfold w_up; rewrite chol_update_unfold; reflexivity).
  pose proof (ui_finite_L _ _ _ _ _ _ Hu) as HfL.
  pose proof (rank_one_lower _ N R _ _ _ Hlow Hu) as HlL.
  pose proof (rank_one_positive _ _ _ _ _ Hu) as HpL.
  rewrite <- EL in HfL, HlL, HpL.
  assert (HprodU : forall i k, (i < N)%nat -> (k < N)%nat ->
            mulT N (rval L_up) i k = A i k + w i * w k).
  { intros i k Hi Hk. rewrite EL.
    rewrite (rank_one_done_product _ _ _ _ _ Hu i k Hi Hk).
    rewrite (Hprod i k Hi Hk). unfold inj_vec; simpl. lra. }
  split; [exact HprodU|].
  split.
  { intros i Hi. rewrite Ew.
    apply (solved_rows 1 N R (inj_vec w) _ Hlow Hu i Hi). }
  split.
  { unfold chol_updown. destruct (Nat.eqb_spec N 1) as [|_]; [contradiction|].
    rewrite (updown_loop_update N N R (inj_vec w) (le_n _)).
    unfold L_up, w_up, chol_update.
    destruct (update_loop N N R (inj_vec w)) as [[L' w'] b]. reflexivity. }
  destruct (downdate_after_update_returns N R (inj_vec w) HfR
              (finite_inj_vec N w) Hlow Hpos) as (L_down & w_down & Hrun).
  fold L_up in Hrun.
  exists L_down, w_down. split; [exact Hrun|].
  destruct (chol_downdate_ok N _ _ _ _ Hrun) as [b Hloop].
  pose proof (downdate_loop_inv N L_up (inj_vec w) HfL (finite_inj_vec N w)
                HlL HpL N (L_down, w_down, b) (le_n _) Hloop) as Hd.
  split.
  { intros i k Hi Hk.
    pose proof (rank_one_done_product _ _ _ _ _ Hd i k Hi Hk) as E.
    cbn [fst snd] in E. rewrite E, (HprodU i k Hi Hk).
    unfold inj_vec; simpl. lra. }
  split.
  { intros i Hi.
    apply (solved_rows (-1) N L_up (inj_vec w) _ HlL Hd i Hi). }
  unfold chol_updown. destruct (Nat.eqb_spec N 1) as [|_]; [contradiction|].
  rewrite (updown_loop_downdate N N L_up (inj_vec w) _ (le_n _) Hloop).
  reflexivity.
Qed.

Lemma main_checks_hold_witness :
  let R := chol_left 2 (inj_mat A_4225) true in
  let L_up := fst (chol_update 2 R (inj_vec w_30)) in
  let w_up := snd (chol_update 2 R (inj_vec w_30)) in
  (forall i k, (i < 2)%nat -> (k < 2)%nat ->
     mulT 2 (rval L_up) i k = A_4225 i k + w_30 i * w_30 k) /\
  (forall i, (i < 2)%nat ->
     sumR 2 (fun t => val (R i t) * val (w_up t)) = w_30 i) /\
  chol_updown 2 R (inj_vec w_30) true = (L_up, w_up) /\
  exists L_down w_down,
    chol_downdate 2 L_up (inj_vec w_30) = Ok (L_down, w_down) /\
    (forall i k, (i < 2)%nat -> (k < 2)%nat ->
       mulT 2 (rval L_down) i k = A_4225 i k) /\
    (forall i, (i < 2)%nat ->
       sumR 2 (fun t => val (L_up i t) * val (w_down t)) = w_30 i) /\
    chol_updown 2 L_up (inj_vec w_30) false = (L_down, w_down).
Proof.
  apply (main_checks_hold 2 A_4225 w_30 A_4225_spd).
  discriminate.
Defined.

(** ** A successful downdate and the caller's arrays *)

Lemma write_alloc_fresh_matrix (h : store) (L : fmat) (w : fvec)
    (L' : fmat) (w' : fvec) :
  nth_error (matrices (write_copies (alloc_copies h L w) L' w'))
    (length (matrices h)) = Some L'.
Proof.
  unfold write_copies, alloc_copies. cbn [matrices].
  rewrite removelast_last, nth_error_app2 by apply le_n.
  rewrite Nat.sub_diag. reflexivity.
Qed.

Lemma write_alloc_fresh_vector (h : store) (L : fmat) (w : fvec)
    (L' : fmat) (w' : fvec) :
  nth_error (vectors (write_copies (alloc_copies h L w) L' w'))
    (length (vectors h)) = Some w'.
Proof.
  unfold write_copies, alloc_copies. cbn [vectors].
  rewrite removelast_last, nth_error_app2 by apply le_n.
  rewrite Nat.sub_diag. reflexivity.
Qed.

(** X24. When [chol_downdate] returns, the two arrays it returns are new ones,
    holding the downdated factor and the solved vector, and every array the
    caller had, [L] and [w] among them, is as it was. *)
Theorem chol_downdate_returns_copies
    (N : nat) (h : store) (pL pw : nat) (L : fmat) (w : fvec)
    (L' : fmat) (w' : fvec) :
  nth_error (matrices h) pL = Some L ->
  nth_error (vectors h) pw = Some w ->
  chol_downdate N L w = Ok (L', w') ->
  exists h',
    chol_downdate_call N h pL pw =
      Some (h', Ok (length (matrices h), length (vectors h))) /\
    nth_error (matrices h') (length (matrices h)) = Some L' /\
    nth_error (vectors h') (length (vectors h)) = Some w' /\
    (forall p, (p < length (matrices h))%nat ->
       nth_error (matrices h') p = nth_error (matrices h) p) /\
    (forall p, (p < length (vectors h))%nat ->
       nth_error (vectors h') p = nth_error (vectors h) p).
Proof.
  intros HpL Hpw Hrun.
  destruct (chol_downdate_ok N L w L' w' Hrun) as [b Hloop].
  unfold chol_downdate_call. rewrite HpL, Hpw, Hloop.
  eexists. split; [reflexivity|].
  split; [apply write_alloc_fresh_matrix|].
  split; [apply write_alloc_fresh_vector|].
  split; intros p Hp;
    [apply write_alloc_matrices | apply write_alloc_vectors]; exact Hp.
Qed.

Lemma chol_downdate_returns_copies_witness :
  exists L' w' h',
    chol_downdate 1 (inj_mat L_two) (inj_vec w_one) = Ok (L', w') /\
    chol_downdate_call 1
      {| matrices := [inj_mat L_two]; vectors := [inj_vec w_one] |} 0 0 =
      Some (h', Ok (1%nat, 1%nat)) /\
    nth_error (matrices h') 1 = Some L' /\
    nth_error (vectors h') 1 = Some w' /\
    nth_error (matrices h') 0 = Some (inj_mat L_two) /\
    nth_error (vectors h') 0 = Some (inj_vec w_one).
Proof.
  destruct downdate_two_one as (L' & w' & b & Hloop).
  assert (Hrun : chol_downdate 1 (inj_mat L_two) (inj_vec w_one) = Ok (L', w')).
  { unfold chol_downdate. rewrite Hloop. reflexivity. }
  destruct (chol_downdate_returns_copies 1
              {| matrices := [inj_mat L_two]; vectors := [inj_vec w_one] |}
              0 0 (inj_mat L_two) (inj_vec w_one) L' w' eq_refl eq_refl Hrun)
    as (h' & Hcall & HL' & Hw' & HkeepL & Hkeepw).
  exists L', w', h'. split; [exact Hrun|]. split; [exact Hcall|].
  split; [exact HL'|]. split; [exact Hw'|].
  split; [apply (HkeepL 0%nat); cbn; lia | apply (Hkeepw 0%nat); cbn; lia].
Defined.

(** ** When [chol_downdate] raises *)

Lemma nonzero_or_all_zero (m : nat) (x : rvec) :
  (exists i, (i < m)%nat /\ x i <> 0) \/ (forall i, (i < m)%nat -> x i = 0).
Proof.
  induction m as [|m IH]; [right; intros; lia|].
  destruct (Req_dec (x m) 0) as [Hz|Hnz].
  - destruct IH as [(i & Hi & Hx)|Hall].
    + left. exists i. split; [lia | exact Hx].
    + right. intros i Hi. destruct (Nat.eq_dec i m) as [->|]; [exact Hz|].
      apply Hall. lia.
  - left. exists m. split; [lia | exact Hnz].
Qed.

Lemma last_nonzero (m : nat) (x : rvec) :
  (exists i, (i < m)%nat /\ x i <> 0) ->
  exists i0, (i0 < m)%nat /\ x i0 <> 0 /\
             forall i, (i0 < i)%nat -> (i < m)%nat -> x i = 0.
Proof.
  induction m as [|m IH]; intros (i & Hi & Hx); [lia|].
  destruct (Req_dec (x m) 0) as [Hz|Hnz].
  - destruct (IH ltac:(exists i; split;
                       [destruct (Nat.eq_dec i m); [subst; contradiction | lia]
                       | exact Hx]))
      as (i0 & Hi0 & Hx0 & Hafter).
    exists i0. split; [lia|]. split; [exact Hx0|].
    intros j Hj Hjm. destruct (Nat.eq_dec j m) as [->|]; [exact Hz|].
    apply Hafter; lia.
  - exists m. split; [lia|]. split; [exact Hnz|]. intros; lia.
Qed.

Lemma sumR_sq_nonneg (n : nat) (g : rvec) : 0 <= sumR n (fun u => g u * g u).
Proof.
  induction n as [|n IH]; simpl; [lra|].
  pose proof (Rle_0_sqr (g n)) as H. unfold Rsqr in H. lra.
Qed.

Lemma sumR_sq_pos (n : nat) (g : rvec) (u0 : nat) :
  (u0 < n)%nat -> g u0 <> 0 -> 0 < sumR n (fun u => g u * g u).
Proof.
  induction n as [|n IH]; intros Hu Hg; [lia|]. simpl.
  pose proof (sumR_sq_nonneg n g) as Hnn.
  destruct (Nat.eq_dec u0 n) as [->|Hne].
  - assert (0 < g n * g n) by nra. lra.
  - pose proof (IH ltac:(lia) Hg).
    pose proof (Rle_0_sqr (g n)) as H'. unfold Rsqr in H'. lra.
Qed.

Lemma sumR_single (n : nat) (f : rvec) (i0 : nat) :
  (i0 < n)%nat -> (forall i, (i < n)%nat -> i <> i0 -> f i = 0) ->
  sumR n f = f i0.
Proof.
  intros Hi0 H.
  rewrite (sumR_change_one n i0 f (fun _ => 0) Hi0)
    by (intros i Hi Hne; apply H; assumption).
  rewrite (sumR_zero n (fun _ => 0)) by reflexivity. lra.
Qed.

Lemma quad_form_ext (N : nat) (A B : rmat) (x : rvec) :
  (forall i j, (i < N)%nat -> (j < N)%nat -> A i j = B i j) ->
  quad_form N A x = quad_form N B x.
Proof.
  intros H. unfold quad_form.
  apply sumR_ext; intros i Hi. apply sumR_ext; intros j Hj.
  rewrite (H i j Hi Hj). reflexivity.
Qed.

(** [M M^T] is positive definite for a lower-triangular [M] with positive
    diagonal. *)
Lemma gram_spd (N : nat) (M : rmat) :
  lower_triangular N M -> positive_diagonal N M -> SPD N (mulT N M).
Proof.
  intros Hlow Hpos. split.
  - intros i j _ _. apply mulT_sym.
  - intros x Hx. unfold quad_form, mulT. rewrite quad_gram.
    destruct (last_nonzero N x Hx) as (i0 & Hi0 & Hx0 & Hafter).
    apply (sumR_sq_pos N _ i0 Hi0).
    rewrite (sumR_single N _ i0 Hi0).
    + pose proof (Hpos i0 Hi0). nra.
    + intros i Hi Hne. destruct (Nat.lt_ge_cases i i0) as [Hlt|Hge].
      * rewrite (Hlow i i0 Hlt Hi0). lra.
      * rewrite (Hafter i ltac:(lia) Hi). lra.
Qed.

(** If the downdate returns, [L L^T - w w^T] is positive definite. *)
Lemma downdate_returns_spd (N : nat) (L : rmat) (w : rvec)
    (L' : fmat) (w' : fvec) :
  lower_triangular N L -> positive_diagonal N L ->
  chol_downdate N (inj_mat L) (inj_vec w) = Ok (L', w') ->
  SPD N (downdated N L w).
Proof.
  intros Hlow Hpos Hrun.
  destruct (chol_downdate_ok N _ _ _ _ Hrun) as [b Hloop].
  pose proof (downdate_loop_inv N (inj_mat L) (inj_vec w)
                (finite_inj_mat N L) (finite_inj_vec N w) Hlow Hpos
                N (L', w', b) (le_n _) Hloop) as Hinv.
  pose proof (rank_one_lower _ N (inj_mat L) _ _ _ Hlow Hinv) as HlL'.
  pose proof (rank_one_positive _ _ _ _ _ Hinv) as HpL'.
  cbn [fst snd] in HlL', HpL'.
  assert (E : forall i k, (i < N)%nat -> (k < N)%nat ->
            downdated N L w i k = mulT N (rval L') i k).
  { intros i k Hi Hk.
    pose proof (rank_one_done_product _ _ _ _ _ Hinv i k Hi Hk) as P.
    cbn [fst snd] in P. rewrite P.
    unfold downdated, mulT, rval, inj_mat, inj_vec; simpl. lra. }
  destruct (gram_spd N (rval L') HlL' HpL') as [_ Hq].
  split.
  - intros i j _ _. unfold downdated. rewrite (mulT_sym N L i j). lra.
  - intros x Hx. rewrite (quad_form_ext N _ (mulT N (rval L')) x E).
    apply Hq, Hx.
Qed.

(** With [a] the solution of the first [n + 1] rows of [L a = w], positive
    definiteness of [L L^T - w w^T] bounds the squares of [a]. *)
Lemma spd_downdate_bound (N : nat) (L : rmat) (w a : rvec) (n : nat) :
  lower_triangular N L -> positive_diagonal N L ->
  SPD N (downdated N L w) -> (n < N)%nat ->
  (forall i, (i <= n)%nat ->
     sumR i (fun t => L i t * a t) + L i i * a i = w i) ->
  sumR (S n) (fun t => a t * a t) < 1.
Proof.
  intros Hlow Hpos [_ Hq] Hn Ha.
  set (m := S n) in *.
  set (Sa := sumR m (fun t => a t * a t)).
  assert (Hdiag : forall t, (t < m)%nat -> L t t <> 0).
  { intros t Ht. apply Rgt_not_eq. apply (Hpos t). lia. }
  assert (Hup : forall i t, (i < t)%nat -> (t < m)%nat -> L i t = 0).
  { intros i t Hit Ht. apply (Hlow i t Hit). lia. }
  destruct (back_subst_exists m L Hdiag Hup a) as [x Hx].
  assert (Hw : forall i, (i < m)%nat -> w i = sumR m (fun t => L i t * a t)).
  { intros i Hi. rewrite <- (Ha i ltac:(lia)).
    rewrite (sumR_trunc m (S i)); [reflexivity | lia |].
    intros t Ht Htm. rewrite (Hup i t) by lia. lra. }
  assert (Hxw : sumR m (fun i => x i * w i) = Sa).
  { rewrite (sumR_ext m (fun i => x i * w i)
               (fun i => sumR m (fun t => x i * L i t * a t))).
    2:{ intros i Hi. rewrite (Hw i Hi), <- sumR_scal_l.
        apply sumR_ext; intros; lra. }
    rewrite sumR_swap. unfold Sa. apply sumR_ext; intros t Ht.
    rewrite (sumR_scal_r m (a t) (fun i => x i * L i t)), (Hx t Ht).
    reflexivity. }
  assert (HLL : sumR m (fun i => sumR m (fun j =>
                  x i * sumR m (fun u => L i u * L j u) * x j)) = Sa).
  { rewrite quad_gram. unfold Sa. apply sumR_ext; intros u Hu.
    rewrite (Hx u Hu). reflexivity. }
  set (x' := fun i => if (i <? m)%nat then x i else 0).
  assert (Hin : forall i, (i < m)%nat ->
            sumR N (fun j => x' i * downdated N L w i j * x' j) =
            sumR m (fun j => x i * sumR m (fun u => L i u * L j u) * x j) -
            sumR m (fun j => (x i * w i) * (x j * w j))).
  { intros i Hi.
    rewrite (sumR_trunc N m); [ | lia | ].
    2:{ intros j Hj HjN. unfold x'.
        destruct (Nat.ltb_spec j m); [lia|]. lra. }
    rewrite <- sumR_minus. apply sumR_ext; intros j Hj.
    unfold x', downdated, mulT.
    destruct (Nat.ltb_spec i m); [|lia]. destruct (Nat.ltb_spec j m); [|lia].
    rewrite (sumR_trunc N m (fun u => L i u * L j u)); [lra | lia |].
    intros u Hu HuN. rewrite (Hlow i u) by lia. lra. }
  assert (Hquad : quad_form N (downdated N L w) x' = Sa - Sa * Sa).
  { unfold quad_form.
    rewrite (sumR_trunc N m); [ | lia | ].
    2:{ intros i Hi HiN. apply sumR_zero. intros j Hj. unfold x'.
        destruct (Nat.ltb_spec i m); [lia|]. lra. }
    rewrite (sumR_ext m _ _ Hin).
    rewrite sumR_minus, HLL, <- sumR_mul_sumR, Hxw. reflexivity. }
  pose proof (sumR_sq_nonneg m a) as Hnn. fold Sa in Hnn.
  destruct (nonzero_or_all_zero m x) as [(i & Hi & Hxi)|Hall].
  - assert (Hpd : 0 < quad_form N (downdated N L w) x').
    { apply Hq. exists i. split; [lia|]. unfold x'.
      destruct (Nat.ltb_spec i m); [exact Hxi | lia]. }
    rewrite Hquad in Hpd. fold Sa. nra.
  - assert (Z : Sa = 0).
    { unfold Sa. apply sumR_zero. intros t Ht. rewrite <- (Hx t Ht).
      rewrite (sumR_zero m) by (intros i Hi; rewrite (Hall i Hi); lra).
      lra. }
    fold Sa. lra.
Qed.

Section DowndatePositiveDefinite.

Variables (N : nat) (L : rmat) (w : rvec).
Hypothesis Hlow : lower_triangular N L.
Hypothesis Hpos : positive_diagonal N L.
Hypothesis Hspd : SPD N (downdated N L w).

(** Every column passes the test; the scale is what the solved entries
    leave of one. *)
Lemma spd_downdate_loop (n : nat) :
  (n <= N)%nat ->
  exists Ln wn b,
    downdate_loop N n (inj_mat L) (inj_vec w) = (Ln, wn, Fin b, None) /\
    0 < b /\
    b * b = 1 - sumR n (fun t => val (wn t) * val (wn t)).
Proof.
  induction n as [|n IH]; intros Hn.
  - exists (inj_mat L), (inj_vec w), 1. split; [reflexivity|].
    split; [lra | simpl; lra].
  - destruct (IH ltac:(lia)) as (Ln & wn & b & Hpre & Hb & Hbb).
    pose proof (downdate_loop_inv N (inj_mat L) (inj_vec w)
                  (finite_inj_mat N L) (finite_inj_vec N w) Hlow Hpos
                  n (Ln, wn, Fin b) ltac:(lia) Hpre) as Hinv.
    pose proof (ui_todo _ _ _ _ _ _ Hinv) as Htodo.
    pose proof (ui_solved _ _ _ _ _ _ Hinv) as Hsol.
    pose proof (ui_residual _ _ _ _ _ _ Hinv n (le_n _) Hn) as Hres.
    cbn [fst snd] in Htodo, Hsol, Hres.
    assert (HLnn : val (Ln n n) = L n n)
      by (rewrite (Htodo n n (le_n _)); reflexivity).
    pose proof (Hpos n Hn) as Hl.
    set (a := val (wn n) / val (Ln n n)).
    set (avec := fun t => if (t =? n)%nat then a else val (wn t)).
    assert (Ha : forall i, (i <= n)%nat ->
              sumR i (fun t => L i t * avec t) + L i i * avec i = w i).
    { intros i Hi.
      rewrite (sumR_ext i (fun t => L i t * avec t)
                 (fun t => val (inj_mat L i t) * val (wn t))).
      2:{ intros t Ht. unfold avec.
          destruct (Nat.eqb_spec t n); [lia | reflexivity]. }
      destruct (Nat.eq_dec i n) as [->|Hne].
      - unfold avec. rewrite Nat.eqb_refl. unfold a. rewrite HLnn.
        unfold inj_vec in Hres. cbn [val] in Hres.
        replace (L n n * (val (wn n) / L n n)) with (val (wn n))
          by (field; lra).
        rewrite Hres. lra.
      - unfold avec. destruct (Nat.eqb_spec i n); [lia|].
        apply (Hsol i ltac:(lia)). }
    pose proof (spd_downdate_bound N L w avec n Hlow Hpos Hspd Hn Ha)
      as Hbound.
    cbn [sumR] in Hbound.
    rewrite (sumR_ext n (fun t => avec t * avec t)
               (fun t => val (wn t) * val (wn t))) in Hbound.
    2:{ intros t Ht. unfold avec.
        destruct (Nat.eqb_spec t n); [lia | reflexivity]. }
    unfold avec at 1 2 in Hbound. rewrite Nat.eqb_refl in Hbound.
    assert (Hok : a * a < b * b) by lra.
    destruct (downdate_body_spec N n Ln wn b Hn
                (ui_finite_L _ _ _ _ _ _ Hinv)
                (ui_finite_w _ _ _ _ _ _ Hinv) Hb
                ltac:(rewrite HLnn; lra) Hok)
      as (L' & w' & E & _ & Hw').
    fold a in E, Hw'.
    exists L', w', (sqrt (b * b - a * a)).
    split; [apply (downdate_loop_next N n _ _ (Ln, wn, Fin b) _ Hpre E)|].
    split; [apply sqrt_lt_R0; lra|].
    rewrite sqrt_sqrt by lra. cbn [sumR].
    rewrite (sumR_ext n (fun t => val (w' t) * val (w' t))
               (fun t => val (wn t) * val (wn t))).
    2:{ intros t Ht. rewrite Hw'.
        destruct (Nat.eqb_spec t n); [lia|].
        destruct (Nat.ltb_spec n t); [lia|]. reflexivity. }
    rewrite Hw', Nat.eqb_refl. cbn [val]. lra.
Qed.

End DowndatePositiveDefinite.

(** X25. [chol_downdate] returns exactly when [L L^T - w w^T] is positive
    definite: the error it raises is the only way it fails, and it is raised
    on those downdates only that have no Cholesky factor. *)
Theorem chol_downdate_returns_iff (N : nat) (L : rmat) (w : rvec) :
  lower_triangular N L -> positive_diagonal N L ->
  (exists L' w', chol_downdate N (inj_mat L) (inj_vec w) = Ok (L', w')) <->
  SPD N (downdated N L w).
Proof.
  intros Hlow Hpos. split.
  - intros (L' & w' & Hrun).
    apply (downdate_returns_spd N L w L' w' Hlow Hpos Hrun).
  - intros Hspd.
    destruct (spd_downdate_loop N L w Hlow Hpos Hspd N (le_n _))
      as (L' & w' & b & Hloop & _).
    exists L', w'. unfold chol_downdate. rewrite Hloop. reflexivity.
Qed.

Lemma chol_downdate_returns_iff_witness :
  (exists L' w',
     chol_downdate 1 (inj_mat L_two) (inj_vec w_one) = Ok (L', w')) <->
  SPD 1 (downdated 1 L_two w_one).
Proof.
  apply (chol_downdate_returns_iff 1 L_two w_one L_two_lower L_two_positive).
Defined.

(** ** [chol_updown] where [chol_downdate] raises *)

Lemma updown_body_other_column (N : nat) (u : bool) (k : nat)
    (st : update_state) (i t : nat) :
  t <> k -> fst (fst (updown_body N u k st)) i t = fst (fst st) i t.
Proof.
  intros Ht. destruct st as [[L w] b]. unfold updown_body. cbv zeta.
  destruct u; cbn [fst snd]; prune_cases; reflexivity.
Qed.

Lemma updown_loop_column_final (N : nat) (u : bool) (L : fmat) (w : fvec)
    (j m i : nat) :
  (S j <= m)%nat ->
  fst (fst (for_range m (updown_body N u) (L, w, Fin 1))) i j =
  fst (fst (updown_body N u j
              (for_range j (updown_body N u) (L, w, Fin 1)))) i j.
Proof.
  intros Hm. induction m as [|m IH]; [lia|].
  destruct (Nat.eq_dec m j) as [->|Hne]; [reflexivity|].
  cbn [for_range]. rewrite updown_body_other_column by lia. apply IH. lia.
Qed.

(** The column at which the downdate would raise: [chol_updown] goes on
    and leaves [nan] or zero on the diagonal. *)
Lemma updown_body_failed_column (N j : nat) (L : fmat) (w : fvec) (b : R) :
  is_finite (L j j) = true -> is_finite (w j) = true ->
  0 < b -> 0 < val (L j j) ->
  let a := val (w j) / val (L j j) in
  (b * b < a * a ->
   fst (fst (updown_body N false j (L, w, Fin b))) j j = NaN) /\
  (a * a = b * b ->
   fst (fst (updown_body N false j (L, w, Fin b))) j j = Fin 0).
Proof.
  intros HL Hw Hb Hl a.
  assert (E : fst (fst (updown_body N false j (L, w, Fin b))) j j =
              fmul (fdiv (fsqrt (Fin (b * b + -1 * (a * a)))) (Fin b))
                   (Fin (val (L j j)))).
  { unfold updown_body. cbv zeta. cbn [fst snd].
    rewrite Nat.ltb_irrefl, !Nat.eqb_refl. cbn [andb].
    rewrite (finite_val (w j) Hw), (finite_val (L j j) HL). cbn [val].
    rewrite fdiv_fin by lra. autorewrite with fin. reflexivity. }
  rewrite E. split; intros Ha.
  - rewrite fsqrt_neg by lra. reflexivity.
  - rewrite fsqrt_fin by lra.
    replace (b * b + -1 * (a * a)) with 0 by lra.
    rewrite sqrt_0, fdiv_fin by lra. autorewrite with fin.
    f_equal. field. lra.
Qed.

(** X26. In exact arithmetic, where [chol_downdate] raises, [chol_updown] in
    the downdate direction raises nothing and returns an array that is no
    Cholesky factor: at the column [j] where [chol_downdate] stops, on the
    test [α² >= β²], the diagonal entry it returns is [nan] when [α² > β²] and
    zero when [α² = β²]. *)
Theorem chol_updown_where_downdate_raises (N : nat) (L : rmat) (w : rvec)
    (e : error) :
  lower_triangular N L -> positive_diagonal N L -> N <> 1%nat ->
  chol_downdate N (inj_mat L) (inj_vec w) = Raise e ->
  exists j Lj wj β,
    (j < N)%nat /\
    downdate_loop N j (inj_mat L) (inj_vec w) = (Lj, wj, Fin β, None) /\
    downdate_check j (Lj, wj, Fin β) = true /\
    let α := val (wj j) / val (Lj j j) in
    (β * β < α * α /\
     fst (chol_updown N (inj_mat L) (inj_vec w) false) j j = NaN) \/
    (α * α = β * β /\
     fst (chol_updown N (inj_mat L) (inj_vec w) false) j j = Fin 0).
Proof.
  intros Hlow Hpos HN Hrun. unfold chol_downdate in Hrun.
  destruct (downdate_loop N N (inj_mat L) (inj_vec w)) as [st [e'|]] eqn:Hloop;
    [|destruct st as [[L0 w0] b0]; discriminate].
  destruct (downdate_loop_first_failure N N _ _ st e' Hloop)
    as (j & Hj & Hpre & Hbody).
  destruct (downdate_body_error N j st e' Hbody) as [_ Hcheck].
  destruct st as [[Lj wj] bj].
  pose proof (downdate_loop_inv N (inj_mat L) (inj_vec w)
                (finite_inj_mat N L) (finite_inj_vec N w) Hlow Hpos
                j (Lj, wj, bj) (Nat.lt_le_incl _ _ Hj) Hpre) as Hinv.
  pose proof (ui_finite_L _ _ _ _ _ _ Hinv) as HfL.
  pose proof (ui_finite_w _ _ _ _ _ _ Hinv) as Hfw.
  pose proof (ui_finite_b _ _ _ _ _ _ Hinv) as Hfb.
  pose proof (ui_scale_pos _ _ _ _ _ _ Hinv) as Hb.
  pose proof (ui_todo _ _ _ _ _ _ Hinv j j (le_n _)) as Hsame.
  cbn [fst snd] in HfL, Hfw, Hfb, Hb, Hsame.
  assert (Hl : 0 < val (Lj j j)) by (rewrite Hsame; apply (Hpos j Hj)).
  rewrite (finite_val bj Hfb) in Hcheck, Hpre.
  pose proof (proj1 (downdate_check_spec N j Lj wj (val bj) Hj HfL Hfw
                       (Rgt_not_eq _ _ Hl)) Hcheck) as Hbad.
  exists j, Lj, wj, (val bj).
  split; [exact Hj|]. split; [exact Hpre|]. split; [exact Hcheck|].
  intros α.
  assert (E : fst (chol_updown N (inj_mat L) (inj_vec w) false) j j =
              fst (fst (updown_body N false j (Lj, wj, Fin (val bj)))) j j).
  { unfold chol_updown. destruct (Nat.eqb_spec N 1) as [|_]; [contradiction|].
    assert (P : forall s : update_state,
              fst (let '(L', w', _) := s in (L', w')) = fst (fst s))
      by (intros [[L' w'] b']; reflexivity).
    rewrite P, (updown_loop_column_final N false _ _ j N j Hj).
    rewrite (updown_loop_downdate N j _ _ _ (Nat.lt_le_incl _ _ Hj) Hpre).
    reflexivity. }
  destruct (updown_body_failed_column N j Lj wj (val bj)
              (HfL j j Hj Hj) (Hfw j Hj) Hb Hl) as [Hnan Hzero].
  fold α in Hnan, Hzero, Hbad.
  destruct (Rle_lt_or_eq_dec _ _ Hbad) as [Hlt|Heq].
  - left. split; [exact Hlt|]. rewrite E. apply Hnan. exact Hlt.
  - right. split; [symmetry; exact Heq|]. rewrite E. apply Hzero.
    symmetry; exact Heq.
Qed.

Lemma L_identity_lower : lower_triangular 2 L_identity.
Proof.
  intros i j Hij Hj. unfold L_identity.
  destruct (Nat.eqb_spec i j); [lia | reflexivity].
Qed.

Lemma L_identity_positive : positive_diagonal 2 L_identity.
Proof. intros j Hj. unfold L_identity. rewrite Nat.eqb_refl. lra. Qed.

Lemma chol_updown_where_downdate_raises_witness :
  exists j Lj wj β,
    (j < 2)%nat /\
    downdate_loop 2 j (inj_mat L_identity) (inj_vec w_30)
      = (Lj, wj, Fin β, None) /\
    downdate_check j (Lj, wj, Fin β) = true /\
    let α := val (wj j) / val (Lj j j) in
    (β * β < α * α /\
     fst (chol_updown 2 (inj_mat L_identity) (inj_vec w_30) false) j j
       = NaN) \/
    (α * α = β * β /\
     fst (chol_updown 2 (inj_mat L_identity) (inj_vec w_30) false) j j
       = Fin 0).
Proof.
  apply (chol_updown_where_downdate_raises 2 L_identity w_30
           NotPositiveDefinite L_identity_lower L_identity_positive).
  - discriminate.
  - exact chol_downdate_identity_30.
Defined.

(** ** A non-positive pivot in [chol_super] *)

(** X27. [chol_super] is the one factorisation that reports a matrix that is
    not positive definite: when the blocks before block [j] were factored, the
    block handed to [la.cholesky] is finite and its leading entry is not
    positive, [chol_super] raises that routine's error. *)
Theorem chol_super_nonpositive_pivot (N : nat) (A : fmat) (s : list Z)
    (lower : bool) (j : nat) (L : fmat) (r : R) :
  sumZ s = Z.of_nat N ->
  forallb (fun x => (0 <? x)%Z) s = true ->
  (j < length s)%nat ->
  for_range_e j (chol_super_body N A s) zeros_mat = (L, None) ->
  let k1 := cumsum_at s j in
  let sz := (cumsum_at s (S j) - k1)%nat in
  let B : fmat := fun r c =>
    fsub (A (k1 + r)%nat (k1 + c)%nat)
         (fdot k1 (L (k1 + r)%nat) (L (k1 + c)%nat)) in
  mat_finite sz sz B = true ->
  B 0%nat 0%nat = Fin r -> r <= 0 ->
  chol_super N A s lower = Raise NotPositiveDefiniteBlock.
Proof.
  intros Hsum Hpos Hj Hpre k1 sz B Hfin HB Hr.
  assert (Hsz : (0 < sz)%nat).
  { unfold sz, k1. rewrite (cumsum_at_S s j Hpos Hj).
    pose proof (positive_entry s j Hpos Hj). lia. }
  assert (Hbody : chol_super_body N A s j L = Raise NotPositiveDefiniteBlock).
  { unfold chol_super_body. cbv zeta. fold k1. fold sz. fold B.
    unfold la_cholesky. rewrite Hfin.
    assert (Hfirst : for_range_e 1 (potrf_body sz B) zeros_mat
                     = (zeros_mat, Some NotPositiveDefiniteBlock)).
    { cbn [for_range_e]. unfold potrf_body. cbv zeta. cbn [fdot].
      rewrite HB. autorewrite with fin.
      replace (fpositive (Fin (r - 0))) with false; [reflexivity|].
      symmetry. destruct (fpositive (Fin (r - 0))) eqn:E; [|reflexivity].
      apply fpositive_fin in E. lra. }
    rewrite (for_range_e_stopped (potrf_body sz B) zeros_mat 1 sz
               zeros_mat _ Hsz Hfirst).
    reflexivity. }
  unfold chol_super.
  rewrite Hsum, Z.eqb_refl, Hpos. cbn [negb].
  rewrite (for_range_e_stopped (chol_super_body N A s) zeros_mat (S j)
             (length s) L _ Hj
             (for_range_e_stops _ _ j L _ Hpre Hbody)).
  reflexivity.
Qed.

Lemma chol_super_nonpositive_pivot_witness :
  chol_super 1 (inj_mat A_minus_one) [1%Z] true
    = Raise NotPositiveDefiniteBlock.
Proof.
  apply (chol_super_nonpositive_pivot 1 (inj_mat A_minus_one) [1%Z] true
           0%nat zeros_mat (-1 + - 0)).
  - reflexivity.
  - reflexivity.
  - cbn. lia.
  - reflexivity.
  - reflexivity.
  - reflexivity.
  - lra.
Defined.
